(** * IsaacDrones / OmniDrones learning core: a shallow embedding

    The development follows [omni_drones/learning]: [common.py]
    (parameter updates and the sequence replay buffer), [ppo/ppo.py],
    [ppo/ppo_adapt.py], [mappo.py] (clipped PPO losses, minibatching, the
    adaptation phase, the forward pass of the adaptive policy, the epochs
    of an update) and [sac.py] (the bootstrap target of the twin
    critics, the update schedule, the temperature loss).  It also covers
    [utils/envs/transforms.py] (episode statistics, the multi-discrete
    action transform), [envs/formation.py] (initial placement, costs and
    reward of the formation task) and the main loop of
    [scripts/train.py].

    Numbers.  Tensor entries are exact rationals in canonical form
    ([Qc]), so that [=] is equality of numbers and every definition
    computes.  Rounding, infinities and NaN of the floating point types
    are not part of the model.  [exp] is kept abstract: the losses are
    parametric in it.

    Tensors.  A tensor is the list of its entries in row-major order.  A
    [TensorDict] minibatch is a list of records, one per batch element,
    since every entry of a [TensorDict] shares the batch dimensions. *)

From Stdlib Require Import QArith Qcanon Qcabs Lqa.
From stdpp Require Import base option numbers list gmap strings.

(** ** Scalars *)

Module Num.
Local Open Scope Qc_scope.

Definition of_nat (n : nat) : Qc := Qc_of_Z (Z.of_nat n).

(** A decimal literal [z / p], e.g. [frac 1 10] for [0.1]. *)
Definition frac (z : Z) (p : positive) : Qc := Q2Qc (z # p).

(** [bool.float()] *)
Definition float (b : bool) : Qc := if b then 1 else 0.

(** [torch.min(a, b)] and [torch.max(a, b)] on one entry. *)
Definition min (x y : Qc) : Qc := if decide (x ≤ y) then x else y.
Definition max (x y : Qc) : Qc := if decide (x ≤ y) then y else x.

(** [x.clamp(lo, hi)]: [min(max(x, lo), hi)]. *)
Definition clamp (x lo hi : Qc) : Qc := min (max x lo) hi.

Definition sum (l : list Qc) : Qc := foldr Qcplus 0 l.

(** [x.mean()] over all entries: [x.sum() / x.numel()]. *)
Definition mean (l : list Qc) : Qc := sum l / of_nat (length l).

(** [nn.MSELoss(reduction="none")] *)
Definition mse (input target : Qc) : Qc :=
  (input - target) * (input - target).

(** [nn.HuberLoss(reduction="none", delta=delta)] *)
Definition huber (delta : Qc) (input target : Qc) : Qc :=
  let z := Qcabs (input - target) in
  if decide (z ≤ delta)
  then frac 1 2 * z * z
  else delta * (z - frac 1 2 * delta).

End Num.

(** ** [learning/common.py]: parameter updates *)

Module common.
Local Open Scope Qc_scope.

(** The [.data] of one parameter. *)
Definition tensor := list Qc.

(** [nn.Module.parameters()], in registration order. *)
Definition parameters := list tensor.

(** [tau * param.data + (1.0 - tau) * target_param.data] followed by
    [target_param.data.copy_(...)].  Operands of different sizes make
    the call raise ([None]); broadcasting between different shapes is
    not modelled. *)
Definition lerp_ (tau : Qc) (target_param param : tensor) : option tensor :=
  if decide (length target_param = length param)
  then Some (zip_with (λ p t, tau * p + (1 - tau) * t) param target_param)
  else None.

(** [target_param.data.copy_(param.data)] *)
Definition copy_ (target_param param : tensor) : option tensor :=
  if decide (length target_param = length param)
  then Some param
  else None.

(** [zip] stops at the shorter sequence: target parameters without a
    partner are left as they are. *)
Fixpoint soft_update (target source : parameters) (tau : Qc)
  : option parameters :=
  match target, source with
  | target_param :: target', param :: source' =>
      new ← lerp_ tau target_param param;
      rest ← soft_update target' source' tau;
      Some (new :: rest)
  | _, _ => Some target
  end.

Fixpoint hard_update (target source : parameters) : option parameters :=
  match target, source with
  | target_param :: target', param :: source' =>
      new ← copy_ target_param param;
      rest ← hard_update target' source';
      Some (new :: rest)
  | _, _ => Some target
  end.

(** *** The sequence replay buffer [MyBuffer] *)

Local Close Scope Qc_scope.

Inductive exn := ValueError | RuntimeError | IndexError | AttributeError.

(** Exceptions as a sum: [inl e] is a raised [e]. *)
Definition result (A : Type) : Type := exn + A.
Definition ok {A} (a : A) : result A := inr a.
Definition raise {A} (e : exn) : result A := inl e.
Definition bind {A B} (m : result A) (f : A → result B) : result B :=
  match m with inl e => inl e | inr a => f a end.
Definition from_option {A} (e : exn) (o : option A) : result A :=
  match o with Some a => inr a | None => inl e end.
Fixpoint traverse {A B} (f : A → result B) (l : list A) : result (list B) :=
  match l with
  | [] => ok []
  | a :: l' =>
      bind (f a) (λ b, bind (traverse f l') (λ bs, ok (b :: bs)))
  end.

(** [torch.randint(low, high, ...)]: uniform in [[low, high)], and a
    [RuntimeError] when the range is empty.  [draw] is the raw random
    number the generator supplies. *)
Definition randint (low high : nat) (draw : nat) : result nat :=
  if decide (low < high)
  then ok (low + draw `mod` (high - low))
  else raise RuntimeError.

Section MyBuffer.
(** One row of the storage: one time step of the stored batch. *)
Context {A : Type}.

(** Modelled from the spec: [LazyTensorStorage] is a class of the
    torchrl library and not among the sources.  It is the
    fixed-capacity store of the replay buffer entry: [max_size] rows,
    of which the first [_len] are valid; [set(cursor, data)] writes
    [data[i]] to row [cursor[i]] and raises [_len] to the highest
    written row plus one.  Rows that were never written are absent
    from [_storage]. *)
Record LazyTensorStorage := {
  max_size : nat;
  _storage : gmap nat A;
  _len : nat
}.

Definition LazyTensorStorage_init (max_size : nat) : LazyTensorStorage :=
  {| max_size := max_size; _storage := ∅; _len := 0 |}.

Definition write_rows (m : gmap nat A) (cursor : list nat) (data : list A)
  : gmap nat A :=
  foldl (λ m '(i, x), <[i := x]> m) m (zip cursor data).

Definition LazyTensorStorage_set
    (st : LazyTensorStorage) (cursor : list nat) (data : list A)
  : LazyTensorStorage :=
  {| max_size := max_size st;
     _storage := write_rows (_storage st) cursor data;
     _len := _len st `max` (max_list cursor + 1) |}.

Record MyBuffer := {
  storage : LazyTensorStorage;
  _cursor : nat
}.

(** [MyBuffer.__init__] *)
Definition MyBuffer_init (max_size : nat) : MyBuffer :=
  {| storage := LazyTensorStorage_init max_size; _cursor := 0 |}.

(** [MyBuffer.extend].  [data] is [data.permute(1, 0)]: the batch with
    time as its first axis, so [t] is its length.  A remainder by zero
    raises, and so does [cursor[-1]] when [t = 0]. *)
Definition extend (self : MyBuffer) (data : list A) : option MyBuffer :=
  let t := length data in
  if decide (max_size (storage self) = 0) then None
  else
    let cursor :=
      (λ i, (_cursor self + i) `mod` max_size (storage self)) <$> seq 0 t in
    last_cursor ← last cursor;
    Some {| storage := LazyTensorStorage_set (storage self) cursor data;
            _cursor := last_cursor + 1 |}.

(** [extend] applied to each batch of a list in turn. *)
Definition extend_all (self : MyBuffer) (batches : list (list A))
  : option MyBuffer :=
  foldl (λ b data, b ≫= λ b, extend b data) (Some self) batches.

(** [MyBuffer.__len__] *)
Definition len (self : MyBuffer) : nat := _len (storage self).

(** The state of a buffer of capacity [M] that has taken in
    [entries]: a ring holding the last [M] of them. *)
Record holds (M : nat) (b : MyBuffer) (entries : list A) : Prop := {
  holds_max_size : max_size (storage b) = M;
  holds_len : len b = length entries `min` M;
  holds_cursor : _cursor b `mod` M = length entries `mod` M;
  holds_valid : ∀ i, is_Some (_storage (storage b) !! i) → i < len b;
  holds_lookup : ∀ j, j < length entries → length entries ≤ j + M →
    _storage (storage b) !! (j `mod` M) = entries !! j
}.
End MyBuffer.

Arguments LazyTensorStorage : clear implicits.
Arguments MyBuffer : clear implicits.

Section Sample.
(** A row holds one entry per environment. *)
Context {E : Type}.

(** [sample_sub_traj]: [t = torch.randint(0, traj.shape[0] - seq_len,
    (1,))], then [traj[t + torch.arange(seq_len)]]. *)
Definition sample_sub_traj (traj : list E) (seq_len : nat) (draw : nat)
  : result (list E) :=
  bind (randint 0 (length traj - seq_len) draw) (λ t,
  traverse (λ i, from_option IndexError (traj !! (t + i))) (seq 0 seq_len)).

(** [self.storage[:self.storage._len, idx]]: column [idx] of the
    valid rows. *)
Definition valid_column (self : MyBuffer (list E)) (idx : nat)
  : result (list E) :=
  traverse
    (λ i, from_option IndexError (_storage (storage self) !! i ≫= (.!! idx)))
    (seq 0 (len self)).

(** [MyBuffer.sample], with [num_samples = batch_size.numel()].  The
    two generators are given by their raw draws: [idx_draw k] for
    entry [k] of [sub_sample_idx], [t_draw k] for the start of
    sub-trajectory [k] ([randomness="different"]). *)
Definition sample (self : MyBuffer (list E)) (num_samples seq_len : nat)
    (idx_draw t_draw : nat → nat) : result (list (list E)) :=
  if decide (len self < seq_len) then raise ValueError
  else
    bind (from_option AttributeError
            (length <$> _storage (storage self) !! 0)) (λ shape1,
    traverse (λ k,
      bind (randint 0 shape1 (idx_draw k)) (λ idx,
      bind (valid_column self idx) (λ traj,
      sample_sub_traj traj seq_len (t_draw k))))
      (seq 0 num_samples)).
End Sample.

End common.

(** ** [learning/ppo/ppo.py] *)

Module ppo.
Local Open Scope Qc_scope.

(** One element of a flattened minibatch.  The entries recomputed from
    the current parameters inside the update ([log_probs] from
    [dist.log_prob], [values] from the critic) are fields as well. *)
Record transition := {
  adv : Qc;              (* ["adv"], ["advantages"] *)
  sample_log_prob : Qc;  (* log-probability at collection time *)
  log_probs : Qc;        (* log-probability under the current actor *)
  state_value : Qc;      (* value recorded at collection time *)
  ret : Qc;              (* ["ret"], ["returns"] *)
  values : Qc;           (* value under the current critic *)
  is_init : bool
}.

(** An element whose value at collection is [0] while its return and
    its new prediction are both [1]. *)
Definition one_moved : transition :=
  {| adv := 0; sample_log_prob := 0; log_probs := 0;
     state_value := 0; ret := 1; values := 1; is_init := false |}.

(** [PPOPolicy.__init__] *)
Definition clip_param : Qc := Num.frac 1 10.
Definition entropy_coef : Qc := Num.frac 1 1000.

Section Update.
Variable exp : Qc → Qc.
Variable action_dim : nat.

(** [PPOPolicy._update], the policy part. *)
Definition policy_loss (tensordict : list transition) : Qc :=
  let surr (s : transition) :=
    let ratio := exp (log_probs s - sample_log_prob s) in
    let surr1 := adv s * ratio in
    let surr2 := adv s * Num.clamp ratio (1 - clip_param) (1 + clip_param) in
    Num.min surr1 surr2 in
  - Num.mean (surr <$> tensordict) * Num.of_nat action_dim.

(** [self.critic_loss_fn(b_returns, values)] with
    [nn.MSELoss(reduction="none")]: the loss of each element. *)
Definition critic_loss (tensordict : list transition) : list Qc :=
  (λ s, Num.mse (ret s) (values s)) <$> tensordict.

(** [(value_loss * (~tensordict["is_init"])).mean()] *)
Definition value_loss (tensordict : list transition) : Qc :=
  Num.mean
    ((λ s, Num.mse (ret s) (values s) * Num.float (negb (is_init s)))
       <$> tensordict).
End Update.

Local Close Scope Qc_scope.

(** [x.reshape(rows, -1)] of a one-dimensional tensor, row by row. *)
Fixpoint chunks {A} (cols rows : nat) (l : list A) : list (list A) :=
  match rows with
  | 0 => []
  | S rows' => take cols l :: chunks cols rows' (drop cols l)
  end.

(** The size [-1] stands for is [numel / rows]; no such size exists when
    [rows] is zero or does not divide [numel], and the call raises. *)
Definition reshape {A} (rows : nat) (l : list A) : option (list (list A)) :=
  if decide (rows = 0) then None
  else if decide (length l `mod` rows = 0)
       then Some (chunks (length l / rows) rows l)
       else None.

(** The local [perm] of [make_batch] for a flattened batch of [size]
    elements.  [randperm] stands for [torch.randperm]; [//] by zero
    raises. *)
Definition make_batch_perm (size num_minibatches : nat)
    (randperm : nat → list nat) : option (list (list nat)) :=
  if decide (num_minibatches = 0) then None
  else reshape num_minibatches
         (randperm ((size / num_minibatches) * num_minibatches)).

(** [tensordict[indices]] *)
Definition index {A} (tensordict : list A) (indices : list nat)
  : option (list A) :=
  mapM (tensordict !!.) indices.

(** [make_batch]: the minibatches of one pass, in the order they are
    yielded.  [tensordict] is [tensordict.reshape(-1)]. *)
Definition make_batch {A} (tensordict : list A) (num_minibatches : nat)
    (randperm : nat → list nat) : option (list (list A)) :=
  perm ← make_batch_perm (length tensordict) num_minibatches randperm;
  mapM (index tensordict) perm.

End ppo.

(** ** [learning/mappo.py] *)

Module mappo.
Local Open Scope Qc_scope.
Import ppo.

Section Update.
Variable exp : Qc → Qc.
Variable clip_param : Qc.          (* [cfg.clip_param] *)
Variable act_dim : nat.            (* [action_spec.shape.numel()] *)
Variable critic_loss_fn : Qc → Qc → Qc.
  (* [nn.HuberLoss(reduction="none", delta=...)] or
     [nn.MSELoss(reduction="none")] *)

(** [MAPPOPolicy.update_actor] *)
Definition policy_loss (batch : list transition) : Qc :=
  let surr (s : transition) :=
    let ratio := exp (log_probs s - sample_log_prob s) in
    let surr1 := ratio * adv s in
    let surr2 := Num.clamp ratio (1 - clip_param) (1 + clip_param) * adv s in
    Num.min surr1 surr2 * Num.of_nat act_dim in
  - Num.mean (surr <$> batch).

(** [MAPPOPolicy.update_critic]: the tensor [value_loss]. *)
Definition value_loss (batch : list transition) : list Qc :=
  (λ s,
     let value_pred_clipped :=
       state_value s
       + Num.clamp (values s - state_value s) (- clip_param) clip_param in
     let value_loss_clipped := critic_loss_fn (ret s) value_pred_clipped in
     let value_loss_original := critic_loss_fn (ret s) (values s) in
     Num.max value_loss_original value_loss_clipped) <$> batch.
End Update.

Local Close Scope Qc_scope.

(** [tensordict[:, :T].reshape(-1, seq_len)] for a batch of [N]
    trajectories of [T] steps: the windows of [seq_len] steps. *)
Definition windows {A} (tensordict : list (list A)) (seq_len : nat)
  : list (list A) :=
  let T := default 0 (length <$> head tensordict) in
  let T := (T / seq_len) * seq_len in
  let flat := concat (take T <$> tensordict) in
  chunks seq_len (length flat / seq_len) flat.

(** [make_dataset_naive]: minibatches of windows when [seq_len > 1], of
    single steps otherwise. *)
Definition make_dataset_naive {A} (tensordict : list (list A))
    (num_minibatches seq_len : nat) (randperm : nat → list nat)
  : option (list (list (list A)) + list (list A)) :=
  if decide (1 < seq_len)
  then inl <$> make_batch (windows tensordict seq_len) num_minibatches randperm
  else inr <$> make_batch (concat tensordict) num_minibatches randperm.

End mappo.

(** ** [learning/ppo/ppo_adapt.py] *)

Module ppo_adapt.
Local Open Scope Qc_scope.
Import ppo.

(** [PPOAdaptivePolicy.__init__] *)
Definition clip_param : Qc := Num.frac 1 10.

(** [nn.HuberLoss(delta=10)]: the reduction is the default, ["mean"]. *)
Definition critic_loss_fn (input target : list Qc) : Qc :=
  Num.mean (zip_with (Num.huber (Num.of_nat 10)) input target).

Section Update.
Variable exp : Qc → Qc.
Variable action_dim : nat.

(** [PPOAdaptivePolicy._update], the policy part. *)
Definition policy_loss (tensordict : list transition) : Qc :=
  let surr (s : transition) :=
    let ratio := exp (log_probs s - sample_log_prob s) in
    let surr1 := adv s * ratio in
    let surr2 := adv s * Num.clamp ratio (1 - clip_param) (1 + clip_param) in
    Num.min surr1 surr2 in
  - Num.mean (surr <$> tensordict) * Num.of_nat action_dim.

(** [PPOAdaptivePolicy._update], the value part. *)
Definition value_loss (tensordict : list transition) : Qc :=
  let b_values := state_value <$> tensordict in
  let b_returns := ret <$> tensordict in
  let values := values <$> tensordict in
  let values_clipped :=
    zip_with
      (λ b v, b + Num.clamp (v - b) (- clip_param) clip_param)
      b_values values in
  let value_loss_clipped := critic_loss_fn b_returns values_clipped in
  let value_loss_original := critic_loss_fn b_returns values in
  Num.max value_loss_original value_loss_clipped.
End Update.

(** [make_batch] is the same function as in [ppo.py]. *)
Definition make_batch {A} := @ppo.make_batch A.

(** *** The adaptation phase

    What matters to the adaptation phase is which optimizer steps on
    which parameters and where gradients can flow.  A tensor is
    therefore abstracted to its autograd graph: the networks whose
    parameters it was computed from while they required a gradient. *)

Local Close Scope Qc_scope.

Inductive net := encoder | actor | critic | adaptation_module | discriminator.
Inductive optimizer := encoder_opt | actor_opt | critic_opt | adapt_opt.

(** [cfg.adaptation_loss]: ["mse"], ["gan"], ["lsgan"]. *)
Inductive adaptation_loss := MSE | GAN | LSGAN.

#[export] Instance net_eq_dec : EqDecision net.
Proof. solve_decision. Defined.
#[export] Instance optimizer_eq_dec : EqDecision optimizer.
Proof. solve_decision. Defined.



Definition graph := list net.

(** The autograd mode: [torch.no_grad()] clears [grad_enabled];
    [hold_out_net(network)] sets [requires_grad = False] on the
    parameters of [network] for the duration of its block. *)
Record mode := {
  grad_enabled : bool;
  held_out : list net
}.
Definition default_mode : mode := {| grad_enabled := true; held_out := [] |}.
Definition no_grad (m : mode) : mode :=
  {| grad_enabled := false; held_out := held_out m |}.
Definition hold_out_net (network : net) (m : mode) : mode :=
  {| grad_enabled := grad_enabled m; held_out := network :: held_out m |}.

(** The keys of a minibatch the adaptation losses touch.  The two inputs
    are always there; [condition] and [label] only once the
    discriminator has written them. *)
Record tensordict := {
  observation_h : graph;
  context : graph;            (* [self.adaptation_key] *)
  condition : option graph;
  label : option graph
}.

(** The output of a network applied to inputs with graphs [inputs]. *)
Definition apply (network : net) (m : mode) (inputs : list graph) : graph :=
  if grad_enabled m
  then list_union
         (if decide (network ∈ held_out m) then [] else [network])
         (foldr list_union [] inputs)
  else [].

(** [self.adaptation_module(tensordict)]: reads [observation_h], writes
    the adaptation key, returns the same tensordict. *)
Definition adaptation_module_call (m : mode) (td : tensordict) : tensordict :=
  {| observation_h := observation_h td;
     context := apply adaptation_module m [observation_h td];
     condition := condition td;
     label := label td |}.

(** [self.discriminator(tensordict)]: [TConv] on [observation_h],
    concatenation with the adaptation key into [condition], then the
    head into [label]. *)
Definition discriminator_call (m : mode) (td : tensordict) : tensordict :=
  let out := apply discriminator m [observation_h td; context td] in
  {| observation_h := observation_h td;
     context := context td;
     condition := Some out;
     label := Some out |}.

(** A loss of several tensors, computed under mode [m]. *)
Definition loss_of (m : mode) (inputs : list graph) : graph :=
  if grad_enabled m then foldr list_union [] inputs else [].

Record gan_losses := {
  d_loss : graph;
  g_loss : graph;
  g_loss_mode : mode;   (* the mode in force where [g_loss] is computed *)
  total : graph         (* the returned [d_loss + g_loss] *)
}.

(** [GAN.forward] *)
Definition GAN_forward (m : mode) (td : tensordict) : option gan_losses :=
  let td := discriminator_call m td in
  true_label ← label td;
  let td := adaptation_module_call (no_grad m) td in
  let td := discriminator_call m td in
  fake_label ← label td;
  let d_loss := loss_of m [true_label; fake_label] in
  let m' := hold_out_net discriminator m in
  let td := adaptation_module_call m' td in
  fake_label ← label td;
  let g_loss := loss_of m' [fake_label] in
  Some {| d_loss := d_loss; g_loss := g_loss; g_loss_mode := m';
          total := loss_of m [d_loss; g_loss] |}.

(** [MSE.forward] *)
Definition MSE_forward (m : mode) (td : tensordict) : option graph :=
  let target := context td in
  let pred := context (adaptation_module_call m td) in
  Some (loss_of m [pred; target]).

(** [LSGAN.forward] *)
Definition LSGAN_forward (m : mode) (td : tensordict) : option graph :=
  let td := discriminator_call m td in
  true_label ← label td;
  let td := adaptation_module_call m td in
  let td := discriminator_call m td in
  fake_label ← label td;
  Some (loss_of m [fake_label; true_label]).

Definition adaptation_loss_forward (l : adaptation_loss) (m : mode)
    (td : tensordict) : option graph :=
  match l with
  | MSE => MSE_forward m td
  | GAN => total <$> GAN_forward m td
  | LSGAN => LSGAN_forward m td
  end.

Inductive event :=
| zero_grad (o : optimizer)
| backward (loss : graph)
| step (o : optimizer).

(** A minibatch as [_train_adaptation] hands it to the loss: the
    encoder ran under [torch.no_grad()], the history is data. *)
Definition minibatch : tensordict :=
  {| observation_h := []; context := []; condition := None; label := None |}.

(** The body of the inner loop of [_train_adaptation]. *)
Definition train_minibatch (l : adaptation_loss) (batch : tensordict)
  : option (list event) :=
  loss ← adaptation_loss_forward l default_mode batch;
  Some [zero_grad adapt_opt; backward loss; step adapt_opt].

(** [_train_adaptation] on the flattened batch [rows]:
    [for epoch in range(4)], one pass of [make_batch] with the
    permutation [randperm epoch] drawn in that epoch and, for every
    minibatch it yields, the body of the inner loop.  The rows are
    data, so every minibatch reaches the loss as [minibatch].  A pass
    that raises makes the call raise ([None]), and so does
    [torch.stack(info)] when no minibatch was processed. *)
Definition _train_adaptation {A} (l : adaptation_loss) (rows : list A)
    (num_minibatches : nat) (randperm : nat → nat → list nat)
  : option (list event) :=
  epochs ← mapM (λ epoch,
    batches ← make_batch rows num_minibatches (randperm epoch);
    steps ← mapM (λ _ : list A, train_minibatch l minibatch) batches;
    Some (concat steps))
    (seq 0 4);
  if decide (concat epochs = []) then None else Some (concat epochs).



End ppo_adapt.

(** ** [learning/sac.py] *)

Module sac.
Local Open Scope Qc_scope.

Section Critic.
(** The critic input [torch.cat([state, actions], dim=-1)]. *)
Context {X : Type}.

(** [Critic.critics] *)
Definition Critic := list (X → Qc).

(** [Critic.__init__]: [num_critics] networks, each from its own call
    of [_make_critic]. *)
Definition Critic_init (num_critics : nat) (_make_critic : nat → X → Qc)
  : Critic :=
  _make_critic <$> seq 0 num_critics.

(** [Critic.forward]: the values of all critics, stacked along the
    last axis. *)
Definition forward (self : Critic) (x : X) : list Qc :=
  (λ critic, critic x) <$> self.
End Critic.
Arguments Critic : clear implicits.

(** The default of the [num_critics] argument. *)
Definition num_critics : nat := 2.

(** [torch.min(next_qs, dim=-1, keepdim=True).values]; an empty axis has
    no minimum and raises. *)
Definition min_dim (qs : list Qc) : option Qc :=
  match qs with
  | [] => None
  | q :: qs' => Some (foldl Num.min q qs')
  end.

(** [MASACPolicy.train_op]: the bootstrap target of one element. *)
Definition target_q {X} (exp : Qc → Qc) (gamma log_alpha : Qc)
    (critic_target : Critic X)
    (reward : Qc) (next_dones : bool) (next_x : X) (next_logp : Qc)
  : option Qc :=
  let next_qs := forward critic_target next_x in
  next_q ← min_dim next_qs;
  let next_q := next_q - exp log_alpha * next_logp in
  Some (reward + gamma * (1 - Num.float next_dones) * next_q).

End sac.

(** ** The advantage estimator *)

Module gae.
Local Open Scope Qc_scope.

(** One time step of a rollout as the estimator reads it. *)
Record step := {
  reward : Qc;
  term : bool;
  done : bool;
  value : Qc
}.

Section GAE.
Variables gamma lmbda : Qc.

(** The weight of [adv[t+1]] in [adv[t]]. *)
Definition propagation (s : step) : Qc :=
  let not_done := 1 - Num.float (done s) in
  let mask_term := 1 - Num.float (term s) in
  gamma * lmbda * not_done * mask_term.

(** Modelled from the spec: the body of the estimator (the class [GAE]
    of [learning/ppo/common.py] that [PPOPolicy._compute_advantage]
    calls with rewards, termination flags, done flags, values and next
    values) is not among the sources.  This is the backward recursion
    of the specification, for [t = T-1 … 0], over the values
    [v[0..T-1]] and the bootstrap value [v[T]]; the advantage after
    the last step is zero.  The result pairs [adv[t]] with
    [ret[t]]. *)
Fixpoint GAE (steps : list step) (bootstrap : Qc) : list (Qc * Qc) :=
  match steps with
  | [] => []
  | s :: rest =>
      let out := GAE rest bootstrap in
      let next_adv := default 0 (fst <$> head out) in
      let next_value := default bootstrap (value <$> head rest) in
      let not_done := 1 - Num.float (done s) in
      let delta := reward s + gamma * next_value * not_done - value s in
      let adv := delta + propagation s * next_adv in
      (adv, adv + value s) :: out
  end.

Definition advantage (steps : list step) (bootstrap : Qc) : list Qc :=
  fst <$> GAE steps bootstrap.
End GAE.

End gae.

(** ** The calls of the advantage estimators (ppo.py, mappo.py) *)

Module estimator_calls.
Local Open Scope Qc_scope.

(** The entries of one environment's rollout that the two policies
    read when they compute advantages, by time step. *)
Record rollout := {
  reward : list (list Qc);           (* the reward entry, one row per step *)
  terminated : list bool;            (* [TERM_KEY] *)
  done : list bool;                  (* [DONE_KEY], [("next", "done")] *)
  agent_done : option (list bool);   (* [("next", "<agent>.done")] *)
  state_value : list Qc;
  next_state_value : list Qc         (* the critic on ["next"] *)
}.

(** [PPOPolicy._compute_advantage] up to the call of [self.gae], whose
    result is returned.  The estimator [gae] and [denormalize] of the
    value normaliser are classes that are not among the sources. *)
Definition _compute_advantage {R}
    (gae : list Qc → list bool → list bool → list Qc → list Qc → R)
    (denormalize : Qc → Qc) (tensordict : rollout) : R :=
  let values := state_value tensordict in
  let next_values := next_state_value tensordict in
  let rewards := Num.sum <$> reward tensordict in
  let terms := terminated tensordict in
  let dones := done tensordict in
  let values := denormalize <$> values in
  let next_values := denormalize <$> next_values in
  gae rewards terms dones values next_values.

(** [MAPPOPolicy._get_dones]: [agent_done | env_done], the agent's flags
    being the environment's when the entry is absent. *)
Definition _get_dones (tensordict : rollout) : list bool :=
  let env_done := done tensordict in
  let agent_done := default env_done (agent_done tensordict) in
  zip_with orb agent_done env_done.

(** [MAPPOPolicy.train_op] up to the call of [compute_gae], whose result
    is returned.  [next_value] is the critic on the last step of
    ["next"], which an empty rollout does not have.  [denormalize] is
    there when the policy has a [value_normalizer]. *)
Definition train_op {R}
    (compute_gae : list (list Qc) → list bool → list Qc → Qc → Qc → Qc → R)
    (denormalize : option (Qc → Qc)) (gae_gamma gae_lambda : Qc)
    (tensordict : rollout) : option R :=
  next_value ← last (next_state_value tensordict);
  let rewards := reward tensordict in
  let values := state_value tensordict in
  let values := from_option (λ d, d <$> values) values denormalize in
  let next_value := from_option (λ d, d next_value) next_value denormalize in
  let dones := _get_dones tensordict in
  Some (compute_gae rewards dones values next_value gae_gamma gae_lambda).

(** Two rollouts of one step that differ in the termination flag only:
    an episode that ended by termination and one that ended by the time
    limit. *)
Definition ended_by_termination : rollout :=
  {| reward := (1 :: nil) :: nil; terminated := true :: nil;
     done := true :: nil; agent_done := None;
     state_value := 0 :: nil; next_state_value := 0 :: nil |}.
Definition ended_by_time_limit : rollout :=
  {| reward := (1 :: nil) :: nil; terminated := false :: nil;
     done := true :: nil; agent_done := None;
     state_value := 0 :: nil; next_state_value := 0 :: nil |}.

(** The rollout with other termination flags. *)
Definition with_terminated (terms : list bool) (tensordict : rollout)
  : rollout :=
  {| reward := reward tensordict; terminated := terms;
     done := done tensordict; agent_done := agent_done tensordict;
     state_value := state_value tensordict;
     next_state_value := next_state_value tensordict |}.

End estimator_calls.

(** ** The update step as the specification words it *)

Module spec.
Local Open Scope Qc_scope.
Import ppo.

(** [surrogate = min(ratio * adv, clip(ratio, 1-ε, 1+ε) * adv)] *)
Definition surrogate (eps ratio adv : Qc) : Qc :=
  Num.min (ratio * adv) (Num.clamp ratio (1 - eps) (1 + eps) * adv).

(** [ratio = exp(log_prob - log_prob_at_collection)];
    policy loss [= -mean(surrogate) * action_dim]. *)
Definition policy_loss (exp : Qc → Qc) (eps : Qc) (action_dim : nat)
    (batch : list transition) : Qc :=
  - Num.mean
      ((λ s, surrogate eps (exp (log_probs s - sample_log_prob s)) (adv s))
         <$> batch)
  * Num.of_nat action_dim.

(** The predicted value clipped to within [±ε] of the recorded one. *)
Definition clip_value (eps recorded pred : Qc) : Qc :=
  Num.clamp pred (recorded - eps) (recorded + eps).

(** [max(loss(return, clipped_pred), loss(return, unclipped_pred))] for
    one element. *)
Definition value_loss (loss : Qc → Qc → Qc) (eps : Qc) (s : transition)
  : Qc :=
  Num.max (loss (ret s) (clip_value eps (state_value s) (values s)))
          (loss (ret s) (values s)).

(** Positionally matching parameters: the parameters [zip] pairs up
    have the same number of entries. *)
Definition matching (target source : common.parameters) : Prop :=
  ∀ i t s, target !! i = Some t → source !! i = Some s →
           length t = length s.

(** [target ← τ·source + (1-τ)·target], elementwise. *)
Definition polyak (tau : Qc) (target source : common.parameters)
  : common.parameters :=
  zip_with (zip_with (λ t s, tau * s + (1 - tau) * t)) target source.

End spec.

(** ** Supplements to [learning/common.py] *)

Module buffer.
Import common.

(** Every valid row of the buffer is there and satisfies [P]. *)
Definition rows_are {A} (P : A → Prop) (b : MyBuffer A) : Prop :=
  ∀ i, i < len b → ∃ row, _storage (storage b) !! i = Some row ∧ P row.

End buffer.

(** ** Supplements to [learning/ppo/ppo.py] and [ppo_adapt.py] *)

Module diagnostics.
Local Open Scope Qc_scope.
Import ppo.

(** [x.var()]: the unbiased variance, [sum((x - mean)^2) / (n - 1)]. *)
Definition var (x : list Qc) : Qc :=
  Num.sum ((λ a, (a - Num.mean x) * (a - Num.mean x)) <$> x)
  / Num.of_nat (length x - 1).

(** [F.mse_loss(input, target)], reduced to its mean. *)
Definition mse_loss (input target : list Qc) : Qc :=
  Num.mean (zip_with Num.mse input target).

(** [explained_var = 1 - F.mse_loss(values, b_returns) / b_returns.var()]
    of [PPOPolicy._update] and [PPOAdaptivePolicy._update]. *)
Definition explained_var (tensordict : list transition) : Qc :=
  let b_returns := ret <$> tensordict in
  let values := values <$> tensordict in
  1 - mse_loss values b_returns / var b_returns.

End diagnostics.

(** ** The losses that are back-propagated *)

Module objective.
Local Open Scope Qc_scope.
Import ppo.

Section Loss.
Variable exp : Qc → Qc.
Variable action_dim : nat.

(** [PPOPolicy._update]: [loss = policy_loss + entropy_loss + value_loss]
    with [entropy = dist.entropy().mean()] and
    [entropy_loss = - self.entropy_coef * entropy].  [dist_entropy] is the
    tensor [dist.entropy()]. *)
Definition ppo_loss (dist_entropy : list Qc) (tensordict : list transition)
  : Qc :=
  let entropy := Num.mean dist_entropy in
  let policy_loss := ppo.policy_loss exp action_dim tensordict in
  let entropy_loss := - ppo.entropy_coef * entropy in
  let value_loss := ppo.value_loss tensordict in
  policy_loss + entropy_loss + value_loss.

(** [MAPPOPolicy.update_actor]: [entropy_loss = - torch.mean(dist_entropy)]
    and the loss that is back-propagated is
    [policy_loss - entropy_loss * self.cfg.entropy_coef]. *)
Definition mappo_actor_loss (clip_param entropy_coef : Qc)
    (dist_entropy : list Qc) (batch : list transition) : Qc :=
  let policy_loss := mappo.policy_loss exp clip_param action_dim batch in
  let entropy_loss := - Num.mean dist_entropy in
  policy_loss - entropy_loss * entropy_coef.
End Loss.

End objective.

(** ** The forward pass of the adaptive policy (ppo_adapt.py)

    The networks are kept as arbitrary functions of their inputs; what is
    modelled is which entry of the tensordict every module reads and
    which one it writes, in the order [PPOAdaptivePolicy.forward] runs
    them. *)

Module adapt_flow.

Inductive key :=
| k_intrinsics          (* [("agents", "intrinsics")] *)
| k_observation         (* [("agents", "observation")] *)
| k_observation_h       (* [("agents", "observation_h")] *)
| k_context             (* ["context"] *)
| k_feature             (* ["_feature"] *)
| k_loc | k_scale
| k_action              (* [("agents", "action")] *)
| k_sample_log_prob
| k_state_value.

#[export] Instance key_eq_dec : EqDecision key.
Proof. solve_decision. Defined.

Inductive exn := KeyError | RuntimeError.

(** [self.adaptation_key], one of the three values [__post_init__]
    admits. *)
Inductive adaptation_key := context | intrinsics | _feature.

#[export] Instance adaptation_key_eq_dec : EqDecision adaptation_key.
Proof. solve_decision. Defined.

Definition key_of (a : adaptation_key) : key :=
  match a with
  | context => k_context
  | intrinsics => k_intrinsics
  | _feature => k_feature
  end.

Definition andthen {A B : Type} (m : exn + A) (f : A → exn + B) : exn + B :=
  match m with inl e => inl e | inr x => f x end.

Section Nets.
Context {value : Type}.

Definition tensordict := key → option value.

Definition get (k : key) (td : tensordict) : exn + value :=
  match td k with Some v => inr v | None => inl KeyError end.

Definition set (k : key) (v : value) (td : tensordict) : tensordict :=
  λ k', if decide (k' = k) then Some v else td k'.

(** [tensordict.exclude] of the given keys, in place. *)
Definition exclude (keys : list key) (td : tensordict) : tensordict :=
  λ k, if decide (k ∈ keys) then None else td k.

(** The networks of the policy.  [condition()] is instantiated once for
    the actor and once for the critic; [dist_sample] is the draw of the
    action from [IndependentNormal(loc, scale)] together with its
    log-probability. *)
Record networks := {
  encoder_net : value → value;
  actor_feature : value → value;
  actor_condition : value → value → value;
  actor_head : value → value * value;
  dist_sample : value → value → value * value;
  critic_feature : value → value;
  critic_condition : value → value → value;
  critic_head : value → value;
  adaptation_net : value → value
}.

Variable N : networks.

(** A [TensorDictModule] with one input and one output key. *)
Definition call (f : value → value) (k_in k_out : key) (td : tensordict)
  : exn + tensordict :=
  andthen (get k_in td) (λ v, inr (set k_out (f v) td)).

(** [CatTensors(["_feature", "context"], "_feature", del_keys=False)],
    or the [FiLM] module on the same keys. *)
Definition condition (f : value → value → value) (td : tensordict)
  : exn + tensordict :=
  andthen (get k_feature td) (λ x,
  andthen (get k_context td) (λ c,
  inr (set k_feature (f x c) td))).

(** [self.encoder] *)
Definition encoder : tensordict → exn + tensordict :=
  call (encoder_net N) k_intrinsics k_context.

(** [self.actor]: the [ProbabilisticActor] around [actor_module]. *)
Definition actor (td : tensordict) : exn + tensordict :=
  andthen (call (actor_feature N) k_observation k_feature td) (λ td,
  andthen (condition (actor_condition N) td) (λ td,
  andthen (get k_feature td) (λ x,
  let td := set k_scale (actor_head N x).2
              (set k_loc (actor_head N x).1 td) in
  andthen (get k_loc td) (λ loc,
  andthen (get k_scale td) (λ scale,
  inr (set k_sample_log_prob (dist_sample N loc scale).2
         (set k_action (dist_sample N loc scale).1 td))))))).

(** [self.critic] *)
Definition critic (td : tensordict) : exn + tensordict :=
  andthen (call (critic_feature N) k_observation k_feature td) (λ td,
  andthen (condition (critic_condition N) td) (λ td,
  call (critic_head N) k_feature k_state_value td)).

(** [self.adaptation_module] *)
Definition adaptation_module (a : adaptation_key)
  : tensordict → exn + tensordict :=
  call (adaptation_net N) k_observation_h (key_of a).

(** [PPOAdaptivePolicy.forward] *)
Definition forward (phase : string) (a : adaptation_key) (td : tensordict)
  : exn + tensordict :=
  if decide (phase = "encoder") then
    andthen (encoder td) (λ td,
    andthen (actor td) (λ td,
    andthen (critic td) (λ td,
    inr (exclude [k_feature; k_loc; k_scale] td))))
  else if decide (phase = "adaptation") then
    andthen (adaptation_module a td) (λ td,
    andthen (if decide (a ≠ context) then encoder td else inr td) (λ td,
    andthen (actor td) (λ td,
    andthen (critic td) (λ td,
    inr (exclude [k_feature; k_loc; k_scale] td)))))
  else inl RuntimeError.

End Nets.

Arguments tensordict : clear implicits.
Arguments networks : clear implicits.

(** A policy over numbers, used to exercise the statements below. *)
Definition example_networks : networks nat := {|
  encoder_net x := x + 1;
  actor_feature x := 2 * x;
  actor_condition x c := x + 10 * c;
  actor_head x := (x, x + 1);
  dist_sample loc scale := (loc + scale, loc * scale);
  critic_feature x := 3 * x;
  critic_condition x c := x + 100 * c;
  critic_head x := x + 7;
  adaptation_net h := 5 * h
|}.

Definition example_input (i o h : nat) : tensordict nat :=
  λ k, match k with
       | k_intrinsics => Some i
       | k_observation => Some o
       | k_observation_h => Some h
       | _ => None
       end.

End adapt_flow.

(** ** The update schedule of [MASACPolicy.train_op] (sac.py) *)

Module sac_train.

Inductive event := critic_step | actor_step | alpha_step | target_update.

#[export] Instance event_eq_dec : EqDecision event.
Proof. solve_decision. Defined.

Inductive exn := ZeroDivisionError | RuntimeError.

(** The fields of [cfg] the schedule reads. *)
Record cfg := {
  buffer_size : nat;
  gradient_steps : nat;
  actor_delay : nat;
  target_update_interval : nat
}.

(** [a % b] on non-negative integers. *)
Definition py_mod (a b : nat) : exn + nat :=
  if decide (b = 0) then inl ZeroDivisionError else inr (a mod b).

(** The body of the loop for one [gradient_step]: the optimizer steps
    and target updates it performs, and the exception that ends it, if
    any. *)
Definition gradient_step_body (c : cfg) (gradient_step : nat)
  : list event * option exn :=
  let done := [critic_step] in
  match py_mod (gradient_step + 1) (actor_delay c) with
  | inl e => (done, Some e)
  | inr r =>
      let done :=
        done ++ (if decide (r = 0) then [actor_step; alpha_step] else []) in
      match py_mod gradient_step (target_update_interval c) with
      | inl e => (done, Some e)
      | inr r' =>
          (done ++ (if decide (r' = 0) then [target_update] else []), None)
      end
  end.

(** [for gradient_step in t] *)
Fixpoint loop (c : cfg) (t : list nat) : list event * option exn :=
  match t with
  | [] => ([], None)
  | gradient_step :: t =>
      match gradient_step_body c gradient_step with
      | (done, Some e) => (done, Some e)
      | (done, None) => let '(rest, r) := loop c t in (done ++ rest, r)
      end
  end.

(** One entry of [infos_actor] is appended with every actor step, one
    of [infos_critic] with every critic step. *)
Definition infos_actor (done : list event) : list event :=
  filter (λ e, e = actor_step) done.
Definition infos_critic (done : list event) : list event :=
  filter (λ e, e = critic_step) done.

(** [torch.stack] of a list, which raises on the empty list. *)
Definition stack {A} (l : list A) : exn + list A :=
  match l with [] => inl RuntimeError | _ => inr l end.

Inductive outcome :=
| returned_empty          (* [return {}] *)
| returned_infos
| raised (e : exn).

(** [MASACPolicy.train_op], given [len(self.replay_buffer)] after the
    [extend]. *)
Definition train_op (c : cfg) (len_replay_buffer : nat)
  : list event * outcome :=
  if decide (len_replay_buffer < buffer_size c) then ([], returned_empty)
  else
    match loop c (seq 1 (gradient_steps c)) with
    | (done, Some e) => (done, raised e)
    | (done, None) =>
        match stack (infos_actor done) with
        | inl e => (done, raised e)
        | inr _ =>
            match stack (infos_critic done) with
            | inl e => (done, raised e)
            | inr _ => (done, returned_infos)
            end
        end
    end.

(** How often an event occurs. *)
Definition count (e : event) (done : list event) : nat :=
  length (filter (λ e', e' = e) done).

End sac_train.

(** ** The temperature loss of [MASACPolicy.train_op] (sac.py) *)

Module sac_loss.
Local Open Scope Qc_scope.

(** [self.target_entropy = - torch.tensor(self.action_dim)] *)
Definition target_entropy (action_dim : nat) : Qc := - Num.of_nat action_dim.

(** [alpha_loss = -(self.log_alpha * (logp + self.target_entropy).detach()).mean()] *)
Definition alpha_loss (action_dim : nat) (log_alpha : Qc) (logp : list Qc)
  : Qc :=
  - Num.mean ((λ l, log_alpha * (l + target_entropy action_dim)) <$> logp).

End sac_loss.

(** ** Advantage normalisation (ppo.py, ppo_adapt.py, mappo.py) *)

Module advantage.
Local Open Scope Qc_scope.

Section Normalize.
(** [x.std()], kept abstract. *)
Variable std : list Qc → Qc.

(** [normalize] of ppo.py; [x.std().clamp(1e-7)] bounds from below. *)
Definition normalize (x : list Qc) (subtract_mean : bool) : list Qc :=
  if subtract_mean
  then (λ v, (v - Num.mean x) / Num.max (std x) (Num.frac 1 10000000)) <$> x
  else (λ v, v / Num.max (std x) (Num.frac 1 10000000)) <$> x.

(** [PPOAdaptivePolicy._train_policy] *)
Definition ppo_adapt_normalize (adv : list Qc) : list Qc :=
  let adv_mean := Num.mean adv in
  let adv_std := std adv in
  (λ a, (a - adv_mean) / Num.max adv_std (Num.frac 1 10000000)) <$> adv.

(** [MAPPOPolicy.train_op] with [normalize_advantages] set. *)
Definition mappo_normalize (advantages : list Qc) : list Qc :=
  let advantages_mean := Num.mean advantages in
  let advantages_std := std advantages in
  (λ a, (a - advantages_mean) / (advantages_std + Num.frac 1 100000000))
    <$> advantages.
End Normalize.
End advantage.

(** ** Action discretisation (utils/envs/transforms.py) *)

Module transforms.
Local Open Scope Qc_scope.

Inductive exn := ValueError | NotImplementedError | AttributeError | RuntimeError.

(** The action specs the transform distinguishes.  A bounded spec
    carries its bounds along the last axis, whose length is
    [action_spec.shape[-1]]. *)
Inductive spec :=
| BoundedTensorSpec (minimum maximum : list Qc)
| MultiDiscreteTensorSpec (nvec : list nat)
| OtherTensorSpec.

(** [nbins: Union[int, Sequence[int]]] *)
Inductive nbins_t := nbins_int (n : nat) | nbins_seq (l : list nat).

(** The attributes of a [FromMultiDiscreteAction]; [nvec], [minimum]
    and [maximum] exist only once [transform_input_spec] has set
    them. *)
Record FromMultiDiscreteAction := {
  nbins : nbins_t;
  nvec : option (list nat);
  minimum : option (list Qc);
  maximum : option (list Qc)
}.

(** [FromMultiDiscreteAction.__init__] *)
Definition FromMultiDiscreteAction_init (nbins : nbins_t)
  : FromMultiDiscreteAction :=
  {| nbins := nbins; nvec := None; minimum := None; maximum := None |}.

(** [FromMultiDiscreteAction.transform_input_spec]: the updated
    transform and the spec written back to [input_spec].  In the [else]
    branch the exception is constructed and dropped. *)
Definition transform_input_spec (self : FromMultiDiscreteAction)
    (action_spec : spec) : exn + (FromMultiDiscreteAction * spec) :=
  match action_spec with
  | BoundedTensorSpec mn mx =>
      let shape_last := length mn in
      match
        match nbins self with
        | nbins_int n => inr (replicate shape_last n)
        | nbins_seq l =>
            if decide (length l = shape_last) then inr l else inl ValueError
        end
      with
      | inl e => inl e
      | inr nb =>
          inr ({| nbins := nbins self; nvec := Some nb;
                  minimum := Some mn; maximum := Some mx |},
               MultiDiscreteTensorSpec nb)
      end
  | _ => inr (self, action_spec)
  end.

(** One entry of [action / (nvec - 1) * (maximum - minimum) + minimum].
    For [nvec = 1] the division is by zero (not a number in the code;
    the statements below assume [nvec ≥ 2]). *)
Definition inv_entry (action nvec : nat) (maximum minimum : Qc) : Qc :=
  Num.of_nat action / (Num.of_nat nvec - 1) * (maximum - minimum) + minimum.

(** [FromMultiDiscreteAction._inv_apply_transform] along the last axis.
    Operands of different lengths raise; broadcasting is not
    modelled. *)
Definition _inv_apply_transform (self : FromMultiDiscreteAction)
    (action : list nat) : exn + list Qc :=
  match nvec self, maximum self, minimum self with
  | Some nvec, Some mx, Some mn =>
      if decide (length action = length nvec ∧ length nvec = length mx
                 ∧ length mx = length mn)
      then inr (zip_with (λ '(a, nv) '(hi, lo), inv_entry a nv hi lo)
                  (zip action nvec) (zip mx mn))
      else inl RuntimeError
  | _, _, _ => inl AttributeError
  end.

End transforms.

(** ** Episode statistics (utils/envs/transforms.py, [LogOnEpisode]) *)

Module log_on_episode.

Inductive exn := IndexError.

Section LogOnEpisode.
(** The entries of one environment under [in_keys]. *)
Context {A : Type}.

Record LogOnEpisode := {
  n_episodes : nat;
  stats : list A
}.

(** [LogOnEpisode.__init__] *)
Definition LogOnEpisode_init (n_episodes : nat) : LogOnEpisode :=
  {| n_episodes := n_episodes; stats := [] |}.

(** [tensordict[_reset]]: the rows of the batch where the mask is set; a
    mask of another length than the batch raises. *)
Definition mask_select (rows : list A) (_reset : list bool)
  : exn + list A :=
  if decide (length _reset = length rows)
  then inr ((filter (λ p, p.2 = true) (zip rows _reset)).*1)
  else inl IndexError.

(** [LogOnEpisode._step] on a batch with rows [rows] whose
    [("next", "done")] entry is [done] ([None] when the key is absent,
    in which case the default is all ones).  Returns the transform and
    the stacked statistics handed to the processing functions and the
    logger when a report is made. *)
Definition _step (self : LogOnEpisode) (rows : list A)
    (done : option (list bool)) : exn + (LogOnEpisode * option (list A)) :=
  let _reset := default (replicate (length rows) true) done in
  if decide (true ∈ _reset) then
    match mask_select rows _reset with
    | inl e => inl e
    | inr finished =>
        let stats := stats self ++ finished in
        if decide (n_episodes self ≤ length stats)
        then inr ({| n_episodes := n_episodes self; stats := [] |}, Some stats)
        else inr ({| n_episodes := n_episodes self; stats := stats |}, None)
    end
  else inr (self, None).

(** The transform stepped through a rollout: the reports made, in
    order. *)
Fixpoint rollout (self : LogOnEpisode)
    (steps : list (list A * option (list bool)))
  : exn + (LogOnEpisode * list (list A)) :=
  match steps with
  | [] => inr (self, [])
  | (rows, done) :: steps =>
      match _step self rows done with
      | inl e => inl e
      | inr (self, report) =>
          match rollout self steps with
          | inl e => inl e
          | inr (self, reports) =>
              inr (self, option_list report ++ reports)
          end
      end
  end.

(** The rows of the environments that finished an episode at a step. *)
Definition finished (step : list A * option (list bool)) : list A :=
  let '(rows, done) := step in
  (filter (λ p, p.2 = true)
     (zip rows (default (replicate (length rows) true) done))).*1.

(** The mask of a step, when present, has one entry per environment. *)
Definition well_shaped (step : list A * option (list bool)) : Prop :=
  match step.2 with
  | Some done => length done = length step.1
  | None => True
  end.
End LogOnEpisode.

Arguments LogOnEpisode : clear implicits.

End log_on_episode.

(** ** The training script (scripts/train.py) *)

Module train.

Inductive exn := ZeroDivisionError.

(** [class Every]: the period and the call counter. *)
Record Every := {
  steps : nat;
  i : nat
}.

(** [Every.__init__] *)
Definition Every_init (steps : nat) : Every := {| steps := steps; i := 0 |}.

(** [Every.__call__]: whether [func] was called, and the object after
    the call.  The remainder by a zero period raises before the counter
    moves. *)
Definition Every_call (self : Every) : exn + (bool * Every) :=
  if decide (steps self = 0) then inl ZeroDivisionError
  else inr (bool_decide (i self mod steps self = 0),
            {| steps := steps self; i := i self + 1 |}).

(** [n] calls in a row: for each one whether [func] was called. *)
Fixpoint Every_calls (self : Every) (n : nat) : exn + (list bool * Every) :=
  match n with
  | 0 => inr ([], self)
  | S n =>
      match Every_call self with
      | inl e => inl e
      | inr (called, self) =>
          match Every_calls self n with
          | inl e => inl e
          | inr (rest, self) => inr (called :: rest, self)
          end
      end
  end.

(** What the main loop does that can be seen from outside. *)
Inductive event :=
| train_op (i : nat)
| evaluate
| save_checkpoint
| log.

#[export] Instance event_eq_dec : EqDecision event.
Proof. solve_decision. Defined.

Section Main.
(** [cfg.get("max_iters", -1)] and the two intervals, which default to
    [-1] as well; [hasattr(policy, "state_dict")]. *)
Variables max_iters eval_interval save_interval : Z.
Variable has_state_dict : bool.

(** The body of [for i, data in enumerate(pbar)] up to the test that
    ends the loop. *)
Definition iteration (i : nat) : list event :=
  [train_op i]
  ++ (if decide (0 < eval_interval ∧ Z.of_nat i mod eval_interval = 0)%Z
      then [evaluate] else [])
  ++ (if decide (0 < save_interval ∧ Z.of_nat i mod save_interval = 0)%Z
      then (if has_state_dict then [save_checkpoint] else []) else [])
  ++ [log].

(** The loop over the batches the collector yields, numbered from [i]. *)
Fixpoint loop (i : nat) (batches : nat) : list event :=
  match batches with
  | 0 => []
  | S batches =>
      iteration i
      ++ (if decide (0 < max_iters ∧ max_iters - 1 ≤ Z.of_nat i)%Z
          then [] else loop (i + 1) batches)
  end.

(** The loop followed by the final evaluation and checkpoint. *)
Definition main (batches : nat) : list event :=
  loop 0 batches
  ++ [evaluate; log]
  ++ (if has_state_dict then [save_checkpoint] else []).

(** The iterations run, in order. *)
Definition iterations (trace : list event) : list nat :=
  omap (λ e, match e with train_op i => Some i | _ => None end) trace.
End Main.

(** How often [evaluate] is called. *)
Definition evaluations (trace : list event) : nat :=
  length (filter (λ e, e = evaluate) trace).

End train.

(** ** The formation task (envs/formation.py) *)

Module formation.
Local Open Scope Qc_scope.

(** [sample_from_grid]: the first [n] entries of a random permutation
    of the cell indices, and the cells at these indices. *)
Definition sample_from_grid {A} (randperm : nat → list nat)
    (cells : list A) (n : nat) : option (list A) :=
  let idx := take n (randperm (length cells)) in
  mapM (λ i, cells !! i) idx.

(** [laplacian] with [normalize=False], from the matrix [A] of pairwise
    distances on: [D] has one entry per row of [A] and [D - A]
    broadcasts it along the rows. *)
Definition laplacian_of_distances (A : list (list Qc)) : list (list Qc) :=
  let D := Num.sum <$> A in
  (λ row, zip_with Qcminus D row) <$> A.

Section Reward.
Variable exp : Qc → Qc.

(** The reward of one environment in [_compute_reward_and_done]. *)
Definition reward (safe_distance separation cost_h cost_pos : Qc) : Qc :=
  let reward_formation := exp (- cost_h * Num.frac 16 10) in
  let reward_pos := exp (- cost_pos) in
  let reward_separation :=
    Num.clamp ((separation / safe_distance) * (separation / safe_distance))
      0 1 in
  reward_separation
  * (reward_formation + reward_formation * reward_pos
     + Num.frac 2 10 * reward_pos).
End Reward.

End formation.

(** ** The epochs of [train_op] (ppo.py, ppo_adapt.py) *)

Module ppo_train.

Section TrainOp.
(** One element of the flattened batch. *)
Context {A : Type}.

(** The minibatches [_update] is called on in one call of [train_op],
    epoch by epoch: [for epoch in range(ppo_epochs)] runs one pass of
    [make_batch], with the permutation [randperm epoch] drawn in that
    epoch, and appends one entry to [infos] for every minibatch.  The
    call raises ([None]) when a pass raises and when [infos] is empty
    at [torch.stack(infos)]. *)
Definition train_op_updates (tensordict : list A)
    (ppo_epochs num_minibatches : nat) (randperm : nat → nat → list nat)
  : option (list (list (list A))) :=
  epochs ← mapM (λ epoch,
              ppo.make_batch tensordict num_minibatches (randperm epoch))
            (seq 0 ppo_epochs);
  if decide (concat epochs = []) then None else Some epochs.
End TrainOp.

End ppo_train.

(** * Properties *)

(** ** Arithmetic on [Qc] *)

Section Arith.
Local Open Scope Qc_scope.

Lemma Qc_this_plus (x y : Qc) : (this (x + y) == this x + this y)%Q.
Proof. simpl. apply Qred_correct. Qed.

Lemma Qc_this_opp (x : Qc) : (this (- x) == - this x)%Q.
Proof. simpl. apply Qred_correct. Qed.

Lemma Qc_this_minus (x y : Qc) : (this (x - y) == this x - this y)%Q.
Proof. unfold Qcminus. rewrite Qc_this_plus, Qc_this_opp. reflexivity. Qed.
End Arith.

(** Linear order goals on [Qc], by way of [Q]. *)
Ltac qc_order :=
  unfold Qcle, Qclt in *;
  change (this 0%Qc) with 0%Q in *;
  change (this 1%Qc) with 1%Q in *;
  repeat match goal with
    | H : context [this (_ + _)%Qc] |- _ => rewrite Qc_this_plus in H
    | H : context [this (_ - _)%Qc] |- _ => rewrite Qc_this_minus in H
    | H : context [this (- _)%Qc] |- _ => rewrite Qc_this_opp in H
    | |- context [this (_ + _)%Qc] => rewrite Qc_this_plus
    | |- context [this (_ - _)%Qc] => rewrite Qc_this_minus
    | |- context [this (- _)%Qc] => rewrite Qc_this_opp
    end;
  lra.

Section NumFacts.
Local Open Scope Qc_scope.

Lemma min_le_l (x y : Qc) : Num.min x y ≤ x.
Proof. unfold Num.min. case_decide; [done | qc_order]. Qed.

Lemma min_le_r (x y : Qc) : Num.min x y ≤ y.
Proof. unfold Num.min. case_decide; [done | apply Qcle_refl]. Qed.

Lemma min_cases (x y : Qc) : Num.min x y = x ∨ Num.min x y = y.
Proof. unfold Num.min. case_decide; auto. Qed.

Lemma max_comm (x y : Qc) : Num.max x y = Num.max y x.
Proof.
  unfold Num.max. repeat case_decide; try done.
  - by apply Qcle_antisym.
  - exfalso; qc_order.
Qed.

(** Clamping a difference around zero is clamping around the centre. *)
Lemma clamp_shift (b v e : Qc) :
  b + Num.clamp (v - b) (- e) e = Num.clamp v (b - e) (b + e).
Proof.
  unfold Num.clamp, Num.min, Num.max.
  repeat case_decide; try ring; exfalso; qc_order.
Qed.

(** For a non-negative width the clamped value is within the bounds. *)
Lemma clamp_within (x lo hi : Qc) : lo ≤ hi → lo ≤ Num.clamp x lo hi ≤ hi.
Proof.
  intros Hle. unfold Num.clamp, Num.min, Num.max.
  repeat case_decide; split; qc_order.
Qed.

Lemma sum_scale {A} (f : A → Qc) (c : Qc) (l : list A) :
  Num.sum ((λ a, f a * c) <$> l) = Num.sum (f <$> l) * c.
Proof.
  unfold Num.sum. induction l as [|a l IH].
  - cbn [fmap list_fmap foldr]. ring.
  - rewrite !fmap_cons. cbn [foldr]. rewrite IH. ring.
Qed.

Lemma mean_scale {A} (f : A → Qc) (c : Qc) (l : list A) :
  Num.mean ((λ a, f a * c) <$> l) = Num.mean (f <$> l) * c.
Proof.
  unfold Num.mean. rewrite sum_scale, !length_fmap.
  unfold Qcdiv. ring.
Qed.
End NumFacts.

(** ** Parameter updates *)

Section Updates.
Local Open Scope Qc_scope.
Import common spec.

Lemma matching_cons_inv t s target source :
  matching (t :: target) (s :: source) →
  length t = length s ∧ matching target source.
Proof.
  intros H. split.
  - by apply (H 0%nat).
  - intros i t' s' Ht Hs. by apply (H (S i)).
Qed.

Lemma zip_with_copy (tau : Qc) (p t : tensor) :
  length t = length p →
  zip_with (λ p t, 1 * p + (1 - 1) * t) p t = p.
Proof.
  revert t. induction p as [|x p IH]; intros [|y t] Hlen; try done.
  simpl in *. f_equal; [ring | apply IH; lia].
Qed.

Lemma lerp_1_copy (t p : tensor) : lerp_ 1 t p = copy_ t p.
Proof.
  unfold lerp_, copy_. case_decide; [|done].
  by rewrite (zip_with_copy 1).
Qed.

Lemma soft_update_1_hard_update (target source : parameters) :
  soft_update target source 1 = hard_update target source.
Proof.
  revert source. induction target as [|t target IH]; intros [|s source];
    try done.
  simpl. by rewrite lerp_1_copy, IH.
Qed.

Lemma soft_update_matching (target source : parameters) (tau : Qc) :
  matching target source →
  soft_update target source tau
  = Some (spec.polyak tau target source ++ drop (length source) target).
Proof.
  revert source. induction target as [|t target IH]; intros [|s source] Hm;
    try done.
  apply matching_cons_inv in Hm as [Hlen Hm].
  simpl. unfold lerp_. rewrite decide_True by done. simpl.
  rewrite (IH _ Hm). simpl. do 2 f_equal.
  apply zip_with_flip.
Qed.

Lemma hard_update_matching (target source : parameters) :
  matching target source →
  hard_update target source
  = Some (take (length target) source ++ drop (length source) target).
Proof.
  revert source. induction target as [|t target IH]; intros [|s source] Hm;
    try done.
  apply matching_cons_inv in Hm as [Hlen Hm].
  simpl. unfold copy_. rewrite decide_True by done. simpl.
  by rewrite (IH _ Hm).
Qed.

(** C4.  Under positionally matching parameters, [soft_update] succeeds
    and sets every target parameter that has a partner to
    [tau * source + (1 - tau) * target], entry by entry (parameters
    beyond the end of [source] are not touched); with [tau = 1] each of
    them becomes equal to its source parameter. *)
Theorem soft_update_polyak (target source : parameters) (tau : Qc) :
  matching target source →
  soft_update target source tau
  = Some (spec.polyak tau target source ++ drop (length source) target)
  ∧ soft_update target source 1
    = Some (take (length target) source ++ drop (length source) target).
Proof.
  intros Hm. split.
  - by apply soft_update_matching.
  - rewrite soft_update_1_hard_update. by apply hard_update_matching.
Qed.

Lemma soft_update_polyak_witness :
  let target := [[Num.frac 1 2; Num.frac 3 1]; [Num.frac 0 1; Num.frac 2 1]] in
  let source := [[Num.frac 5 2; Num.frac 1 1]; [Num.frac 7 1; Num.frac 6 1]] in
  matching target source
  ∧ soft_update target source (Num.frac 1 4)
    = Some [[Num.frac 1 1; Num.frac 5 2]; [Num.frac 7 4; Num.frac 3 1]]
  ∧ soft_update target source 1 = Some source.
Proof.
  assert (Hm : matching [[Num.frac 1 2; Num.frac 3 1]; [Num.frac 0 1; Num.frac 2 1]]
                        [[Num.frac 5 2; Num.frac 1 1]; [Num.frac 7 1; Num.frac 6 1]]).
  { intros [|[|i]] t s Ht Hs; simplify_eq/=; done. }
  pose proof (soft_update_polyak _ _ (Num.frac 1 4) Hm) as [H1 H2].
  split; [exact Hm|]. split.
  - rewrite H1. compute_done.
  - rewrite H2. reflexivity.
Defined.

(** C10.  Under positionally matching parameters, [hard_update] leaves
    the target as [soft_update] with [tau = 1] does: both succeed and
    put each source parameter in the place of its target parameter. *)
Theorem hard_update_is_soft_update_1 (target source : parameters) :
  matching target source →
  hard_update target source = soft_update target source 1
  ∧ hard_update target source
    = Some (take (length target) source ++ drop (length source) target).
Proof.
  intros Hm. split.
  - symmetry. apply soft_update_1_hard_update.
  - by apply hard_update_matching.
Qed.

Lemma hard_update_is_soft_update_1_witness :
  let target := [[Num.frac 1 2; Num.frac 3 1]; [Num.frac 0 1; Num.frac 2 1]] in
  let source := [[Num.frac 5 2; Num.frac 1 1]; [Num.frac 7 1; Num.frac 6 1]] in
  matching target source
  ∧ hard_update target source = soft_update target source 1
  ∧ hard_update target source = Some source.
Proof.
  assert (Hm : matching [[Num.frac 1 2; Num.frac 3 1]; [Num.frac 0 1; Num.frac 2 1]]
                        [[Num.frac 5 2; Num.frac 1 1]; [Num.frac 7 1; Num.frac 6 1]]).
  { intros [|[|i]] t s Ht Hs; simplify_eq/=; done. }
  pose proof (hard_update_is_soft_update_1 _ _ Hm) as [H1 H2].
  split; [exact Hm|]. split; [exact H1 | exact H2].
Defined.
End Updates.

(** ** The PPO losses *)

Section Losses.
Local Open Scope Qc_scope.
Import ppo.

Variable exp : Qc → Qc.

Lemma surr_ppo (eps : Qc) (s : transition) :
  let ratio := exp (log_probs s - sample_log_prob s) in
  Num.min (adv s * ratio) (adv s * Num.clamp ratio (1 - eps) (1 + eps))
  = spec.surrogate eps ratio (adv s).
Proof.
  intros ratio. unfold spec.surrogate.
  by rewrite (Qcmult_comm (adv s) ratio), (Qcmult_comm (adv s) (Num.clamp _ _ _)).
Qed.

(** C1.  In [PPOPolicy._update], [PPOAdaptivePolicy._update] and
    [MAPPOPolicy.update_actor] the policy loss is the negated mean of the
    clipped surrogate times the action dimension, with the ratio
    [exp(log_prob - log_prob_at_collection)]. *)
Theorem policy_loss_clipped_surrogate
    (action_dim : nat) (eps : Qc) (batch : list transition) :
  ppo.policy_loss exp action_dim batch
  = spec.policy_loss exp ppo.clip_param action_dim batch
  ∧ ppo_adapt.policy_loss exp action_dim batch
    = spec.policy_loss exp ppo_adapt.clip_param action_dim batch
  ∧ mappo.policy_loss exp eps action_dim batch
    = spec.policy_loss exp eps action_dim batch.
Proof.
  unfold ppo.policy_loss, ppo_adapt.policy_loss, mappo.policy_loss,
    spec.policy_loss.
  split; [|split].
  - do 3 f_equal. apply list_fmap_ext. intros _ s _. apply surr_ppo.
  - do 3 f_equal. apply list_fmap_ext. intros _ s _. apply surr_ppo.
  - rewrite (mean_scale
               (λ s, spec.surrogate eps (exp (log_probs s - sample_log_prob s))
                       (adv s))).
    ring.
Qed.

(** The clipped prediction of the code is the prediction clipped to
    within [±eps] of the recorded value. *)
Lemma value_pred_clipped (eps : Qc) (s : transition) :
  state_value s + Num.clamp (values s - state_value s) (- eps) eps
  = spec.clip_value eps (state_value s) (values s).
Proof. apply clamp_shift. Qed.

Lemma clip_value_within (eps recorded pred : Qc) :
  0 ≤ eps →
  recorded - eps ≤ spec.clip_value eps recorded pred ≤ recorded + eps.
Proof. intros H. apply clamp_within. qc_order. Qed.

(** C2, as stated, fails for [PPOPolicy._update]: on [one_moved] its loss
    is [0], elementwise and reduced, where clipping the prediction to
    [0.1] gives [(1 - 0.1)^2 = 0.81]. *)
Lemma ppo_value_loss_not_clipped :
  ppo.critic_loss (one_moved :: nil)
  ≠ spec.value_loss Num.mse ppo.clip_param <$> (one_moved :: nil)
  ∧ ppo.value_loss (one_moved :: nil)
    ≠ Num.mean (spec.value_loss Num.mse ppo.clip_param <$> (one_moved :: nil)).
Proof. split; compute_done. Qed.

(** C2, amended.  [MAPPOPolicy.update_critic] clips the new prediction
    to within [±eps] of the recorded value and takes, for each element,
    the larger of the losses of the clipped and of the unclipped
    prediction.  [PPOAdaptivePolicy._update] clips in the same way and
    takes the larger of the two mean-reduced Huber losses.
    [PPOPolicy._update] does not clip: its loss is the mean of the
    squared errors of the elements that do not start a sequence. *)
Theorem value_loss_clipped
    (eps : Qc) (loss : Qc → Qc → Qc) (batch : list transition) :
  mappo.value_loss eps loss batch = spec.value_loss loss eps <$> batch
  ∧ ppo_adapt.value_loss batch
    = Num.max
        (ppo_adapt.critic_loss_fn (ret <$> batch)
           ((λ s, spec.clip_value ppo_adapt.clip_param (state_value s) (values s))
              <$> batch))
        (ppo_adapt.critic_loss_fn (ret <$> batch) (values <$> batch))
  ∧ ppo.value_loss batch
    = Num.mean
        ((λ s, if is_init s then 0 else Num.mse (ret s) (values s)) <$> batch).
Proof.
  split; [|split].
  - unfold mappo.value_loss, spec.value_loss.
    apply list_fmap_ext. intros _ s _. cbn beta zeta.
    by rewrite value_pred_clipped, max_comm.
  - unfold ppo_adapt.value_loss. cbn zeta. rewrite max_comm. do 2 f_equal.
    rewrite zip_with_fmap_l, zip_with_fmap_r, zip_with_diag.
    apply list_fmap_ext. intros _ s _. apply value_pred_clipped.
  - unfold ppo.value_loss. f_equal. apply list_fmap_ext. intros _ s _.
    destruct (is_init s); unfold Num.float; simpl negb; cbv iota; ring.
Qed.
End Losses.

(** ** The advantage estimator *)

Section Advantage.
Local Open Scope Qc_scope.
Import gae.

Variables gamma lmbda : Qc.

(** The steps before [rest] do not change what is computed for
    [rest]: the recursion runs backward in time. *)
Lemma GAE_app (before rest : list step) (bootstrap : Qc) :
  ∃ out, GAE gamma lmbda (before ++ rest) bootstrap
         = out ++ GAE gamma lmbda rest bootstrap
         ∧ length out = length before.
Proof.
  induction before as [|s before [out [IH Hlen]]].
  - by exists nil.
  - eexists (_ :: out). simpl. rewrite IH. split; [reflexivity|].
    simpl. by rewrite Hlen.
Qed.

Lemma advantage_app (before rest : list step) (bootstrap : Qc) :
  advantage gamma lmbda (before ++ rest) bootstrap !! length before
  = head (advantage gamma lmbda rest bootstrap).
Proof.
  unfold advantage.
  destruct (GAE_app before rest bootstrap) as [out [-> Hlen]].
  rewrite fmap_app, lookup_app_r; rewrite length_fmap, Hlen; [|lia].
  rewrite Nat.sub_diag. by destruct (GAE gamma lmbda rest bootstrap).
Qed.

Lemma propagation_done (s : step) :
  done s = true → propagation gamma lmbda s = 0.
Proof. intros Hd. unfold propagation, Num.float. rewrite Hd. ring. Qed.

(** The advantage at a step, from the step, the value that follows it
    and the advantage that follows it. *)
Lemma advantage_at (before after : list step) (s : step) (bootstrap : Qc) :
  advantage gamma lmbda (before ++ s :: after) bootstrap !! length before
  = Some (reward s
          + gamma * default bootstrap (value <$> head after)
            * (1 - Num.float (done s))
          - value s
          + propagation gamma lmbda s
            * default 0 (head (advantage gamma lmbda after bootstrap))).
Proof.
  rewrite advantage_app. unfold advantage. cbn [GAE fmap list_fmap head].
  do 3 f_equal. by destruct (GAE gamma lmbda after bootstrap).
Qed.

(** C3, as stated, fails at the call of [MAPPOPolicy.train_op]: the
    estimator gets one tensor of flags, and two rollouts that differ in
    the termination flags only give it the same arguments, whatever the
    estimator is. *)
Lemma mappo_estimator_gets_no_termination_flags :
  estimator_calls.terminated estimator_calls.ended_by_termination
  ≠ estimator_calls.terminated estimator_calls.ended_by_time_limit
  ∧ ∀ (R : Type) (compute_gae : _ → _ → _ → _ → _ → _ → R)
      denormalize gae_gamma gae_lambda,
      estimator_calls.train_op compute_gae denormalize gae_gamma gae_lambda
        estimator_calls.ended_by_termination
      = estimator_calls.train_op compute_gae denormalize gae_gamma
          gae_lambda estimator_calls.ended_by_time_limit.
Proof. split; [done|]. reflexivity. Qed.

(** C3, amended.  [PPOPolicy._compute_advantage] hands the estimator
    the termination flags and the done flags as two arguments;
    [MAPPOPolicy.train_op] hands [compute_gae] one tensor of flags,
    [agent_done | env_done], and its call does not depend on the
    termination flags.  In the estimator of the specification the two
    flags have different roles: the done flag removes both the bootstrap
    value [gamma * v[t+1]] and the propagation of [adv[t+1]], the
    termination flag removes the propagation only.  At a step with
    [done = 1] the advantage is [r[t] - v[t]] whatever the termination
    flag is and whatever follows the step. *)
Theorem done_stops_propagation
    (tensordict : estimator_calls.rollout)
    (before after : list step) (s : step) (bootstrap : Qc) :
  let next_value := default bootstrap (value <$> head after) in
  let next_adv := default 0 (head (advantage gamma lmbda after bootstrap)) in
  let adv := advantage gamma lmbda (before ++ s :: after) bootstrap
             !! length before in
  estimator_calls._compute_advantage
    (λ _ terms dones _ _, (terms, dones)) id tensordict
  = (estimator_calls.terminated tensordict, estimator_calls.done tensordict)
  ∧ (∀ (R : Type) (compute_gae : _ → _ → _ → _ → _ → _ → R)
       denormalize gae_gamma gae_lambda terms,
       estimator_calls.train_op compute_gae denormalize gae_gamma gae_lambda
         (estimator_calls.with_terminated terms tensordict)
       = estimator_calls.train_op compute_gae denormalize gae_gamma
           gae_lambda tensordict)
  ∧ (estimator_calls.train_op (λ _ dones _ _ _ _, dones) None gamma lmbda
       tensordict
     = (λ _, estimator_calls._get_dones tensordict)
       <$> last (estimator_calls.next_state_value tensordict))
  ∧ (done s = true → adv = Some (reward s - value s))
  ∧ (done s = false → term s = true →
     adv = Some (reward s + gamma * next_value - value s))
  ∧ (done s = false → term s = false →
     adv = Some (reward s + gamma * next_value - value s
                 + gamma * lmbda * next_adv)).
Proof.
  intros next_value next_adv adv.
  split; [done|]. split; [done|]. split.
  { unfold estimator_calls.train_op.
    by destruct (last (estimator_calls.next_state_value tensordict)). }
  unfold adv, next_value, next_adv. rewrite advantage_at.
  unfold propagation, Num.float.
  split; [|split].
  - intros ->. f_equal. ring.
  - intros -> ->. f_equal. ring.
  - intros -> ->. f_equal. ring.
Qed.
End Advantage.

(** Scenario 1 of the specification: rewards [1, 1, 1], [gamma = lmbda =
    1], values and bootstrap [0], no flag set. *)
Example GAE_scenario_1 :
  let s := {| gae.reward := 1; gae.term := false; gae.done := false;
              gae.value := 0 |}%Qc in
  gae.GAE 1%Qc 1%Qc [s; s; s] 0%Qc
  = [(Num.of_nat 3, Num.of_nat 3); (Num.of_nat 2, Num.of_nat 2);
     (Num.of_nat 1, Num.of_nat 1)].
Proof. compute_done. Qed.

Lemma done_stops_propagation_witness :
  let open := {| gae.reward := Num.frac 1 2; gae.term := false;
                 gae.done := false; gae.value := Num.frac 1 4 |} in
  let closed := {| gae.reward := Num.frac 3 1; gae.term := false;
                   gae.done := true; gae.value := Num.frac 1 1 |} in
  gae.done closed = true
  ∧ gae.advantage (Num.frac 99 100) (Num.frac 95 100)
      [open; closed; open] (Num.frac 7 1) !! 1%nat
    = Some (Num.frac 2 1).
Proof.
  split; [reflexivity|].
  pose proof (done_stops_propagation (Num.frac 99 100) (Num.frac 95 100)
    estimator_calls.ended_by_time_limit
    [{| gae.reward := Num.frac 1 2; gae.term := false;
        gae.done := false; gae.value := Num.frac 1 4 |}]
    [{| gae.reward := Num.frac 1 2; gae.term := false;
        gae.done := false; gae.value := Num.frac 1 4 |}]
    {| gae.reward := Num.frac 3 1; gae.term := false;
       gae.done := true; gae.value := Num.frac 1 1 |}
    (Num.frac 7 1)) as (_ & _ & _ & H & _).
  refine (eq_trans (H eq_refl) _). compute_done.
Defined.

(** ** The bootstrap target of the twin critics *)

Section Target.
Local Open Scope Qc_scope.
Import sac.

Lemma foldl_min (q : Qc) (qs : list Qc) :
  foldl Num.min q qs ∈ q :: qs
  ∧ ∀ x, x ∈ q :: qs → foldl Num.min q qs ≤ x.
Proof.
  revert q. induction qs as [|y qs IH]; intros q; simpl.
  - split; [by left|]. intros x ->%list_elem_of_singleton. apply Qcle_refl.
  - destruct (IH (Num.min q y)) as [Hin Hle]. split.
    + apply elem_of_cons in Hin as [->|Hin].
      * destruct (min_cases q y) as [->| ->]; [by left | right; by left].
      * by do 2 right.
    + intros x Hx.
      assert (Hm : foldl Num.min (Num.min q y) qs ≤ Num.min q y)
        by (apply Hle; by left).
      apply elem_of_cons in Hx as [->|Hx].
      * eapply Qcle_trans; [exact Hm | apply min_le_l].
      * apply elem_of_cons in Hx as [->|Hx].
        -- eapply Qcle_trans; [exact Hm | apply min_le_r].
        -- apply Hle. by right.
Qed.

Lemma min_dim_spec (qs : list Qc) :
  qs ≠ nil → ∃ m, min_dim qs = Some m ∧ m ∈ qs ∧ ∀ x, x ∈ qs → m ≤ x.
Proof.
  destruct qs as [|q qs]; [done|]. intros _.
  exists (foldl Num.min q qs). split; [done|]. apply foldl_min.
Qed.

(** C9.  With an ensemble of [n ≥ 2] target critics the bootstrap target
    is [reward + gamma * (1 - done) * (m - alpha * next_log_prob)], where
    [alpha = exp(log_alpha)] and [m] is the least of the values the [n]
    critics give to the next state and action. *)
Theorem target_q_min_over_ensemble {X : Type}
    (exp : Qc → Qc) (gamma log_alpha : Qc)
    (n : nat) (_make_critic : nat → X → Qc)
    (reward : Qc) (next_dones : bool) (next_x : X) (next_logp : Qc) :
  (2 ≤ n)%nat →
  let critic_target := Critic_init n _make_critic in
  ∃ m,
    length critic_target = n
    ∧ (∃ i, (i < n)%nat ∧ m = _make_critic i next_x)
    ∧ (∀ i, (i < n)%nat → m ≤ _make_critic i next_x)
    ∧ target_q exp gamma log_alpha critic_target
        reward next_dones next_x next_logp
      = Some (reward
              + gamma * (1 - Num.float next_dones)
                * (m - exp log_alpha * next_logp)).
Proof.
  intros Hn critic_target.
  assert (Hqs : forward critic_target next_x
                = (λ i, _make_critic i next_x) <$> seq 0 n).
  { unfold forward, critic_target, Critic_init. by rewrite <-list_fmap_compose. }
  destruct (min_dim_spec (forward critic_target next_x)) as (m & Hm & Hin & Hle).
  { rewrite Hqs. destruct n; [lia | done]. }
  exists m. split; [|split; [|split]].
  - unfold critic_target, Critic_init. by rewrite length_fmap, length_seq.
  - rewrite Hqs in Hin. apply list_elem_of_fmap in Hin as (i & -> & Hi).
    apply elem_of_seq in Hi. exists i. split; [lia | done].
  - intros i Hi. apply Hle. rewrite Hqs. apply list_elem_of_fmap.
    exists i. split; [done|]. apply elem_of_seq. lia.
  - unfold target_q. cbn zeta. by rewrite Hm.
Qed.
End Target.

Lemma target_q_min_over_ensemble_witness :
  (2 ≤ sac.num_critics)%nat
  ∧ sac.target_q (λ x, x) (Num.frac 99 100) 1%Qc
      (sac.Critic_init sac.num_critics
         (λ i (x : Qc), if decide (i = 0%nat) then (x + 1)%Qc else x))
      (Num.frac 1 1) false (Num.frac 2 1) (Num.frac 1 2)
    = Some (Num.frac 497 200).
Proof.
  split; [unfold sac.num_critics; lia|].
  destruct (target_q_min_over_ensemble (λ x, x) (Num.frac 99 100) 1%Qc
              sac.num_critics
              (λ i (x : Qc), if decide (i = 0%nat) then (x + 1)%Qc else x)
              (Num.frac 1 1) false (Num.frac 2 1) (Num.frac 1 2))
    as (m & _ & (i & Hi & Hm) & Hle & H).
  { unfold sac.num_critics; lia. }
  rewrite H. clear H. unfold sac.num_critics in *.
  destruct i as [|[|i]]; [| |lia]; subst m.
  - exfalso. specialize (Hle 1%nat). revert Hle. compute_done.
  - compute_done.
Defined.

(** ** Minibatches *)

Section Minibatches.
Import ppo.
Context {A : Type}.

Lemma length_chunks {B} (cols rows : nat) (l : list B) :
  length (chunks cols rows l) = rows.
Proof.
  revert l. induction rows as [|rows IH]; intros l; simpl; [done|].
  by rewrite IH.
Qed.

Lemma concat_chunks {B} (cols rows : nat) (l : list B) :
  length l = rows * cols → concat (chunks cols rows l) = l.
Proof.
  revert l. induction rows as [|rows IH]; intros l Hlen; simpl.
  - by destruct l.
  - rewrite IH; [apply take_drop|]. rewrite length_drop. lia.
Qed.

Lemma Forall_length_chunks {B} (cols rows : nat) (l : list B) :
  length l = rows * cols →
  Forall (λ row, length row = cols) (chunks cols rows l).
Proof.
  revert l. induction rows as [|rows IH]; intros l Hlen; simpl.
  - constructor.
  - constructor.
    + rewrite length_take. lia.
    + apply IH. rewrite length_drop. lia.
Qed.

Lemma reshape_Some {B} (rows : nat) (l : list B) (cols : nat) :
  0 < rows → length l = rows * cols →
  reshape rows l = Some (chunks cols rows l).
Proof.
  intros Hrows Hlen. unfold reshape.
  rewrite decide_False by lia.
  rewrite Hlen, Nat.mul_comm, Nat.Div0.mod_mul, decide_True by done.
  by rewrite Nat.div_mul by lia.
Qed.

Lemma elem_of_concat_2 {B} (x : B) (row : list B) (rows : list (list B)) :
  x ∈ row → row ∈ rows → x ∈ concat rows.
Proof.
  intros Hx Hrow. revert Hx.
  induction Hrow as [row rows|row row' rows _ IH]; intros Hx; simpl;
    apply elem_of_app; [by left | right; by apply IH].
Qed.

Lemma index_Some (tensordict : list A) (indices : list nat) :
  Forall (λ i, i < length tensordict) indices →
  ∃ batch, index tensordict indices = Some batch
           ∧ Forall2 (λ i a, tensordict !! i = Some a) indices batch.
Proof.
  intros Hlt.
  destruct (mapM_is_Some_2 (tensordict !!.) indices) as [batch Hb].
  - eapply Forall_impl; [exact Hlt|]. intros i Hi. by apply lookup_lt_is_Some_2.
  - exists batch. split; [done|]. by apply mapM_Some_1.
Qed.

(** C7.  With [torch.randperm] returning a permutation of [0 .. n-1],
    one pass of [make_batch] over a flattened batch of [size] elements
    yields [num_minibatches] minibatches of [size // num_minibatches]
    elements each.  Their index rows, taken together, hold every index
    below [(size // num_minibatches) * num_minibatches] once and nothing
    else, so they are pairwise disjoint and no index at or past that
    bound is selected; each minibatch holds the transitions its indices
    name.  When [num_minibatches] divides [size] the bound is [size]:
    every transition is in one minibatch. *)
Theorem make_batch_partition
    (tensordict : list A) (num_minibatches : nat) (randperm : nat → list nat) :
  0 < num_minibatches →
  (∀ n, randperm n ≡ₚ seq 0 n) →
  let size := length tensordict in
  let selected := (size / num_minibatches) * num_minibatches in
  ∃ perm batches,
    make_batch_perm size num_minibatches randperm = Some perm
    ∧ make_batch tensordict num_minibatches randperm = Some batches
    ∧ length perm = num_minibatches
    ∧ Forall (λ indices, length indices = size / num_minibatches) perm
    ∧ concat perm ≡ₚ seq 0 selected
    ∧ NoDup (concat perm)
    ∧ (∀ i, i ∈ concat perm → i < selected)
    ∧ Forall2
        (λ indices batch, Forall2 (λ i a, tensordict !! i = Some a) indices batch)
        perm batches
    ∧ (size `mod` num_minibatches = 0 → selected = size).
Proof.
  intros Hk Hperm size selected.
  set (cols := size / num_minibatches).
  assert (Hlen : length (randperm selected) = num_minibatches * cols).
  { rewrite (Hperm selected), length_seq. unfold selected, cols. lia. }
  assert (Hsel : selected ≤ size).
  { unfold selected. rewrite Nat.mul_comm. by apply Nat.Div0.mul_div_le. }
  set (perm := chunks cols num_minibatches (randperm selected)).
  assert (Hcat : concat perm = randperm selected) by by apply concat_chunks.
  assert (Hperm' : make_batch_perm size num_minibatches randperm = Some perm).
  { unfold make_batch_perm. rewrite decide_False by lia.
    by apply reshape_Some. }
  assert (Hlt : ∀ i, i ∈ concat perm → i < selected).
  { intros i. rewrite Hcat, (Hperm selected), elem_of_seq. lia. }
  assert (Hbatches : ∃ batches, mapM (index tensordict) perm = Some batches
    ∧ Forall2 (λ indices batch,
                 Forall2 (λ i a, tensordict !! i = Some a) indices batch)
        perm batches).
  { assert (Hrows : Forall (λ indices,
              Forall (λ i, i < length tensordict) indices) perm).
    { apply Forall_forall. intros indices Hin. apply Forall_forall.
      intros i Hi. pose proof (Hlt i) as Hlti. fold size.
      enough (i < selected) by lia. apply Hlti.
      by apply (elem_of_concat_2 i indices). }
    clear -Hrows. induction perm as [|indices perm IH].
    - exists []. split; [done | constructor].
    - apply Forall_cons in Hrows as [Hrow Hrows].
      destruct (index_Some tensordict indices Hrow) as (batch & Hb & Hb2).
      destruct (IH Hrows) as (batches & Hbs & Hbs2).
      exists (batch :: batches). split; [|by constructor].
      simpl. rewrite Hb. simpl. by rewrite Hbs. }
  destruct Hbatches as (batches & Hbs & Hbs2).
  exists perm, batches. repeat split.
  - exact Hperm'.
  - unfold make_batch. fold size. rewrite Hperm'. exact Hbs.
  - apply length_chunks.
  - by apply Forall_length_chunks.
  - by rewrite Hcat.
  - rewrite Hcat, (Hperm selected). apply NoDup_seq.
  - exact Hlt.
  - exact Hbs2.
  - intros Hmod. unfold selected.
    pose proof (Nat.div_mod_eq size num_minibatches). lia.
Qed.
End Minibatches.

Lemma make_batch_partition_witness :
  0 < 2
  ∧ (∀ n, reverse (seq 0 n) ≡ₚ seq 0 n)
  ∧ ppo.make_batch_perm 5 2 (λ n, reverse (seq 0 n)) = Some [[3; 2]; [1; 0]]
  ∧ ppo.make_batch [10; 11; 12; 13; 14] 2 (λ n, reverse (seq 0 n))
    = Some [[13; 12]; [11; 10]].
Proof.
  assert (Hperm : ∀ n, reverse (seq 0 n) ≡ₚ seq 0 n)
    by (intros n; apply reverse_Permutation).
  destruct (make_batch_partition [10; 11; 12; 13; 14] 2
              (λ n, reverse (seq 0 n)) (Nat.lt_0_succ 1) Hperm)
    as (perm & batches & H1 & H2 & _).
  split; [lia|]. split; [exact Hperm|]. split.
  - reflexivity.
  - reflexivity.
Defined.

(** ** The replay buffer *)

Section Buffer.
Import common.
Context {A : Type}.
Implicit Types (m : gmap nat A) (entries data : list A).

(** The write indices of [extend] for a cursor [c] and [t] rows. *)
Local Abbreviation cursor_of c M t := ((λ i, (c + i) `mod` M) <$> seq 0 t).

Lemma cursor_of_cons (c M t : nat) :
  cursor_of c M (S t) = c `mod` M :: cursor_of (S c) M t.
Proof.
  simpl. rewrite Nat.add_0_r. f_equal.
  rewrite <-fmap_S_seq, <-list_fmap_compose.
  apply list_fmap_ext. intros _ i _. simpl. f_equal. lia.
Qed.

Lemma cursor_of_congr (c n M t : nat) :
  c `mod` M = n `mod` M → cursor_of c M t = cursor_of n M t.
Proof.
  intros Hc. apply list_fmap_ext. intros _ i _. simpl.
  by rewrite (Nat.Div0.add_mod c), (Nat.Div0.add_mod n), Hc.
Qed.

Lemma elem_of_cursor_of (c M t k : nat) :
  k ∈ cursor_of c M t ↔ ∃ i, i < t ∧ k = (c + i) `mod` M.
Proof.
  rewrite list_elem_of_fmap. split.
  - intros (i & -> & Hi%elem_of_seq). exists i. split; [lia | done].
  - intros (i & Hi & ->). exists i. split; [done|]. apply elem_of_seq. lia.
Qed.

Lemma mod_distinct (M j n : nat) :
  j < n → n < j + M → j `mod` M ≠ n `mod` M.
Proof.
  intros Hjn HnM Heq.
  pose proof (Nat.div_mod_eq j M). pose proof (Nat.div_mod_eq n M).
  assert (Hd : n - j = M * (n / M - j / M)) by nia.
  destruct (n / M - j / M) as [|d]; nia.
Qed.

(** After the rows of [data] are written behind [entries], every one of
    the last [M] entries sits at its position modulo [M]. *)
Lemma write_rows_lookup (M : nat) data : ∀ (c : nat) m entries,
  0 < M →
  c `mod` M = length entries `mod` M →
  (∀ j, j < length entries → length entries ≤ j + M →
        m !! (j `mod` M) = entries !! j) →
  ∀ j, j < length (entries ++ data) → length (entries ++ data) ≤ j + M →
       write_rows m (cursor_of c M (length data)) data !! (j `mod` M)
       = (entries ++ data) !! j.
Proof.
  induction data as [|x data IH]; intros c m entries HM Hc Hm j Hj HjM.
  - rewrite app_nil_r in *. by apply Hm.
  - rewrite cons_middle, app_assoc in *.
    cbn [length]. rewrite cursor_of_cons. unfold write_rows. cbn [zip_with foldl].
    apply (IH (S c) (<[c `mod` M := x]> m) (entries ++ [x])); try done.
    + rewrite length_app. simpl.
      replace (S c) with (c + 1) by lia.
      by rewrite (Nat.Div0.add_mod c), (Nat.Div0.add_mod (length entries)), Hc.
    + intros k Hk HkM. rewrite length_app in Hk, HkM. simpl in Hk, HkM.
      destruct (decide (k = length entries)) as [->|Hne].
      * rewrite Hc, lookup_insert_eq.
        by rewrite lookup_app_r, Nat.sub_diag by lia.
      * rewrite lookup_insert_ne.
        -- rewrite lookup_app_l by lia. apply Hm; lia.
        -- rewrite Hc. intros Heq. symmetry in Heq. revert Heq.
           apply mod_distinct; lia.
Qed.

Lemma write_rows_is_Some (cursor : list nat) : ∀ data m (i : nat),
  is_Some (write_rows m cursor data !! i) → is_Some (m !! i) ∨ i ∈ cursor.
Proof.
  induction cursor as [|c cursor IH]; intros [|x data] m i; try by left.
  unfold write_rows. cbn [zip_with foldl]. intros [H|H]%IH.
  - destruct (decide (c = i)) as [->|Hne]; [right; by left|].
    rewrite lookup_insert_ne in H by done. by left.
  - right. by right.
Qed.

(** The new [_len] is the number of entries seen so far, capped at the
    capacity. *)
Lemma len_after (M n t : nat) :
  0 < M → 0 < t →
  (n `min` M) `max` (max_list (cursor_of n M t) + 1) = (n + t) `min` M.
Proof.
  intros HM Ht.
  assert (Hin : max_list (cursor_of n M t) ∈ cursor_of n M t).
  { apply max_list_elem_of. destruct t; [lia | done]. }
  apply elem_of_cursor_of in Hin as (i & Hi & Hmax).
  assert (Hup : max_list (cursor_of n M t) < M)
    by (rewrite Hmax; apply Nat.mod_upper_bound; lia).
  assert (Hup' : max_list (cursor_of n M t) < n + t).
  { rewrite Hmax. pose proof (Nat.Div0.mod_le (n + i) M). lia. }
  destruct (decide (M ≤ n)) as [|Hn]; [lia|].
  assert (Hlow : (n + t) `min` M - 1 ≤ max_list (cursor_of n M t)).
  { apply max_list_elem_of_le, elem_of_cursor_of.
    exists ((n + t) `min` M - 1 - n). split; [lia|].
    rewrite Nat.mod_small by lia. lia. }
  lia.
Qed.

Lemma holds_init (M : nat) : @holds A M (MyBuffer_init M) [].
Proof.
  split; simpl; try done.
  intros i [x Hx]. by rewrite lookup_empty in Hx.
Qed.

Lemma extend_holds (M : nat) (b : MyBuffer A) entries data :
  0 < M → data ≠ [] → holds M b entries →
  ∃ b', extend b data = Some b' ∧ holds M b' (entries ++ data).
Proof.
  intros HM Hdata [Hmax Hlen Hcur Hvalid Hlook].
  assert (Ht : 0 < length data) by (destruct data; [done | simpl; lia]).
  unfold extend. rewrite Hmax, decide_False by lia.
  rewrite (cursor_of_congr _ (length entries)) by done.
  destruct (length data) as [|t] eqn:Hlt; [lia|].
  rewrite last_lookup, length_fmap, length_seq. cbn [pred].
  rewrite list_lookup_fmap, lookup_seq_lt by lia. cbn [fmap option_fmap option_map mbind option_bind].
  eexists. split; [reflexivity|]. rewrite <-Hlt in *.
  unfold len in *.
  split; unfold len, LazyTensorStorage_set;
    cbn [storage _cursor max_size _storage _len].
  - exact Hmax.
  - rewrite Hlen, length_app. by apply len_after.
  - rewrite length_app, Hlt. simpl.
    rewrite Nat.Div0.add_mod_idemp_l. f_equal. lia.
  - intros i [H|H]%write_rows_is_Some.
    + apply Hvalid in H. lia.
    + apply max_list_elem_of_le in H. lia.
  - intros j Hj HjM. by apply write_rows_lookup.
Qed.

Lemma extend_all_holds (M : nat) (batches : list (list A)) :
  ∀ (b : MyBuffer A) entries,
  0 < M → Forall (λ data, data ≠ []) batches → holds M b entries →
  ∃ b', extend_all b batches = Some b'
        ∧ holds M b' (entries ++ concat batches).
Proof.
  induction batches as [|data batches IH]; intros b entries HM Hne Hb.
  - exists b. simpl. by rewrite app_nil_r.
  - apply Forall_cons in Hne as [Hdata Hne].
    destruct (extend_holds M b entries data HM Hdata Hb) as (b1 & Hb1 & Hh1).
    destruct (IH b1 (entries ++ data) HM Hne Hh1) as (b' & Hb' & Hh').
    exists b'. split.
    + unfold extend_all in *. simpl. by rewrite Hb1.
    + simpl. by rewrite app_assoc.
Qed.

(** C5.  Let a fresh buffer of capacity [max_size] take in any sequence
    of non-empty batches.  Every [extend] succeeds; the number of valid
    rows is the number of entries taken in, capped at [max_size]; rows
    exist only below that number; the next write index is the number of
    entries modulo [max_size]; and each of the last [max_size] entries
    is stored at its position modulo [max_size], so that entry
    [max_size + i] has replaced entry [i]. *)
Theorem extend_circular (max_size : nat) (batches : list (list A)) :
  0 < max_size →
  Forall (λ data, data ≠ []) batches →
  let entries := concat batches in
  ∃ b,
    extend_all (MyBuffer_init max_size) batches = Some b
    ∧ len b = length entries `min` max_size
    ∧ len b ≤ max_size
    ∧ (∀ i, is_Some (_storage (storage b) !! i) → i < len b)
    ∧ _cursor b `mod` max_size = length entries `mod` max_size
    ∧ (∀ j, j < length entries → length entries ≤ j + max_size →
            _storage (storage b) !! (j `mod` max_size) = entries !! j).
Proof.
  intros HM Hne entries.
  destruct (extend_all_holds max_size batches (MyBuffer_init max_size) []
              HM Hne (holds_init max_size))
    as (b & Hb & [Hmax Hlen Hcur Hvalid Hlook]).
  exists b. repeat split; try done. lia.
Qed.
End Buffer.

(** Scenario 4 of the specification: capacity 4, the entries [0 .. 4]
    inserted one at a time.  The fifth is found at index 0, the second to
    fourth are where they were. *)
Lemma extend_circular_witness :
  ∃ b,
    common.extend_all (common.MyBuffer_init 4) [[0]; [1]; [2]; [3]; [4]] = Some b
    ∧ common.len b = 4
    ∧ common._storage (common.storage b) !! 0 = Some 4
    ∧ common._storage (common.storage b) !! 1 = Some 1
    ∧ common._storage (common.storage b) !! 3 = Some 3.
Proof.
  destruct (extend_circular 4 [[0]; [1]; [2]; [3]; [4]]) as
    (b & Hb & Hlen & _ & _ & _ & Hlook).
  - lia.
  - repeat constructor; done.
  - exists b. split; [exact Hb|]. split; [exact Hlen|].
    split; [apply (Hlook 4); simpl; lia|].
    split; [apply (Hlook 1); simpl; lia | apply (Hlook 3); simpl; lia].
Defined.

(** ** Sampling sub-trajectories *)

Section Sampling.
Import common.
Context {E : Type}.

Lemma sample_too_long (self : MyBuffer (list E)) (num_samples seq_len : nat)
    (idx_draw t_draw : nat → nat) :
  len self < seq_len →
  sample self num_samples seq_len idx_draw t_draw = raise ValueError.
Proof. intros H. unfold sample. by rewrite decide_True. Qed.

Lemma traverse_lookup (traj : list E) (t n : nat) :
  t + n ≤ length traj →
  traverse (λ i, from_option IndexError (traj !! (t + i))) (seq 0 n)
  = ok (take n (drop t traj)).
Proof.
  revert t traj. induction n as [|n IH]; intros t traj Hlen; [done|].
  cbn [seq traverse]. rewrite Nat.add_0_r.
  destruct (lookup_lt_is_Some_2 traj t) as [x Hx]; [lia|].
  rewrite Hx. cbn [from_option bind].
  rewrite <-fmap_S_seq.
  assert (Hrest : traverse (λ i, from_option IndexError (traj !! (t + i)))
                    (S <$> seq 0 n)
                  = ok (take n (drop (S t) traj))).
  { rewrite <-(IH (S t) traj) by lia. clear.
    generalize (seq 0 n). intros l. induction l as [|i l IHl]; [done|].
    cbn [fmap list_fmap traverse]. rewrite IHl.
    by replace (t + S i) with (S t + i) by lia. }
  rewrite Hrest. cbn [bind ok]. f_equal.
  by rewrite (drop_S traj x t Hx).
Qed.

(** A window shorter than the trajectory: the call returns [seq_len]
    consecutive steps. *)
Lemma sample_sub_traj_shorter (traj : list E) (seq_len draw : nat) :
  seq_len < length traj →
  ∃ t, t + seq_len ≤ length traj
       ∧ sample_sub_traj traj seq_len draw = ok (take seq_len (drop t traj))
       ∧ length (take seq_len (drop t traj)) = seq_len.
Proof.
  intros Hlt. unfold sample_sub_traj, randint.
  rewrite decide_True by lia. cbn [bind ok].
  set (t := 0 + draw `mod` (length traj - seq_len - 0)).
  assert (Ht : t < length traj - seq_len).
  { unfold t. rewrite Nat.sub_0_r. simpl. apply Nat.mod_upper_bound. lia. }
  exists t. split; [lia|]. split.
  - apply traverse_lookup. lia.
  - rewrite length_take, length_drop. lia.
Qed.

(** A window as long as the trajectory: the range of [torch.randint] is
    empty. *)
Lemma sample_sub_traj_full (traj : list E) (draw : nat) :
  sample_sub_traj traj (length traj) draw = raise RuntimeError.
Proof.
  unfold sample_sub_traj, randint.
  by rewrite Nat.sub_diag, decide_False by lia.
Qed.

(** One sample from a buffer whose rows hold one environment. *)
Lemma sample_one (self : MyBuffer (list E)) (seq_len : nat)
    (idx_draw t_draw : nat → nat) (row : list E) (traj : list E) :
  ¬ len self < seq_len →
  _storage (storage self) !! 0 = Some row →
  length row = 1 →
  valid_column self 0 = ok traj →
  sample self 1 seq_len idx_draw t_draw
  = bind (sample_sub_traj traj seq_len (t_draw 0)) (λ sub, ok [sub]).
Proof.
  intros Hlen Hrow Hwidth Hcol. unfold sample.
  rewrite decide_False by done. rewrite Hrow.
  cbn [fmap option_fmap option_map from_option bind seq traverse].
  rewrite Hwidth. unfold randint at 1. rewrite decide_True by lia.
  rewrite Nat.sub_0_r, Nat.mod_1_r. cbn [ok bind Nat.add].
  rewrite Hcol. reflexivity.
Qed.
End Sampling.

(** C6 at the failing input: a buffer of capacity 4 holding four steps of
    one environment, asked for one sub-trajectory of four steps.  The
    guard lets [seq_len = 4] pass, and [torch.randint(0, 0, (1,))] raises
    a [RuntimeError], whatever the generator draws.  One step more is
    refused with [ValueError]; one step less is served. *)
Theorem sample_full_length_raises (idx_draw t_draw : nat → nat) :
  ∃ b,
    common.extend_all (common.MyBuffer_init 4) [[[10]; [11]; [12]; [13]]]
    = Some b
    ∧ common.len b = 4
    ∧ common.sample b 1 4 idx_draw t_draw = common.raise common.RuntimeError
    ∧ common.sample b 1 5 idx_draw t_draw = common.raise common.ValueError
    ∧ ∃ t, t + 3 ≤ 4
           ∧ common.sample b 1 3 idx_draw t_draw
             = common.ok [take 3 (drop t [10; 11; 12; 13])].
Proof.
  eexists. split; [vm_compute; reflexivity|]. split; [reflexivity|].
  split; [|split].
  - rewrite (sample_one _ 4 idx_draw t_draw [10] [10; 11; 12; 13]);
      [|vm_compute; lia|reflexivity|reflexivity|reflexivity].
    by rewrite (sample_sub_traj_full [10; 11; 12; 13]).
  - apply sample_too_long. vm_compute. lia.
  - destruct (sample_sub_traj_shorter [10; 11; 12; 13] 3 (t_draw 0))
      as (t & Ht & Hs & _); [simpl; lia|].
    exists t. split; [exact Ht|].
    rewrite (sample_one _ 3 idx_draw t_draw [10] [10; 11; 12; 13]);
      [|vm_compute; lia|reflexivity|reflexivity|reflexivity].
    by rewrite Hs.
Qed.

(** ** One pass of [make_batch] *)

Section MinibatchItems.
Import ppo.

Lemma mapM_Forall2 {B C} (f : B → option C) (P : B → C → Prop) (l : list B) :
  (∀ x, x ∈ l → ∃ y, f x = Some y ∧ P x y) →
  ∃ ys, mapM f l = Some ys ∧ Forall2 P l ys.
Proof.
  induction l as [|x l IH]; intros Hf.
  - exists []. split; [done | constructor].
  - destruct (Hf x) as (y & Hy & HP); [by left|].
    destruct IH as (ys & Hys & HPs).
    { intros x' Hx'. apply Hf. by right. }
    exists (y :: ys). simpl. rewrite Hy. simpl. rewrite Hys. simpl.
    split; [done | by constructor].
Qed.

(** One pass of [make_batch]: as many minibatches as asked for, of equal
    size, made of elements of the batch. *)
Lemma make_batch_items {B} (l : list B) (k : nat) (randperm : nat → list nat) :
  0 < k → (∀ n, randperm n ≡ₚ seq 0 n) →
  ∃ batches,
    make_batch l k randperm = Some batches
    ∧ length batches = k
    ∧ Forall (λ b, length b = length l / k ∧ ∀ a, a ∈ b → a ∈ l) batches.
Proof.
  intros Hk Hperm.
  set (cols := length l / k). set (selected := cols * k).
  assert (Hlen : length (randperm selected) = k * cols).
  { rewrite (Hperm selected), length_seq. unfold selected. lia. }
  assert (Hsel : selected ≤ length l).
  { unfold selected, cols. rewrite Nat.mul_comm. apply Nat.Div0.mul_div_le. }
  set (perm := chunks cols k (randperm selected)).
  assert (Hcat : concat perm = randperm selected) by by apply concat_chunks.
  assert (Hrows : Forall (λ row, length row = cols) perm)
    by by apply Forall_length_chunks.
  destruct (mapM_Forall2 (index l)
    (λ row b, length b = cols ∧ ∀ a, a ∈ b → a ∈ l) perm) as (batches & Hb & HP).
  - intros row Hrow.
    assert (Hlt : Forall (λ i, i < length l) row).
    { apply Forall_forall. intros i Hi.
      assert (Hin : i ∈ concat perm) by by apply (elem_of_concat_2 i row).
      rewrite Hcat, (Hperm selected), elem_of_seq in Hin. lia. }
    destruct (index_Some l row Hlt) as (b & Hb & Hb2).
    exists b. split; [done|]. split.
    + rewrite <-(Forall2_length _ _ _ Hb2).
      by eapply Forall_forall in Hrows.
    + intros a Ha. apply list_elem_of_lookup in Ha as [j Hj].
      destruct (Forall2_lookup_r _ _ _ _ _ Hb2 Hj) as (i & _ & Hi).
      by eapply list_elem_of_lookup_2.
  - exists batches. split; [|split].
    + unfold make_batch, make_batch_perm. rewrite decide_False by lia.
      fold cols. fold selected.
      rewrite (reshape_Some k (randperm selected) cols) by done.
      exact Hb.
    + rewrite <-(Forall2_length _ _ _ HP). apply length_chunks.
    + apply Forall_forall. intros b Hin.
      apply list_elem_of_lookup in Hin as [j Hj].
      destruct (Forall2_lookup_r _ _ _ _ _ HP Hj) as (row & _ & Hrow).
      exact Hrow.
Qed.
End MinibatchItems.

(** ** The adaptation phase *)

Section Adaptation.
Import ppo_adapt.

Lemma mapM_const {B C} (x : C) (l : list B) :
  mapM (λ _ : B, Some x) l = Some (replicate (length l) x).
Proof. induction l as [|b l IH]; [done|]. simpl. by rewrite IH. Qed.

Lemma concat_replicate_4 {B} (n : nat) (x : list B) :
  concat (replicate 4 (concat (replicate n x))) = concat (replicate (4 * n) x).
Proof.
  replace (4 * n) with (n + (n + (n + n))) by lia.
  rewrite !replicate_add, !concat_app. simpl. by rewrite app_nil_r.
Qed.

(** The label read inside the [hold_out_net] block is the one the
    discriminator wrote before the block: the graph of [g_loss] still
    ends in the discriminator and never enters the adaptation module. *)
Lemma GAN_g_loss_graph :
  g_loss <$> GAN_forward default_mode minibatch = Some [discriminator].
Proof. reflexivity. Qed.

Lemma train_minibatch_GAN :
  train_minibatch GAN minibatch
  = Some [zero_grad adapt_opt; backward [discriminator]; step adapt_opt].
Proof. reflexivity. Qed.

(** With [num_minibatches > 0] and permutations from [torch.randperm],
    every one of the 4 epochs yields [num_minibatches] minibatches and
    the call is [4 * num_minibatches] rounds of the inner loop. *)
Lemma _train_adaptation_rounds {B} (l : adaptation_loss) (rows : list B)
    (num_minibatches : nat) (randperm : nat → nat → list nat)
    (loss : graph) :
  0 < num_minibatches →
  (∀ epoch n, randperm epoch n ≡ₚ seq 0 n) →
  adaptation_loss_forward l default_mode minibatch = Some loss →
  _train_adaptation l rows num_minibatches randperm
  = Some (concat (replicate (4 * num_minibatches)
            [zero_grad adapt_opt; backward loss; step adapt_opt])).
Proof.
  intros Hk Hperm Hl. unfold _train_adaptation.
  set (round := [zero_grad adapt_opt; backward loss; step adapt_opt]).
  assert (Hepoch : ∀ epoch,
    (batches ← make_batch rows num_minibatches (randperm epoch);
     steps ← mapM (λ _ : list B, train_minibatch l minibatch) batches;
     Some (concat steps))
    = Some (concat (replicate num_minibatches round))).
  { intros epoch.
    destruct (make_batch_items rows num_minibatches (randperm epoch) Hk
                (Hperm epoch)) as (batches & Hb & Hlen & _).
    unfold make_batch. rewrite Hb. cbn [mbind option_bind].
    unfold train_minibatch. rewrite Hl. cbn [mbind option_bind].
    rewrite mapM_const, Hlen. done. }
  rewrite (mapM_ext _ (λ _, Some (concat (replicate num_minibatches round))))
    by (intros epoch; apply Hepoch).
  rewrite mapM_const. cbn [mbind option_bind length seq].
  rewrite concat_replicate_4.
  rewrite decide_False; [done|].
  destruct num_minibatches as [|k]; [lia|].
  replace (4 * S k) with (S (4 * k + 3)) by lia. done.
Qed.


End Adaptation.


(** * Further properties *)

(** ** Arithmetic with products *)

Lemma Qc_this_mult (x y : Qc) : (this (x * y) == this x * this y)%Q.
Proof. simpl. apply Qred_correct. Qed.

(** Order goals on [Qc] with products, by way of [Q]. *)
Ltac qc_nra :=
  unfold Qcle, Qclt in *;
  change (this 0%Qc) with 0%Q in *;
  change (this 1%Qc) with 1%Q in *;
  repeat match goal with
    | H : context [this (_ + _)%Qc] |- _ => rewrite Qc_this_plus in H
    | H : context [this (_ - _)%Qc] |- _ => rewrite Qc_this_minus in H
    | H : context [this (_ * _)%Qc] |- _ => rewrite Qc_this_mult in H
    | H : context [this (- _)%Qc] |- _ => rewrite Qc_this_opp in H
    | |- context [this (_ + _)%Qc] => rewrite Qc_this_plus
    | |- context [this (_ - _)%Qc] => rewrite Qc_this_minus
    | |- context [this (_ * _)%Qc] => rewrite Qc_this_mult
    | |- context [this (- _)%Qc] => rewrite Qc_this_opp
    end;
  change (this 0%Qc) with 0%Q in *;
  change (this 1%Qc) with 1%Q in *;
  nra.

(** ** More on the replay buffer *)

Section BufferMore.
Import common buffer.
Context {A : Type}.
Implicit Types (m : gmap nat A) (data : list A).

Lemma write_rows_mono (cursor : list nat) : ∀ data m (i : nat),
  is_Some (m !! i) → is_Some (write_rows m cursor data !! i).
Proof.
  induction cursor as [|c cursor IH]; intros [|x data] m i Hi; try done.
  unfold write_rows. cbn [zip_with foldl]. apply IH.
  destruct (decide (c = i)) as [->|Hne].
  - rewrite lookup_insert_eq. by eexists.
  - by rewrite lookup_insert_ne.
Qed.

Lemma write_rows_present (cursor : list nat) : ∀ data m (i : nat),
  length cursor = length data → i ∈ cursor →
  is_Some (write_rows m cursor data !! i).
Proof.
  induction cursor as [|c cursor IH]; intros [|x data] m i Hlen Hi;
    try done; [by apply elem_of_nil in Hi|].
  unfold write_rows. cbn [zip_with foldl].
  destruct (decide (i ∈ cursor)) as [Hin|Hnin].
  - apply IH; [simpl in Hlen; lia | done].
  - apply elem_of_cons in Hi as [->|Hi]; [|done].
    apply write_rows_mono. rewrite lookup_insert_eq. by eexists.
Qed.

Lemma write_rows_elem (cursor : list nat) : ∀ data m (i : nat) (x : A),
  write_rows m cursor data !! i = Some x → m !! i = Some x ∨ x ∈ data.
Proof.
  induction cursor as [|c cursor IH]; intros [|y data] m i x; try by left.
  unfold write_rows. cbn [zip_with foldl]. intros [H|H]%IH.
  - destruct (decide (c = i)) as [->|Hne].
    + rewrite lookup_insert_eq in H. simplify_eq. right. by left.
    + rewrite lookup_insert_ne in H by done. by left.
  - right. by right.
Qed.

Lemma extend_rows_are (P : A → Prop) (M : nat) (b b' : MyBuffer A)
    (entries data : list A) :
  0 < M → data ≠ [] → Forall P data →
  holds M b entries → rows_are P b →
  extend b data = Some b' →
  holds M b' (entries ++ data) ∧ rows_are P b'.
Proof.
  intros HM Hdata HP Hb Hrows Hext.
  destruct (extend_holds M b entries data HM Hdata Hb) as (b1 & Hb1 & Hh1).
  rewrite Hext in Hb1. simplify_eq. split; [done|].
  destruct Hb as [Hmax Hlen Hcur Hvalid Hlook].
  intros i Hi.
  assert (Hst : _storage (storage b1)
    = write_rows (_storage (storage b))
        ((λ i, (length entries + i) `mod` M) <$> seq 0 (length data)) data).
  { revert Hext. unfold extend. rewrite Hmax, decide_False by lia.
    rewrite (cursor_of_congr _ (length entries)) by done.
    destruct (last _); [|done]. simpl. intros [= <-]. done. }
  assert (Hsome : is_Some (_storage (storage b1) !! i)).
  { rewrite Hst. destruct (decide (i < len b)) as [Hold|Hnew].
    - apply write_rows_mono. destruct (Hrows i Hold) as (row & Hrow & _).
      by eexists.
    - apply write_rows_present; [by rewrite length_fmap, length_seq|].
      apply elem_of_cursor_of.
      pose proof (holds_len _ _ _ Hh1) as Hlen1.
      rewrite length_app in Hlen1.
      exists (i - length entries).
      assert (length entries < M) by lia.
      rewrite Nat.mod_small by lia. lia. }
  destruct Hsome as [row Hrow]. exists row. split; [done|].
  rewrite Hst in Hrow. apply write_rows_elem in Hrow as [Hrow|Hrow].
  - assert (Hi' : i < len b) by (apply Hvalid; by eexists).
    destruct (Hrows i Hi') as (row' & Hrow' & HP'). by simplify_eq.
  - by eapply Forall_forall in HP.
Qed.

Lemma extend_all_rows_are (P : A → Prop) (M : nat) (batches : list (list A)) :
  ∀ (b b' : MyBuffer A) (entries : list A),
  0 < M → Forall (λ data, data ≠ []) batches → Forall (Forall P) batches →
  holds M b entries → rows_are P b →
  extend_all b batches = Some b' →
  holds M b' (entries ++ concat batches) ∧ rows_are P b'.
Proof.
  induction batches as [|data batches IH];
    intros b b' entries HM Hne HP Hb Hrows Hext.
  - unfold extend_all in Hext. simpl in *. simplify_eq. by rewrite app_nil_r.
  - apply Forall_cons in Hne as [Hdata Hne].
    apply Forall_cons in HP as [HPd HP].
    destruct (extend_holds M b entries data HM Hdata Hb) as (b1 & Hb1 & _).
    destruct (extend_rows_are P M b b1 entries data HM Hdata HPd Hb Hrows Hb1)
      as [Hh1 Hrows1].
    unfold extend_all in Hext. simpl in Hext. rewrite Hb1 in Hext.
    simpl. rewrite app_assoc.
    by apply (IH b1 b' (entries ++ data)).
Qed.
End BufferMore.

(** ** More on sampling *)

Section SamplingMore.
Import common buffer.
Context {E : Type}.

Lemma traverse_Forall {B C} (f : B → result C) (P : C → Prop) (l : list B) :
  (∀ x, x ∈ l → ∃ y, f x = ok y ∧ P y) →
  ∃ ys, traverse f l = ok ys ∧ length ys = length l ∧ Forall P ys.
Proof.
  induction l as [|x l IH]; intros Hf.
  - exists []. by repeat split.
  - destruct (Hf x) as (y & Hy & HP); [by left|].
    destruct IH as (ys & Hys & Hlen & HPs).
    { intros x' Hx'. apply Hf. by right. }
    exists (y :: ys). cbn [traverse]. rewrite Hy. cbn [bind ok].
    rewrite Hys. cbn [bind ok]. repeat split; [simpl; by rewrite Hlen|].
    by constructor.
Qed.

Lemma valid_column_ok (N : nat) (b : MyBuffer (list E)) (idx : nat) :
  rows_are (λ row, length row = N) b → idx < N →
  ∃ column, valid_column b idx = ok column ∧ length column = len b.
Proof.
  intros Hrows Hidx. unfold valid_column.
  destruct (traverse_Forall
    (λ i, from_option IndexError (_storage (storage b) !! i ≫= (.!! idx)))
    (λ _, True) (seq 0 (len b))) as (column & Hc & Hlen & _).
  - intros i Hi%elem_of_seq.
    destruct (Hrows i) as (row & Hrow & Hwidth); [lia|].
    destruct (lookup_lt_is_Some_2 row idx) as [e He]; [lia|].
    exists e. rewrite Hrow. simpl. by rewrite He.
  - exists column. split; [done|]. by rewrite Hlen, length_seq.
Qed.

(** X4.  Take a buffer of positive capacity filled by [extend] with
    non-empty batches whose rows all hold [N ≥ 1] environments.  For every
    [seq_len] below its valid length [sample] returns [num_samples]
    sub-trajectories; each is [seq_len] consecutive steps, starting at
    some [t] with [t + seq_len ≤ len], of one environment's column of the
    valid rows. *)
Theorem sample_returns_windows (M N : nat) (batches : list (list (list E)))
    (b : MyBuffer (list E)) (num_samples seq_len : nat)
    (idx_draw t_draw : nat → nat) :
  0 < M → 0 < N →
  Forall (λ data, data ≠ []) batches →
  Forall (Forall (λ row, length row = N)) batches →
  extend_all (MyBuffer_init M) batches = Some b →
  seq_len < len b →
  ∃ subs,
    sample b num_samples seq_len idx_draw t_draw = ok subs
    ∧ length subs = num_samples
    ∧ Forall (λ sub,
        length sub = seq_len
        ∧ ∃ idx t column,
            idx < N
            ∧ valid_column b idx = ok column
            ∧ length column = len b
            ∧ t + seq_len ≤ len b
            ∧ sub = take seq_len (drop t column)) subs.
Proof.
  intros HM HN Hne Hwidth Hb Hlt.
  destruct (extend_all_rows_are (λ row, length row = N) M batches
              (MyBuffer_init M) b [] HM Hne Hwidth (holds_init M))
    as [_ Hrows]; [|done|].
  { intros i Hi. unfold len in Hi. simpl in Hi. lia. }
  destruct (Hrows 0) as (row0 & Hrow0 & Hw0); [lia|].
  unfold sample. rewrite decide_False by lia. rewrite Hrow0.
  cbn [fmap option_fmap option_map from_option bind]. rewrite Hw0.
  destruct (traverse_Forall
    (λ k, bind (randint 0 N (idx_draw k)) (λ idx,
          bind (valid_column b idx) (λ traj,
          sample_sub_traj traj seq_len (t_draw k))))
    (λ sub, length sub = seq_len
            ∧ ∃ idx t column, idx < N ∧ valid_column b idx = ok column
                ∧ length column = len b ∧ t + seq_len ≤ len b
                ∧ sub = take seq_len (drop t column))
    (seq 0 num_samples)) as (subs & Hs & Hlen & HP).
  - intros k _. unfold randint at 1. rewrite decide_True by lia.
    cbn [bind ok]. rewrite Nat.sub_0_r.
    set (idx := 0 + idx_draw k `mod` N).
    assert (Hidx : idx < N) by (unfold idx; simpl; apply Nat.mod_upper_bound; lia).
    destruct (valid_column_ok N b idx Hrows Hidx) as (column & Hc & Hcl).
    rewrite Hc. cbn [bind ok].
    destruct (sample_sub_traj_shorter column seq_len (t_draw k))
      as (t & Ht & Hsub & Hsl); [lia|].
    eexists. split; [exact Hsub|]. split; [exact Hsl|].
    exists idx, t, column. repeat split; try done. lia.
  - exists subs. split; [exact Hs|]. split; [|exact HP].
    by rewrite Hlen, length_seq.
Qed.
End SamplingMore.

Lemma sample_returns_windows_witness :
  ∃ b subs,
    common.extend_all (common.MyBuffer_init 4)
      [[[10; 20]; [11; 21]]; [[12; 22]]] = Some b
    ∧ 2 < common.len b
    ∧ common.sample b 2 2 (λ k, k) (λ k, k) = common.ok subs
    ∧ length subs = 2.
Proof.
  destruct (common.extend_all (common.MyBuffer_init 4)
              [[[10; 20]; [11; 21]]; [[12; 22]]]) as [b|] eqn:Hb;
    [|by vm_compute in Hb].
  assert (Hlen : 2 < common.len b).
  { vm_compute in Hb. injection Hb as <-. vm_compute. lia. }
  destruct (sample_returns_windows 4 2 [[[10; 20]; [11; 21]]; [[12; 22]]]
              b 2 2 (λ k, k) (λ k, k)) as (subs & Hs & Hl & _);
    [lia | lia | repeat constructor; done | repeat constructor; done
    | exact Hb | exact Hlen |].
  exists b, subs. split; [reflexivity|]. split; [exact Hlen|].
  split; [exact Hs | exact Hl].
Defined.

(** ** More on the PPO update *)

Section QcFacts.
Local Open Scope Qc_scope.

Lemma Qc_this_inv (x : Qc) : (this (/ x) == / this x)%Q.
Proof. simpl. apply Qred_correct. Qed.

Lemma Qcdiv_nonneg (a b : Qc) : 0 ≤ a → 0 ≤ b → 0 ≤ a / b.
Proof.
  intros Ha Hb. unfold Qcdiv, Qcle in *.
  rewrite Qc_this_mult, Qc_this_inv.
  change (this 0) with 0%Q in *.
  apply Qmult_le_0_compat; [done|]. by apply Qinv_le_0_compat.
Qed.

Lemma Qcdiv_le_mono (a b c : Qc) : a ≤ b → 0 ≤ c → a / c ≤ b / c.
Proof.
  intros Hab Hc. unfold Qcdiv.
  assert (Hi : 0 ≤ / c).
  { unfold Qcle in *. rewrite Qc_this_inv. change (this 0) with 0%Q in *.
    by apply Qinv_le_0_compat. }
  revert Hi. generalize (/ c). intros ci Hi. qc_nra.
Qed.

Lemma of_nat_nonneg (n : nat) : 0 ≤ Num.of_nat n.
Proof.
  unfold Num.of_nat, Qc_of_Z, Qcle. simpl. unfold Qle. simpl. lia.
Qed.

Lemma sum_nonneg (l : list Qc) : Forall (λ x, 0 ≤ x) l → 0 ≤ Num.sum l.
Proof.
  unfold Num.sum. induction 1 as [|x l Hx _ IH]; simpl.
  - apply Qcle_refl.
  - qc_nra.
Qed.

Lemma sum_le {B} (f g : B → Qc) (l : list B) :
  (∀ x, x ∈ l → f x ≤ g x) → Num.sum (f <$> l) ≤ Num.sum (g <$> l).
Proof.
  unfold Num.sum. induction l as [|x l IH]; intros Hfg.
  - apply Qcle_refl.
  - rewrite !fmap_cons. cbn [foldr].
    assert (f x ≤ g x) by (apply Hfg; by left).
    assert (foldr Qcplus 0 (f <$> l) ≤ foldr Qcplus 0 (g <$> l))
      by (apply IH; intros y Hy; apply Hfg; by right).
    qc_nra.
Qed.

Lemma mean_nonneg (l : list Qc) : Forall (λ x, 0 ≤ x) l → 0 ≤ Num.mean l.
Proof.
  intros H. unfold Num.mean.
  apply Qcdiv_nonneg; [by apply sum_nonneg | apply of_nat_nonneg].
Qed.

Lemma mean_le {B} (f g : B → Qc) (l : list B) :
  (∀ x, x ∈ l → f x ≤ g x) → Num.mean (f <$> l) ≤ Num.mean (g <$> l).
Proof.
  intros H. unfold Num.mean. rewrite !length_fmap.
  apply Qcdiv_le_mono; [by apply sum_le | apply of_nat_nonneg].
Qed.

Lemma mse_nonneg (x y : Qc) : 0 ≤ Num.mse x y.
Proof. unfold Num.mse. generalize (x - y). intros d. qc_nra. Qed.

Lemma mse_refl (x : Qc) : Num.mse x x = 0.
Proof. unfold Num.mse. ring. Qed.
End QcFacts.

Section Diagnostics.
Local Open Scope Qc_scope.
Import ppo diagnostics.

Lemma mse_loss_nonneg (input target : list Qc) : 0 ≤ mse_loss input target.
Proof.
  unfold mse_loss. apply mean_nonneg.
  apply Forall_forall. intros z Hz.
  apply elem_of_lookup_zip_with in Hz as (i & x & y & -> & _ & _).
  apply mse_nonneg.
Qed.

Lemma mse_loss_same (x : list Qc) : mse_loss x x = 0.
Proof.
  unfold mse_loss. rewrite zip_with_diag.
  unfold Num.mean.
  assert (Hs : Num.sum ((λ a, Num.mse a a) <$> x) = 0).
  { unfold Num.sum. induction x as [|a x IH]; [done|].
    rewrite fmap_cons. cbn [foldr]. rewrite IH, mse_refl. ring. }
  rewrite Hs. unfold Qcdiv. ring.
Qed.

(** X5.  When the returns of a minibatch have positive variance, the
    explained variance reported by the update is at most [1], and it is
    [1] when the critic predicts every return. *)
Theorem explained_var_le_1 (tensordict : list transition) :
  0 < var (ret <$> tensordict) →
  explained_var tensordict ≤ 1
  ∧ ((∀ s, s ∈ tensordict → values s = ret s) →
     explained_var tensordict = 1).
Proof.
  intros Hvar. unfold explained_var. cbn zeta. split.
  - assert (H : 0 ≤ mse_loss (values <$> tensordict) (ret <$> tensordict)
                    / var (ret <$> tensordict)).
    { apply Qcdiv_nonneg; [apply mse_loss_nonneg|]. by apply Qclt_le_weak. }
    revert H. generalize (mse_loss (values <$> tensordict) (ret <$> tensordict)
                          / var (ret <$> tensordict)).
    intros q Hq. qc_nra.
  - intros Heq.
    assert (Hv : values <$> tensordict = ret <$> tensordict).
    { apply list_fmap_ext. intros i s Hs. apply Heq.
      by eapply list_elem_of_lookup_2. }
    rewrite Hv, mse_loss_same. unfold Qcdiv. ring.
Qed.
End Diagnostics.

Lemma explained_var_le_1_witness :
  let s (r v : Qc) :=
    {| ppo.adv := 0; ppo.sample_log_prob := 0; ppo.log_probs := 0;
       ppo.state_value := 0; ppo.ret := r; ppo.values := v;
       ppo.is_init := false |}%Qc in
  let batch := [s (Num.frac 1 1) (Num.frac 1 2); s (Num.frac 3 1) (Num.frac 3 1)] in
  (0 < diagnostics.var (ppo.ret <$> batch))%Qc
  ∧ (diagnostics.explained_var batch ≤ 1)%Qc.
Proof.
  intros s batch.
  assert (Hvar : (0 < diagnostics.var (ppo.ret <$> batch))%Qc) by compute_done.
  split; [exact Hvar|].
  exact (proj1 (explained_var_le_1 batch Hvar)).
Defined.

Section PolicyLossMore.
Local Open Scope Qc_scope.
Import ppo.

Variable exp : Qc → Qc.
Variable action_dim : nat.

Lemma clamp_id (x lo hi : Qc) : lo ≤ x → x ≤ hi → Num.clamp x lo hi = x.
Proof.
  intros Hlo Hhi. unfold Num.clamp, Num.min, Num.max.
  repeat case_decide; try done; try (exfalso; qc_order).
  by apply Qcle_antisym.
Qed.

Lemma min_same (x : Qc) : Num.min x x = x.
Proof. unfold Num.min. by case_decide. Qed.

(** X6.  If [exp(0) = 1] and the actor gives every action of the
    minibatch the log-probability it had at collection time, every ratio
    is [1], clipping changes nothing and the policy loss of
    [PPOPolicy._update] is [-mean(adv) * action_dim]. *)
Theorem policy_loss_unchanged_policy (tensordict : list transition) :
  exp 0 = 1 →
  (∀ s, s ∈ tensordict → log_probs s = sample_log_prob s) →
  ppo.policy_loss exp action_dim tensordict
  = - Num.mean (adv <$> tensordict) * Num.of_nat action_dim.
Proof.
  intros Hexp Hsame. unfold ppo.policy_loss. do 3 f_equal.
  apply list_fmap_ext. intros i s Hs. cbn zeta.
  rewrite (Hsame s) by (by eapply list_elem_of_lookup_2).
  replace (sample_log_prob s - sample_log_prob s) with (0 : Qc) by ring.
  rewrite Hexp, clamp_id; [|compute_done|compute_done].
  rewrite min_same. ring.
Qed.

(** The most the clipped surrogate can be for an advantage [a]. *)
Lemma surrogate_cap (eps ratio a : Qc) :
  0 ≤ eps →
  spec.surrogate eps ratio a ≤ Num.max ((1 + eps) * a) ((1 - eps) * a).
Proof.
  intros Heps. unfold spec.surrogate.
  assert (Hc : 1 - eps ≤ Num.clamp ratio (1 - eps) (1 + eps) ≤ 1 + eps)
    by (apply clamp_within; qc_order).
  revert Hc. generalize (Num.clamp ratio (1 - eps) (1 + eps)). intros c [Hlo Hhi].
  eapply Qcle_trans; [apply min_le_r|].
  destruct (Qclt_le_dec a 0) as [Ha|Ha].
  - assert (Hp : (1 - eps) * (- a) ≤ c * (- a)).
    { apply Qcmult_le_mono_nonneg_r; [qc_order | done]. }
    unfold Num.max. case_decide; qc_nra.
  - assert (Hp : c * a ≤ (1 + eps) * a).
    { by apply Qcmult_le_mono_nonneg_r. }
    unfold Num.max. case_decide; qc_nra.
Qed.

(** X7.  Whatever the new policy is, the policy loss of
    [PPOPolicy._update] and of [PPOAdaptivePolicy._update] is at least
    [-mean(max(1.1 * adv, 0.9 * adv)) * action_dim]: a bound that depends
    on the advantages alone. *)
Theorem policy_loss_bounded_below (tensordict : list transition) :
  let cap (s : transition) :=
    Num.max ((1 + ppo.clip_param) * adv s) ((1 - ppo.clip_param) * adv s) in
  - Num.mean (cap <$> tensordict) * Num.of_nat action_dim
    ≤ ppo.policy_loss exp action_dim tensordict
  ∧ - Num.mean (cap <$> tensordict) * Num.of_nat action_dim
    ≤ ppo_adapt.policy_loss exp action_dim tensordict.
Proof.
  intros cap.
  assert (Hle : Num.mean
      ((λ s, spec.surrogate ppo.clip_param
               (exp (log_probs s - sample_log_prob s)) (adv s)) <$> tensordict)
    ≤ Num.mean (cap <$> tensordict)).
  { apply mean_le. intros s _. apply surrogate_cap. compute_done. }
  assert (Hd := of_nat_nonneg action_dim).
  assert (Hppo : ppo.policy_loss exp action_dim tensordict
    = - Num.mean ((λ s, spec.surrogate ppo.clip_param
               (exp (log_probs s - sample_log_prob s)) (adv s)) <$> tensordict)
      * Num.of_nat action_dim).
  { unfold ppo.policy_loss. do 3 f_equal.
    apply list_fmap_ext. intros _ s _. apply surr_ppo. }
  assert (Hadapt : ppo_adapt.policy_loss exp action_dim tensordict
    = - Num.mean ((λ s, spec.surrogate ppo.clip_param
               (exp (log_probs s - sample_log_prob s)) (adv s)) <$> tensordict)
      * Num.of_nat action_dim).
  { unfold ppo_adapt.policy_loss. do 3 f_equal.
    apply list_fmap_ext. intros _ s _. apply (surr_ppo exp ppo_adapt.clip_param). }
  rewrite Hppo, Hadapt. clear Hppo Hadapt.
  revert Hle Hd.
  generalize (Num.mean ((λ s, spec.surrogate ppo.clip_param
               (exp (log_probs s - sample_log_prob s)) (adv s)) <$> tensordict)).
  generalize (Num.mean (cap <$> tensordict)).
  generalize (Num.of_nat action_dim).
  intros d m1 m2 Hle Hd. split; qc_nra.
Qed.
End PolicyLossMore.

Lemma policy_loss_unchanged_policy_witness :
  let s (a l : Qc) :=
    {| ppo.adv := a; ppo.sample_log_prob := l; ppo.log_probs := l;
       ppo.state_value := 0; ppo.ret := 0; ppo.values := 0;
       ppo.is_init := false |}%Qc in
  let batch := [s (Num.frac 1 1) (Num.frac (-3) 2); s (Num.frac (-2) 1) (Num.frac 1 5)] in
  (λ x : Qc, (1 + x)%Qc) 0%Qc = 1%Qc
  ∧ ppo.policy_loss (λ x, (1 + x)%Qc) 4 batch = Num.frac 2 1.
Proof.
  intros s batch.
  assert (Hexp : (λ x : Qc, (1 + x)%Qc) 0%Qc = 1%Qc) by compute_done.
  split; [exact Hexp|].
  rewrite (policy_loss_unchanged_policy (λ x, (1 + x)%Qc) 4 batch Hexp).
  - compute_done.
  - intros x Hx. unfold batch in Hx.
    repeat (apply elem_of_cons in Hx as [->|Hx]; [reflexivity|]).
    by apply elem_of_nil in Hx.
Defined.

Section MinibatchesMore.
Import ppo.
Context {A : Type}.

Lemma chunks_nil {B} (cols rows : nat) :
  chunks cols rows ([] : list B) = replicate rows [].
Proof.
  induction rows as [|rows IH]; [done|].
  simpl. by rewrite take_nil, drop_nil, IH.
Qed.

Lemma mapM_index_nil (tensordict : list A) (rows : nat) :
  mapM (index tensordict) (replicate rows []) = Some (replicate rows []).
Proof. induction rows as [|rows IH]; [done|]. simpl. by rewrite IH. Qed.

(** X8.  A batch with fewer elements than [num_minibatches] is not
    refused: the pass yields [num_minibatches] minibatches and all of
    them are empty. *)
Theorem make_batch_too_small
    (tensordict : list A) (num_minibatches : nat) (randperm : nat → list nat) :
  length tensordict < num_minibatches →
  (∀ n, randperm n ≡ₚ seq 0 n) →
  make_batch tensordict num_minibatches randperm
  = Some (replicate num_minibatches []).
Proof.
  intros Hlt Hperm. unfold make_batch, make_batch_perm.
  rewrite decide_False by lia.
  rewrite Nat.div_small by done. simpl.
  pose proof (Hperm 0) as H0. simpl in H0. apply Permutation_nil_r in H0.
  rewrite H0. unfold reshape. rewrite decide_False by lia.
  simpl. rewrite Nat.Div0.mod_0_l, decide_True by done.
  cbn [mbind option_bind]. rewrite chunks_nil. apply mapM_index_nil.
Qed.
End MinibatchesMore.

Lemma make_batch_too_small_witness :
  length [10; 11; 12] < 4
  ∧ (∀ n, reverse (seq 0 n) ≡ₚ seq 0 n)
  ∧ ppo.make_batch [10; 11; 12] 4 (λ n, reverse (seq 0 n))
    = Some [[]; []; []; []].
Proof.
  assert (Hperm : ∀ n, reverse (seq 0 n) ≡ₚ seq 0 n)
    by (intros n; apply reverse_Permutation).
  split; [simpl; lia|]. split; [exact Hperm|].
  apply (make_batch_too_small [10; 11; 12] 4 _); [simpl; lia | exact Hperm].
Defined.

(** ** The entropy term *)

Section Entropy.
Local Open Scope Qc_scope.
Import ppo objective.

Variable exp : Qc → Qc.
Variable action_dim : nat.

(** X9.  The two actor updates treat entropy in opposite ways.  The loss
    of [PPOPolicy._update] is [policy_loss + value_loss - 0.001 *
    mean(entropy)] and falls as the mean entropy grows.  The loss
    [MAPPOPolicy.update_actor] back-propagates is [policy_loss +
    entropy_coef * mean(entropy)]; for [entropy_coef ≥ 0] it grows with
    the mean entropy. *)
Theorem entropy_term_sign
    (clip_param entropy_coef : Qc) (e1 e2 : list Qc) (batch : list transition) :
  0 ≤ entropy_coef →
  Num.mean e1 ≤ Num.mean e2 →
  mappo_actor_loss exp action_dim clip_param entropy_coef e1 batch
  = mappo.policy_loss exp clip_param action_dim batch
    + entropy_coef * Num.mean e1
  ∧ mappo_actor_loss exp action_dim clip_param entropy_coef e1 batch
    ≤ mappo_actor_loss exp action_dim clip_param entropy_coef e2 batch
  ∧ ppo_loss exp action_dim e2 batch ≤ ppo_loss exp action_dim e1 batch.
Proof.
  intros Hc He. unfold mappo_actor_loss, ppo_loss. cbn zeta.
  split; [ring|].
  assert (Hk : 0 ≤ ppo.entropy_coef) by compute_done.
  revert He Hk.
  generalize (Num.mean e1) (Num.mean e2) ppo.entropy_coef
    (mappo.policy_loss exp clip_param action_dim batch)
    (ppo.policy_loss exp action_dim batch) (ppo.value_loss batch).
  intros m1 m2 k p1 p2 v He Hk.
  assert (H1 : entropy_coef * m1 ≤ entropy_coef * m2)
    by (by apply Qcmult_le_mono_nonneg_l).
  assert (H2 : k * m1 ≤ k * m2) by (by apply Qcmult_le_mono_nonneg_l).
  split; qc_nra.
Qed.
End Entropy.

Lemma entropy_term_sign_witness :
  let s :=
    {| ppo.adv := 1; ppo.sample_log_prob := 0; ppo.log_probs := 0;
       ppo.state_value := 0; ppo.ret := 0; ppo.values := 0;
       ppo.is_init := false |}%Qc in
  (0 ≤ Num.frac 1 100)%Qc
  ∧ (Num.mean [Num.frac 1 1; Num.frac 1 1] ≤ Num.mean [Num.frac 2 1; Num.frac 4 1])%Qc
  ∧ (objective.mappo_actor_loss (λ x, (1 + x)%Qc) 1 (Num.frac 1 5) (Num.frac 1 100)
       [Num.frac 1 1; Num.frac 1 1] [s; s]
     ≤ objective.mappo_actor_loss (λ x, (1 + x)%Qc) 1 (Num.frac 1 5) (Num.frac 1 100)
         [Num.frac 2 1; Num.frac 4 1] [s; s])%Qc.
Proof.
  intros s.
  assert (H0 : (0 ≤ Num.frac 1 100)%Qc) by compute_done.
  assert (H1 : (Num.mean [Num.frac 1 1; Num.frac 1 1]
                ≤ Num.mean [Num.frac 2 1; Num.frac 4 1])%Qc) by compute_done.
  split; [exact H0|]. split; [exact H1|].
  exact (proj1 (proj2 (entropy_term_sign (λ x, (1 + x)%Qc) 1 (Num.frac 1 5)
                         (Num.frac 1 100) _ _ [s; s] H0 H1))).
Defined.

(** ** More on the value loss *)

Section ValueClipMore.
Local Open Scope Qc_scope.
Import ppo.

(** X10.  While the new prediction of every element stays within
    [clip_param] of the value recorded at collection, the clipping of
    [MAPPOPolicy.update_critic] is inactive: the value loss is the plain
    loss of the new prediction. *)
Theorem value_loss_inside_clip_range
    (clip_param : Qc) (critic_loss_fn : Qc → Qc → Qc) (batch : list transition) :
  (∀ s, s ∈ batch →
        - clip_param ≤ values s - state_value s
        ∧ values s - state_value s ≤ clip_param) →
  mappo.value_loss clip_param critic_loss_fn batch
  = (λ s, critic_loss_fn (ret s) (values s)) <$> batch.
Proof.
  intros Hin. unfold mappo.value_loss.
  apply list_fmap_ext. intros i s Hs. cbn zeta.
  destruct (Hin s) as [Hlo Hhi]; [by eapply list_elem_of_lookup_2|].
  rewrite clamp_id by done.
  replace (state_value s + (values s - state_value s)) with (values s) by ring.
  unfold Num.max. by case_decide.
Qed.
End ValueClipMore.

Lemma value_loss_inside_clip_range_witness :
  let s :=
    {| ppo.adv := 0; ppo.sample_log_prob := 0; ppo.log_probs := 0;
       ppo.state_value := Num.frac 1 1; ppo.ret := Num.frac 2 1;
       ppo.values := Num.frac 21 20; ppo.is_init := false |}%Qc in
  (∀ x, x ∈ [s; s] →
        (- Num.frac 1 10 ≤ ppo.values x - ppo.state_value x
         ∧ ppo.values x - ppo.state_value x ≤ Num.frac 1 10)%Qc)
  ∧ mappo.value_loss (Num.frac 1 10) Num.mse [s; s]
    = [Num.frac 361 400; Num.frac 361 400].
Proof.
  intros s.
  assert (H : ∀ x, x ∈ [s; s] →
        (- Num.frac 1 10 ≤ ppo.values x - ppo.state_value x
         ∧ ppo.values x - ppo.state_value x ≤ Num.frac 1 10)%Qc).
  { intros x Hx.
    repeat (apply elem_of_cons in Hx as [->|Hx]; [split; compute_done|]).
    by apply elem_of_nil in Hx. }
  split; [exact H|].
  rewrite (value_loss_inside_clip_range _ Num.mse [s; s] H). compute_done.
Defined.

(** ** Windows of a recurrent minibatch *)

Section Windows.
Import ppo mappo.
Context {A : Type}.

(** The window [j] of a trajectory. *)
Local Abbreviation window seq_len traj j :=
  (take seq_len (drop (j * seq_len) traj)).

Lemma chunks_slices {B} (cols rows : nat) (l : list B) :
  chunks cols rows l
  = (λ j, take cols (drop (j * cols) l)) <$> seq 0 rows.
Proof.
  revert l. induction rows as [|rows IH]; intros l; [done|].
  cbn [chunks seq]. rewrite fmap_cons. simpl. f_equal.
  rewrite IH, <-fmap_S_seq, <-list_fmap_compose.
  apply list_fmap_ext. intros _ j _. cbn [compose].
  rewrite drop_drop. repeat f_equal; lia.
Qed.

Lemma chunks_app {B} (cols r1 r2 : nat) (l1 l2 : list B) :
  length l1 = r1 * cols →
  chunks cols (r1 + r2) (l1 ++ l2) = chunks cols r1 l1 ++ chunks cols r2 l2.
Proof.
  revert l1. induction r1 as [|r1 IH]; intros l1 Hlen.
  - by destruct l1.
  - cbn [Nat.add chunks]. simpl in Hlen.
    rewrite take_app_le, drop_app_le by lia.
    rewrite IH by (rewrite length_drop; lia). done.
Qed.

Lemma windows_slices (tensordict : list (list A)) (seq_len T : nat) :
  0 < seq_len →
  Forall (λ traj, length traj = T) tensordict →
  windows tensordict seq_len
  = traj ← tensordict;
    (λ j, window seq_len traj j) <$> seq 0 (T / seq_len).
Proof.
  intros Hs Hrect. unfold windows.
  set (q := T / seq_len).
  assert (HT : default 0 (length <$> head tensordict) / seq_len * seq_len
               = if tensordict is [] then 0 else q * seq_len).
  { destruct Hrect as [|traj td Ht _]; simpl; [|by rewrite Ht].
    by rewrite Nat.Div0.div_0_l. }
  rewrite HT. clear HT.
  assert (Hq : q * seq_len ≤ T).
  { unfold q. rewrite Nat.mul_comm. apply Nat.Div0.mul_div_le. }
  destruct tensordict as [|traj0 td0];
    [simpl; by rewrite Nat.Div0.div_0_l|].
  revert Hrect. generalize (traj0 :: td0). clear traj0 td0.
  intros td Hrect.
  assert (Hlen : length (concat (take (q * seq_len) <$> td))
                 = length td * q * seq_len).
  { induction Hrect as [|traj td Ht _ IH]; [done|].
    rewrite fmap_cons. simpl. rewrite length_app, IH, length_take. lia. }
  rewrite Hlen, Nat.div_mul by lia.
  clear Hlen. induction Hrect as [|traj td Ht _ IH]; [done|].
  rewrite fmap_cons. cbn [concat length mbind list_bind].
  replace (S (length td) * q) with (q + length td * q) by lia.
  rewrite chunks_app by (rewrite length_take; lia).
  rewrite IH. f_equal.
  rewrite chunks_slices. apply list_fmap_ext. intros i j Hj. cbn beta.
  apply lookup_seq in Hj as [E Hi]. simpl in E. subst j.
  assert (i * seq_len + seq_len ≤ q * seq_len) by nia.
  rewrite !take_drop_commute, take_take. repeat f_equal; lia.
Qed.

(** X11.  For a batch of trajectories of [T] steps each and [seq_len ≥
    1], the windows that [make_dataset_naive] shuffles are, trajectory
    by trajectory, the slices [traj[j*seq_len : (j+1)*seq_len]] for [j <
    T // seq_len].  Each has exactly [seq_len] steps in their order in
    time, no window joins two trajectories, and the last [T % seq_len]
    steps of a trajectory are in no window. *)
Theorem windows_are_slices (tensordict : list (list A)) (seq_len T : nat) :
  0 < seq_len →
  Forall (λ traj, length traj = T) tensordict →
  windows tensordict seq_len
  = (traj ← tensordict;
     (λ j, window seq_len traj j) <$> seq 0 (T / seq_len))
  ∧ length (windows tensordict seq_len) = length tensordict * (T / seq_len)
  ∧ Forall (λ w, length w = seq_len) (windows tensordict seq_len).
Proof.
  intros Hs Hrect.
  pose proof (windows_slices tensordict seq_len T Hs Hrect) as Hw.
  split; [exact Hw|]. rewrite Hw. clear Hw. split.
  - induction Hrect as [|traj td Ht _ IH]; [done|].
    cbn [mbind list_bind length]. rewrite length_app, IH, length_fmap, length_seq.
    lia.
  - apply Forall_forall. intros w Hw.
    apply list_elem_of_bind in Hw as (traj & Hw & Htraj).
    apply list_elem_of_fmap in Hw as (j & -> & Hj%elem_of_seq).
    eapply Forall_forall in Hrect; [|exact Htraj].
    rewrite length_take, length_drop.
    assert (T / seq_len * seq_len ≤ T)
      by (rewrite Nat.mul_comm; apply Nat.Div0.mul_div_le).
    assert (j * seq_len + seq_len ≤ T / seq_len * seq_len) by nia.
    lia.
Qed.
End Windows.

Lemma windows_are_slices_witness :
  0 < 2
  ∧ Forall (λ traj, length traj = 5) [[1; 2; 3; 4; 5]; [6; 7; 8; 9; 10]]
  ∧ mappo.windows [[1; 2; 3; 4; 5]; [6; 7; 8; 9; 10]] 2
    = [[1; 2]; [3; 4]; [6; 7]; [8; 9]].
Proof.
  assert (Hrect : Forall (λ traj, length traj = 5)
                    [[1; 2; 3; 4; 5]; [6; 7; 8; 9; 10]])
    by (repeat constructor).
  split; [lia|]. split; [exact Hrect|].
  rewrite (proj1 (windows_are_slices _ 2 5 (Nat.lt_0_succ 1) Hrect)).
  reflexivity.
Defined.

(** ** The minibatches of [make_dataset_naive] *)

Section Dataset.
Import ppo mappo.
Context {A : Type}.

Lemma elem_of_concat_inv {B} (x : B) (rows : list (list B)) :
  x ∈ concat rows → ∃ row, row ∈ rows ∧ x ∈ row.
Proof.
  induction rows as [|row rows IH]; simpl; [by intros ?%elem_of_nil|].
  intros [H|H]%elem_of_app.
  - exists row. split; [by left | done].
  - destruct (IH H) as (row' & Hin & Hx). exists row'. split; [by right | done].
Qed.

Lemma length_concat_rect {B} (tensordict : list (list B)) (T : nat) :
  Forall (λ traj, length traj = T) tensordict →
  length (concat tensordict) = length tensordict * T.
Proof.
  induction 1 as [|traj td Ht _ IH]; [done|].
  simpl. rewrite length_app, IH, Ht. lia.
Qed.

Lemma length_windows (tensordict : list (list A)) (seq_len T : nat) :
  0 < seq_len →
  Forall (λ traj, length traj = T) tensordict →
  length (windows tensordict seq_len) = length tensordict * (T / seq_len).
Proof.
  intros Hs Hrect. rewrite (windows_slices tensordict seq_len T Hs Hrect).
  clear Hs. induction Hrect as [|traj td Ht _ IH]; [done|].
  cbn [mbind list_bind length]. rewrite length_app, IH, length_fmap, length_seq.
  lia.
Qed.

(** X12.  With [num_minibatches > 0], [torch.randperm] returning
    permutations and a batch of trajectories of [T] steps each,
    [make_dataset_naive] yields [num_minibatches] minibatches of equal
    size.  For [seq_len > 1] every item of a minibatch is a window
    [traj[j*seq_len : (j+1)*seq_len]] of one trajectory of the batch, so
    shuffling never reorders steps inside a window; for [seq_len ≤ 1]
    every item is a single step of a trajectory of the batch. *)
Theorem make_dataset_naive_items
    (tensordict : list (list A)) (num_minibatches seq_len T : nat)
    (randperm : nat → list nat) :
  0 < num_minibatches →
  (∀ n, randperm n ≡ₚ seq 0 n) →
  Forall (λ traj, length traj = T) tensordict →
  (1 < seq_len →
   ∃ batches,
     make_dataset_naive tensordict num_minibatches seq_len randperm
     = Some (inl batches)
     ∧ length batches = num_minibatches
     ∧ Forall (λ b,
         length b = length tensordict * (T / seq_len) / num_minibatches
         ∧ ∀ w, w ∈ b →
             ∃ traj j, traj ∈ tensordict ∧ j < T / seq_len
                       ∧ w = take seq_len (drop (j * seq_len) traj)) batches)
  ∧ (seq_len ≤ 1 →
     ∃ batches,
       make_dataset_naive tensordict num_minibatches seq_len randperm
       = Some (inr batches)
       ∧ length batches = num_minibatches
       ∧ Forall (λ b,
           length b = length tensordict * T / num_minibatches
           ∧ ∀ a, a ∈ b → ∃ traj, traj ∈ tensordict ∧ a ∈ traj) batches).
Proof.
  intros Hk Hperm Hrect. split; intros Hs.
  - destruct (make_batch_items (windows tensordict seq_len) num_minibatches
                randperm Hk Hperm) as (batches & Hb & Hlen & HP).
    exists batches. unfold make_dataset_naive.
    rewrite decide_True by done. rewrite Hb. split; [done|]. split; [done|].
    eapply Forall_impl; [exact HP|]. intros b [Hbl Hbw]. split.
    + by rewrite Hbl, (length_windows _ _ T) by (done || lia).
    + intros w Hw. apply Hbw in Hw.
      rewrite (windows_slices tensordict seq_len T) in Hw by (done || lia).
      apply list_elem_of_bind in Hw as (traj & Hw & Htraj).
      apply list_elem_of_fmap in Hw as (j & -> & Hj%elem_of_seq).
      exists traj, j. split; [done|]. split; [lia | done].
  - destruct (make_batch_items (concat tensordict) num_minibatches
                randperm Hk Hperm) as (batches & Hb & Hlen & HP).
    exists batches. unfold make_dataset_naive.
    rewrite decide_False by lia. rewrite Hb. split; [done|]. split; [done|].
    eapply Forall_impl; [exact HP|]. intros b [Hbl Hba]. split.
    + by rewrite Hbl, (length_concat_rect _ T).
    + intros a Ha. by apply elem_of_concat_inv, Hba.
Qed.
End Dataset.

Lemma make_dataset_naive_items_witness :
  0 < 2
  ∧ (∀ n, reverse (seq 0 n) ≡ₚ seq 0 n)
  ∧ Forall (λ traj, length traj = 5) [[1; 2; 3; 4; 5]; [6; 7; 8; 9; 10]]
  ∧ mappo.make_dataset_naive [[1; 2; 3; 4; 5]; [6; 7; 8; 9; 10]] 2 2
      (λ n, reverse (seq 0 n))
    = Some (inl [[[8; 9]; [6; 7]]; [[3; 4]; [1; 2]]]).
Proof.
  assert (Hperm : ∀ n, reverse (seq 0 n) ≡ₚ seq 0 n)
    by (intros n; apply reverse_Permutation).
  assert (Hrect : Forall (λ traj, length traj = 5)
                    [[1; 2; 3; 4; 5]; [6; 7; 8; 9; 10]])
    by (repeat constructor).
  destruct (make_dataset_naive_items [[1; 2; 3; 4; 5]; [6; 7; 8; 9; 10]] 2 2 5
              (λ n, reverse (seq 0 n)) (Nat.lt_0_succ 1) Hperm Hrect)
    as [H _].
  destruct (H (Nat.lt_succ_diag_r 1)) as (batches & Hb & _).
  split; [lia|]. split; [exact Hperm|]. split; [exact Hrect|].
  reflexivity.
Defined.

(** ** More on the adaptation phase *)

Section AdaptationMore.
Import ppo_adapt.

(** X13.  Whatever the adaptation loss is, with the adaptation key
    ["context"], [num_minibatches > 0] and [torch.randperm] returning
    permutations, an adaptation-phase update call steps [adapt_opt] only, [4 * num_minibatches] times, and the
    loss it back-propagates reaches no parameter of the encoder, the
    actor or the critic.  That loss reaches the parameters of the
    adaptation module with the regression and the least-squares losses,
    but not with the adversarial loss [GAN]; it reaches the discriminator
    with both adversarial losses. *)
Theorem adaptation_phase_gradients {B} (l : adaptation_loss) (rows : list B)
    (num_minibatches : nat) (randperm : nat → nat → list nat) :
  0 < num_minibatches →
  (∀ epoch n, randperm epoch n ≡ₚ seq 0 n) →
  ∃ loss,
    adaptation_loss_forward l default_mode minibatch = Some loss
    ∧ _train_adaptation l rows num_minibatches randperm
      = Some (concat (replicate (4 * num_minibatches)
                [zero_grad adapt_opt; backward loss; step adapt_opt]))
    ∧ (∀ n, n ∈ loss → n = adaptation_module ∨ n = discriminator)
    ∧ (adaptation_module ∈ loss ↔ l ≠ GAN)
    ∧ (discriminator ∈ loss ↔ l ≠ MSE).
Proof.
  intros Hk Hperm.
  assert (Htrain : ∀ loss,
    adaptation_loss_forward l default_mode minibatch = Some loss →
    _train_adaptation l rows num_minibatches randperm
    = Some (concat (replicate (4 * num_minibatches)
              [zero_grad adapt_opt; backward loss; step adapt_opt])))
    by (intros loss Hl; by apply _train_adaptation_rounds).
  destruct l.
  - exists [adaptation_module]. split; [reflexivity|].
    split; [by apply Htrain|]. split; [|split].
    + intros n Hn. apply list_elem_of_singleton in Hn. by left.
    + split; [done | intros _; by left].
    + split; [|done]. intros Hn. apply list_elem_of_singleton in Hn. done.
  - exists [discriminator]. split; [reflexivity|].
    split; [by apply Htrain|]. split; [|split].
    + intros n Hn. apply list_elem_of_singleton in Hn. by right.
    + split; [|done]. intros Hn. apply list_elem_of_singleton in Hn. done.
    + split; [done | intros _; by left].
  - eexists. split; [vm_compute; reflexivity|].
    split; [by apply Htrain|]. split; [|split].
    + intros n Hn. repeat (apply elem_of_cons in Hn as [->|Hn]; [auto|]).
      by apply elem_of_nil in Hn.
    + split; [done|]. intros _. compute_done.
    + split; [done|]. intros _. compute_done.
Qed.
End AdaptationMore.

Lemma adaptation_phase_gradients_witness :
  0 < 2
  ∧ ∃ loss,
      ppo_adapt.adaptation_loss_forward ppo_adapt.GAN ppo_adapt.default_mode
        ppo_adapt.minibatch = Some loss
      ∧ (ppo_adapt.adaptation_module ∉ loss)
      ∧ (ppo_adapt.discriminator ∈ loss).
Proof.
  split; [lia|].
  destruct (adaptation_phase_gradients ppo_adapt.GAN [0; 1; 2; 3; 4] 2
              (λ epoch n, reverse (seq 0 n)) (Nat.lt_0_succ 1)
              (λ epoch n, reverse_Permutation (seq 0 n)))
    as (loss & Hl & _ & _ & Ha & Hd).
  exists loss. split; [exact Hl|]. split.
  - intros H. by apply Ha in H.
  - by apply Hd.
Defined.

(** ** The forward pass of the adaptive policy *)

Section Flow.
Import adapt_flow.
Context {value : Type}.
Variable N : networks value.

Local Ltac run_forward :=
  unfold forward, encoder, actor, critic, condition, adaptation_module, call,
    andthen, get, set, exclude, key_of.

(** The outputs of the adaptation phase, for an adaptation key other than
    ["_feature"], as a function of the observation and of the history. *)
Lemma forward_adaptation_outputs (a : adaptation_key) (td : tensordict value)
    (o h : value) :
  a ≠ _feature →
  td k_observation = Some o → td k_observation_h = Some h →
  ∃ r c,
    forward N "adaptation" a td = inr r
    ∧ c = (if decide (a = context) then adaptation_net N h
           else encoder_net N (adaptation_net N h))
    ∧ r k_context = Some c
    ∧ (let x := actor_condition N (actor_feature N o) c in
       let ls := actor_head N x in
       r k_action = Some (dist_sample N ls.1 ls.2).1
       ∧ r k_sample_log_prob = Some (dist_sample N ls.1 ls.2).2)
    ∧ r k_state_value =
        Some (critic_head N (critic_condition N (critic_feature N o) c))
    ∧ r k_feature = None ∧ r k_loc = None ∧ r k_scale = None.
Proof.
  intros Ha Ho Hh. destruct a; [| |done].
  - eexists _, _. split.
    { run_forward. cbv -[fst snd]. rewrite ?Ho, ?Hh. cbv -[fst snd].
      rewrite ?Ho, ?Hh. reflexivity. }
    cbv -[fst snd]. done.
  - eexists _, _. split.
    { run_forward. cbv -[fst snd]. rewrite ?Ho, ?Hh. cbv -[fst snd].
      rewrite ?Ho, ?Hh. reflexivity. }
    cbv -[fst snd]. done.
Qed.
(** X14.  In the adaptation phase with the adaptation key ["context"] or
    [("agents", "intrinsics")], the forward pass succeeds as soon as the
    tensordict holds the observation and the history of observations,
    and the action, its log-probability, the state value and the
    context it returns are functions of these two entries only: two
    tensordicts that differ in their privileged intrinsics (or in any
    other entry) give the same outputs. *)
Theorem adaptation_forward_ignores_intrinsics (a : adaptation_key)
    (td1 td2 : tensordict value) :
  a ≠ _feature →
  is_Some (td1 k_observation) → is_Some (td1 k_observation_h) →
  td1 k_observation = td2 k_observation →
  td1 k_observation_h = td2 k_observation_h →
  ∃ r1 r2,
    forward N "adaptation" a td1 = inr r1
    ∧ forward N "adaptation" a td2 = inr r2
    ∧ is_Some (r1 k_action) ∧ is_Some (r1 k_sample_log_prob)
    ∧ is_Some (r1 k_state_value)
    ∧ r1 k_action = r2 k_action
    ∧ r1 k_sample_log_prob = r2 k_sample_log_prob
    ∧ r1 k_state_value = r2 k_state_value
    ∧ r1 k_context = r2 k_context.
Proof.
  intros Ha [o Ho] [h Hh] Eo Eh.
  destruct (forward_adaptation_outputs a td1 o h Ha Ho Hh)
    as (r1 & c1 & Hr1 & -> & Hc1 & [Ha1 Hl1] & Hv1 & _).
  rewrite Eo in Ho. rewrite Eh in Hh.
  destruct (forward_adaptation_outputs a td2 o h Ha Ho Hh)
    as (r2 & c2 & Hr2 & -> & Hc2 & [Ha2 Hl2] & Hv2 & _).
  exists r1, r2. rewrite Ha1, Ha2, Hl1, Hl2, Hv1, Hv2, Hc1, Hc2.
  by repeat split.
Qed.

(** X15.  With the adaptation key ["_feature"] the adaptation module has
    no effect on the forward pass: its output is overwritten by the
    first layer of the actor before anything reads it.  On a tensordict
    that holds the history of observations, the adaptation-phase forward
    pass returns what the encoder-phase forward pass returns, entry by
    entry, or raises the same exception. *)
Theorem adaptation_forward_feature_key (a : adaptation_key)
    (td : tensordict value) :
  is_Some (td k_observation_h) →
  match forward N "adaptation" _feature td, forward N "encoder" a td with
  | inr r1, inr r2 => ∀ k, r1 k = r2 k
  | inl e1, inl e2 => e1 = e2
  | _, _ => False
  end.
Proof.
  intros [h Hh]. run_forward. cbv -[fst snd]. rewrite Hh.
  destruct (td k_intrinsics) as [i|] eqn:Hi; [|done].
  destruct (td k_observation) as [o|] eqn:Ho; [|done].
  cbv -[fst snd]. rewrite ?Hi, ?Ho, ?Hh.
  intros []; reflexivity.
Qed.
End Flow.

Lemma adaptation_forward_ignores_intrinsics_witness :
  ∃ r1 r2,
    adapt_flow.forward adapt_flow.example_networks "adaptation"
      adapt_flow.intrinsics (adapt_flow.example_input 1 2 3) = inr r1
    ∧ adapt_flow.forward adapt_flow.example_networks "adaptation"
        adapt_flow.intrinsics (adapt_flow.example_input 9 2 3) = inr r2
    ∧ r1 adapt_flow.k_action = r2 adapt_flow.k_action
    ∧ r1 adapt_flow.k_state_value = r2 adapt_flow.k_state_value.
Proof.
  destruct (adaptation_forward_ignores_intrinsics adapt_flow.example_networks
              adapt_flow.intrinsics (adapt_flow.example_input 1 2 3)
              (adapt_flow.example_input 9 2 3))
    as (r1 & r2 & H1 & H2 & _ & _ & _ & Ha & _ & Hv & _);
    [done | by eexists | by eexists | reflexivity | reflexivity |].
  by exists r1, r2.
Defined.

Lemma adaptation_forward_feature_key_witness :
  is_Some (adapt_flow.example_input 1 2 3 adapt_flow.k_observation_h)
  ∧ match adapt_flow.forward adapt_flow.example_networks "adaptation"
            adapt_flow._feature (adapt_flow.example_input 1 2 3),
          adapt_flow.forward adapt_flow.example_networks "encoder"
            adapt_flow._feature (adapt_flow.example_input 1 2 3) with
    | inr r1, inr r2 => ∀ k, r1 k = r2 k
    | inl e1, inl e2 => e1 = e2
    | _, _ => False
    end.
Proof.
  assert (H : is_Some (adapt_flow.example_input 1 2 3
                         adapt_flow.k_observation_h)) by by eexists.
  split; [exact H|].
  exact (adaptation_forward_feature_key adapt_flow.example_networks
           adapt_flow._feature (adapt_flow.example_input 1 2 3) H).
Defined.

(** ** The update schedule of SAC *)

Section SacSchedule.
Import sac_train.

Lemma div_succ (n d : nat) :
  0 < d → S n / d = n / d + (if decide (S n mod d = 0) then 1 else 0).
Proof.
  intros Hd.
  pose proof (Nat.div_mod_eq n d) as Hn.
  pose proof (Nat.mod_upper_bound n d ltac:(lia)) as Hr.
  destruct (decide (n mod d + 1 = d)) as [E|E].
  - assert (Hq : S n = d * (n / d + 1) + 0) by nia.
    assert (S n mod d = 0) as ->
      by (symmetry; apply (Nat.mod_unique _ _ (n / d + 1)); lia).
    rewrite decide_True by done.
    symmetry. apply (Nat.div_unique _ _ _ 0); lia.
  - assert (Hq : S n = d * (n / d) + (n mod d + 1)) by nia.
    assert (S n mod d = n mod d + 1) as ->
      by (symmetry; apply (Nat.mod_unique _ _ (n / d)); lia).
    rewrite decide_False by lia.
    rewrite Nat.add_0_r. symmetry.
    apply (Nat.div_unique _ _ _ (n mod d + 1)); lia.
Qed.

Lemma count_app (e : event) (l1 l2 : list event) :
  count e (l1 ++ l2) = count e l1 + count e l2.
Proof. unfold count. by rewrite filter_app, length_app. Qed.

(** What one iteration does when both periods are positive. *)
Lemma gradient_step_body_ok (c : cfg) (gs : nat) :
  0 < actor_delay c → 0 < target_update_interval c →
  ∃ done,
    gradient_step_body c gs = (done, None)
    ∧ count critic_step done = 1
    ∧ count actor_step done
      = (if decide ((gs + 1) mod actor_delay c = 0) then 1 else 0)
    ∧ count alpha_step done = count actor_step done
    ∧ count target_update done
      = (if decide (gs mod target_update_interval c = 0) then 1 else 0).
Proof.
  intros Hd Hi. unfold gradient_step_body, py_mod.
  rewrite !decide_False by lia.
  eexists. split; [reflexivity|].
  repeat case_decide; compute_done.
Qed.

Lemma loop_counts (c : cfg) (n : nat) :
  0 < actor_delay c → 0 < target_update_interval c →
  ∃ done,
    loop c (seq 1 n) = (done, None)
    ∧ count critic_step done = n
    ∧ count actor_step done = (n + 1) / actor_delay c - 1 / actor_delay c
    ∧ count alpha_step done = count actor_step done
    ∧ count target_update done = n / target_update_interval c.
Proof.
  intros Hd Hi.
  assert (Happ : ∀ t1 t2 d1 d2,
    loop c t1 = (d1, None) → loop c t2 = (d2, None) →
    loop c (t1 ++ t2) = (d1 ++ d2, None)).
  { induction t1 as [|gs t1 IH]; intros t2 d1 d2 H1 H2.
    - cbn in H1. injection H1 as <-. exact H2.
    - cbn [loop app] in *.
      destruct (gradient_step_body c gs) as [d [e|]]; [done|].
      destruct (loop c t1) as [r1 o1] eqn:E1. injection H1 as <- ->.
      rewrite (IH t2 r1 d2 eq_refl H2). by rewrite app_assoc. }
  induction n as [|n (done & Hl & Hc & Ha & Hal & Ht)].
  - exists []. split; [done|]. split; [done|].
    split; [|split; [done|]].
    + unfold count. cbn. lia.
    + unfold count. cbn. by rewrite Nat.Div0.div_0_l.
  - destruct (gradient_step_body_ok c (S n) Hd Hi)
      as (d1 & Hb & Hc1 & Ha1 & Hal1 & Ht1).
    exists (done ++ d1). split.
    { rewrite seq_S. apply Happ; [done|].
      change (1 + n) with (S n). cbn [loop]. rewrite Hb.
      f_equal. apply app_nil_r. }
    rewrite !count_app, Hal, Hal1, Hc, Ha, Ha1, Ht, Hc1, Ht1.
    split; [lia|]. split; [|split; [done|]].
    + replace (S n + 1) with (S (n + 1)) by lia.
      rewrite (div_succ (n + 1)) by done.
      assert (1 / actor_delay c ≤ (n + 1) / actor_delay c)
        by (apply Nat.Div0.div_le_mono; lia).
      lia.
    + by rewrite (div_succ n) by done.
Qed.

Lemma stack_count (e : event) (done : list event) :
  stack (filter (λ e', e' = e) done)
  = if decide (count e done = 0) then inl RuntimeError
    else inr (filter (λ e', e' = e) done).
Proof.
  unfold count, stack. destruct (filter _ done); [done|].
  by rewrite decide_False.
Qed.

(** X16.  With positive [actor_delay] and [target_update_interval], a
    call of [MASACPolicy.train_op] updates nothing and returns [{}] while
    the replay buffer holds fewer than [buffer_size] transitions.
    Otherwise it runs [G = gradient_steps] critic steps, one actor step
    and one temperature step at every [gradient_step] in [1..G] with
    [(gradient_step + 1) % actor_delay == 0] ([G] of them for
    [actor_delay = 1], [(G + 1) // actor_delay] otherwise) and
    [G // target_update_interval] target updates; when no actor step
    falls into the call (e.g. [G + 1 < actor_delay]) the final
    [torch.stack(infos_actor)] raises [RuntimeError], after the critic
    steps and target updates have been done. *)
Theorem train_op_schedule (c : cfg) (len_replay_buffer : nat) :
  0 < actor_delay c → 0 < target_update_interval c →
  ∃ done out,
    train_op c len_replay_buffer = (done, out)
    ∧ (len_replay_buffer < buffer_size c → done = [] ∧ out = returned_empty)
    ∧ (buffer_size c ≤ len_replay_buffer →
       count critic_step done = gradient_steps c
       ∧ count actor_step done
         = (if decide (actor_delay c = 1) then gradient_steps c
            else (gradient_steps c + 1) / actor_delay c)
       ∧ count alpha_step done = count actor_step done
       ∧ count target_update done
         = gradient_steps c / target_update_interval c
       ∧ out = (if decide (count actor_step done = 0)
                then raised RuntimeError else returned_infos)).
Proof.
  intros Hd Hi. unfold train_op.
  destruct (decide (len_replay_buffer < buffer_size c)) as [Hlen|Hlen].
  { exists [], returned_empty. split; [done|]. split; [done|lia]. }
  destruct (loop_counts c (gradient_steps c) Hd Hi)
    as (done & -> & Hc & Ha & Hal & Ht).
  unfold infos_actor, infos_critic. rewrite !stack_count.
  assert (Ha' : count actor_step done
                = if decide (actor_delay c = 1) then gradient_steps c
                  else (gradient_steps c + 1) / actor_delay c).
  { rewrite Ha. case_decide as E.
    - rewrite E, !Nat.div_1_r. lia.
    - rewrite (Nat.div_small 1) by lia. lia. }
  assert (Hle : count actor_step done ≤ gradient_steps c).
  { rewrite Ha'. case_decide; [done|].
    destruct (actor_delay c) as [|[|d]] eqn:E; [lia|done|].
    transitivity ((gradient_steps c + 1) / 2).
    - apply Nat.div_le_compat_l. lia.
    - destruct (gradient_steps c) as [|G]; [done|].
      apply Nat.Div0.div_le_upper_bound. lia. }
  destruct (decide (count actor_step done = 0)) as [E0|E0].
  - exists done, (raised RuntimeError). split; [done|].
    split; [intros; lia|]. intros _.
    do 4 (split; [done|]). by rewrite decide_True.
  - rewrite decide_False by lia.
    exists done, returned_infos. split; [done|].
    split; [intros; lia|]. intros _.
    do 4 (split; [done|]). by rewrite decide_False.
Qed.
End SacSchedule.

Lemma train_op_schedule_witness :
  sac_train.train_op
    {| sac_train.buffer_size := 4; sac_train.gradient_steps := 3;
       sac_train.actor_delay := 5; sac_train.target_update_interval := 2 |} 4
  = ([sac_train.critic_step; sac_train.critic_step; sac_train.target_update;
      sac_train.critic_step],
     sac_train.raised sac_train.RuntimeError).
Proof.
  destruct (train_op_schedule
              {| sac_train.buffer_size := 4; sac_train.gradient_steps := 3;
                 sac_train.actor_delay := 5;
                 sac_train.target_update_interval := 2 |} 4)
    as (done & out & H & _); [cbn; lia | cbn; lia |].
  reflexivity.
Defined.

(** ** Means of affine maps *)

Section MeanFacts.
Local Open Scope Qc_scope.

Lemma of_nat_S (n : nat) : Num.of_nat (S n) = Num.of_nat n + 1.
Proof.
  unfold Num.of_nat. apply Qc_is_canon.
  rewrite Qc_this_plus. unfold Qc_of_Z. simpl this.
  rewrite !Qred_correct. rewrite Nat2Z.inj_succ. unfold Z.succ.
  rewrite inject_Z_plus. reflexivity.
Qed.

Lemma of_nat_0 : Num.of_nat 0 = 0.
Proof. by apply Qc_is_canon. Qed.

Lemma of_nat_pos (n : nat) : (0 < n)%nat → 0 < Num.of_nat n.
Proof.
  intros Hn. unfold Num.of_nat, Qc_of_Z, Qclt. simpl. unfold Qlt. simpl. lia.
Qed.

Lemma sum_affine {A} (f : A → Qc) (a b : Qc) (l : list A) :
  Num.sum ((λ x, a * f x + b) <$> l)
  = a * Num.sum (f <$> l) + Num.of_nat (length l) * b.
Proof.
  unfold Num.sum. induction l as [|x l IH].
  - cbn [fmap list_fmap foldr length]. rewrite of_nat_0. ring.
  - rewrite !fmap_cons. cbn [foldr length]. rewrite IH, of_nat_S. ring.
Qed.

Lemma mean_affine {A} (f : A → Qc) (a b : Qc) (l : list A) :
  l ≠ [] →
  Num.mean ((λ x, a * f x + b) <$> l) = a * Num.mean (f <$> l) + b.
Proof.
  intros Hl. unfold Num.mean. rewrite sum_affine, !length_fmap.
  assert (Num.of_nat (length l) ≠ 0).
  { destruct l; [done|]. intros E.
    pose proof (of_nat_pos (length (a0 :: l)) ltac:(cbn; lia)) as H.
    rewrite E in H. by apply Qclt_not_eq in H. }
  field. done.
Qed.
End MeanFacts.

(** ** The temperature loss of SAC *)

Section SacLoss.
Local Open Scope Qc_scope.
Import sac_loss.

(** X17.  On a non-empty minibatch the temperature loss of
    [MASACPolicy.train_op] is linear in [log_alpha], with slope the
    entropy estimate [- mean(logp)] minus the target entropy
    [- action_dim]: it grows with [log_alpha] exactly when the entropy
    estimate is above the target, so that a descent step on it lowers
    the temperature then and raises it when the estimate is below the
    target. *)
Theorem alpha_loss_direction (action_dim : nat) (logp : list Qc) :
  logp ≠ [] →
  (∀ log_alpha,
     alpha_loss action_dim log_alpha logp
     = log_alpha * (- Num.mean logp - target_entropy action_dim))
  ∧ (∀ la la', la < la' →
       (alpha_loss action_dim la logp < alpha_loss action_dim la' logp
        ↔ target_entropy action_dim < - Num.mean logp)
       ∧ (alpha_loss action_dim la' logp < alpha_loss action_dim la logp
          ↔ - Num.mean logp < target_entropy action_dim)).
Proof.
  intros Hl.
  assert (Heq : ∀ log_alpha,
     alpha_loss action_dim log_alpha logp
     = log_alpha * (- Num.mean logp - target_entropy action_dim)).
  { intros la. unfold alpha_loss.
    rewrite (list_fmap_ext _
               (λ l, la * id l + la * target_entropy action_dim) logp)
      by (intros; unfold id; ring).
    rewrite mean_affine by done. rewrite list_fmap_id. ring. }
  split; [exact Heq|]. intros la la' Hlt. rewrite !Heq.
  generalize (Num.mean logp) (target_entropy action_dim). intros m te.
  split; split; intros H; qc_nra.
Qed.
End SacLoss.

Lemma alpha_loss_direction_witness :
  sac_loss.alpha_loss 2 (Num.frac 1 1) [Num.frac (-3) 1; Num.frac (-5) 1]
  = Num.frac 6 1.
Proof.
  destruct (alpha_loss_direction 2 [Num.frac (-3) 1; Num.frac (-5) 1])
    as [H _]; [done|].
  rewrite H. by apply Qc_is_canon.
Defined.

(** ** Advantage normalisation *)

Section Normalize.
Local Open Scope Qc_scope.
Import advantage.

Lemma max_ge_r (x y : Qc) : y ≤ Num.max x y.
Proof.
  unfold Num.max. case_decide as H; [apply Qcle_refl|].
  apply Qcnot_le_lt in H. by apply Qclt_le_weak.
Qed.

(** Shifting by a number and dividing by a positive one keeps the
    order. *)
Lemma shift_scale_le (m s a b : Qc) :
  0 < s → a ≤ b → (a - m) / s ≤ (b - m) / s ∧ a / s ≤ b / s.
Proof.
  intros Hs Hab. split; apply Qcdiv_le_mono; try by apply Qclt_le_weak.
  - qc_nra.
  - done.
Qed.

Lemma fmap_le (f : Qc → Qc) (x : list Qc) :
  (∀ a b, a ≤ b → f a ≤ f b) →
  length (f <$> x) = length x
  ∧ ∀ i j a b a' b',
      x !! i = Some a → x !! j = Some b →
      (f <$> x) !! i = Some a' → (f <$> x) !! j = Some b' →
      a ≤ b → a' ≤ b'.
Proof.
  intros Hf. split; [apply length_fmap|].
  intros i j a b a' b' Ha Hb Ha' Hb' Hab.
  rewrite list_lookup_fmap, Ha in Ha'. rewrite list_lookup_fmap, Hb in Hb'.
  injection Ha' as <-. injection Hb' as <-. by apply Hf.
Qed.

(** X18.  The advantage normalisations ([normalize] of ppo.py with and
    without [subtract_mean], the inline ones of
    [PPOAdaptivePolicy._train_policy] and of [MAPPOPolicy.train_op])
    return, for a batch of at least two advantages and whatever
    non-negative number the standard deviation is, as many entries as
    they are given and never reverse the order of two of them: an
    advantage that is at most another one before normalisation is at
    most that one after it. *)
Theorem normalize_monotone (std : list Qc → Qc) (adv : list Qc) :
  (∀ x, 0 ≤ std x) → (2 ≤ length adv)%nat →
  ∀ out,
    out ∈ [normalize std adv true; normalize std adv false;
           ppo_adapt_normalize std adv; mappo_normalize std adv] →
    length out = length adv
    ∧ ∀ i j a b a' b',
        adv !! i = Some a → adv !! j = Some b →
        out !! i = Some a' → out !! j = Some b' →
        a ≤ b → a' ≤ b'.
Proof.
  intros Hstd Hlen out Hout.
  assert (Heps : 0 < Num.frac 1 10000000) by done.
  assert (Heps' : 0 < Num.frac 1 100000000) by done.
  assert (H1 : 0 < Num.max (std adv) (Num.frac 1 10000000)).
  { eapply Qclt_le_trans; [exact Heps | apply max_ge_r]. }
  assert (H2 : 0 < std adv + Num.frac 1 100000000).
  { specialize (Hstd adv). revert Heps'.
    generalize (Num.frac 1 100000000) (std adv) Hstd. intros e s Hs He.
    qc_nra. }
  repeat (apply elem_of_cons in Hout as [->|Hout]).
  - apply (fmap_le (λ v, (v - Num.mean adv)
                         / Num.max (std adv) (Num.frac 1 10000000))).
    intros a b Hab. exact (proj1 (shift_scale_le _ _ a b H1 Hab)).
  - apply (fmap_le (λ v, v / Num.max (std adv) (Num.frac 1 10000000))).
    intros a b Hab. exact (proj2 (shift_scale_le 0 _ a b H1 Hab)).
  - apply (fmap_le (λ v, (v - Num.mean adv)
                         / Num.max (std adv) (Num.frac 1 10000000))).
    intros a b Hab. exact (proj1 (shift_scale_le _ _ a b H1 Hab)).
  - apply (fmap_le (λ v, (v - Num.mean adv)
                         / (std adv + Num.frac 1 100000000))).
    intros a b Hab. exact (proj1 (shift_scale_le _ _ a b H2 Hab)).
  - by apply elem_of_nil in Hout.
Qed.
End Normalize.

Lemma normalize_monotone_witness :
  let adv := [Num.frac 1 1; Num.frac 3 1; Num.frac 2 1] in
  let out := advantage.normalize (λ _, Num.frac 2 1) adv true in
  length out = 3
  ∧ ∀ i j a b a' b',
      adv !! i = Some a → adv !! j = Some b →
      out !! i = Some a' → out !! j = Some b' →
      (a ≤ b)%Qc → (a' ≤ b')%Qc.
Proof.
  apply (normalize_monotone (λ _, Num.frac 2 1)
           [Num.frac 1 1; Num.frac 3 1; Num.frac 2 1]
           (λ _, ltac:(done)) (le_S _ _ (le_n 2))).
  by left.
Defined.

(** ** Action discretisation *)

Section Transforms.
Local Open Scope Qc_scope.
Import transforms.

Lemma of_nat_le (a b : nat) : (a ≤ b)%nat → Num.of_nat a ≤ Num.of_nat b.
Proof.
  intros H. replace b with (a + (b - a))%nat by lia.
  generalize (b - a)%nat. intros k. induction k as [|k IH].
  - rewrite Nat.add_0_r. apply Qcle_refl.
  - rewrite Nat.add_succ_r, of_nat_S. qc_nra.
Qed.

(** One entry: the bins [0 .. nvec - 1] are spread evenly over
    [[minimum, maximum]]. *)
(** One entry: bin [0] is the minimum and a larger bin is never a
    smaller action. *)
Lemma inv_entry_ordered (nv : nat) (hi lo : Qc) :
  (2 ≤ nv)%nat → lo ≤ hi →
  inv_entry 0 nv hi lo = lo
  ∧ ∀ a a', (a ≤ a')%nat →
      lo ≤ inv_entry a nv hi lo
      ∧ inv_entry a nv hi lo ≤ inv_entry a' nv hi lo.
Proof.
  intros Hnv Hlh. unfold inv_entry.
  destruct nv as [|n]; [lia|]. rewrite of_nat_S.
  replace (Num.of_nat n + 1 - 1) with (Num.of_nat n) by ring.
  assert (Hn : 0 < Num.of_nat n) by (apply of_nat_pos; lia).
  assert (Hn0 : Num.of_nat n ≠ 0)
    by (intros E; rewrite E in Hn; by apply Qclt_not_eq in Hn).
  split; [rewrite of_nat_0; by field|].
  intros a a' Ha.
  assert (Ht0 : 0 ≤ Num.of_nat a / Num.of_nat n).
  { apply Qcdiv_nonneg; [apply of_nat_nonneg | by apply Qclt_le_weak]. }
  assert (Ht1 : Num.of_nat a / Num.of_nat n ≤ Num.of_nat a' / Num.of_nat n).
  { apply Qcdiv_le_mono; [by apply of_nat_le | by apply Qclt_le_weak]. }
  revert Ht0 Ht1.
  generalize (Num.of_nat a / Num.of_nat n) (Num.of_nat a' / Num.of_nat n).
  intros t t' Ht0 Ht1. split; qc_nra.
Qed.

Lemma _inv_apply_transform_lookup (n : nat) (mn mx : list Qc)
    (action : list nat) :
  length mx = length mn → length action = length mn →
  ∃ out,
    _inv_apply_transform
      {| nbins := nbins_int n; nvec := Some (replicate (length mn) n);
         minimum := Some mn; maximum := Some mx |} action = inr out
    ∧ length out = length mn
    ∧ ∀ j a lo hi,
        action !! j = Some a → mn !! j = Some lo → mx !! j = Some hi →
        out !! j = Some (inv_entry a n hi lo).
Proof.
  intros Hlen Hla. unfold _inv_apply_transform. cbn [nvec maximum minimum].
  rewrite decide_True by (by rewrite length_replicate).
  eexists. split; [reflexivity|]. split.
  { rewrite length_zip_with, !length_zip, length_replicate. lia. }
  intros j a lo hi Hja Hjl Hjh.
  rewrite lookup_zip_with.
  assert (zip action (replicate (length mn) n) !! j = Some (a, n)) as ->.
  { apply lookup_zip_with_Some. exists a, n. split; [done|]. split; [done|].
    apply lookup_replicate_2. apply lookup_lt_Some in Hjl. done. }
  assert (zip mx mn !! j = Some (hi, lo)) as ->.
  { apply lookup_zip_with_Some. by exists hi, lo. }
  done.
Qed.

(** X19.  For a bounded action spec with [minimum ≤ maximum] entry by
    entry and an integer [nbins ≥ 2], [transform_input_spec] replaces
    the spec by a multi-discrete one with [nbins] choices on each entry
    of the last axis.  Afterwards [_inv_apply_transform] maps bin [0]
    to the minimum of its entry, no bin below that minimum, and a
    larger bin never to a smaller action than a smaller bin. *)
Theorem multidiscrete_bins_ordered (n : nat) (mn mx : list Qc) :
  (2 ≤ n)%nat → Forall2 Qcle mn mx →
  ∃ self,
    transform_input_spec (FromMultiDiscreteAction_init (nbins_int n))
      (BoundedTensorSpec mn mx)
    = inr (self, MultiDiscreteTensorSpec (replicate (length mn) n))
    ∧ ∀ action action',
        length action = length mn → length action' = length mn →
        ∃ out out',
          _inv_apply_transform self action = inr out
          ∧ _inv_apply_transform self action' = inr out'
          ∧ length out = length mn
          ∧ ∀ j a a' lo v v',
              action !! j = Some a → action' !! j = Some a' →
              mn !! j = Some lo →
              out !! j = Some v → out' !! j = Some v' →
              lo ≤ v
              ∧ (a = 0%nat → v = lo)
              ∧ ((a ≤ a')%nat → v ≤ v').
Proof.
  intros Hn Hb. pose proof (Forall2_length _ _ _ Hb) as Hlen.
  eexists. split; [reflexivity|]. intros action action' Hla Hla'.
  destruct (_inv_apply_transform_lookup n mn mx action)
    as (out & Ho & Hlo & Hout); [done | done |].
  destruct (_inv_apply_transform_lookup n mn mx action')
    as (out' & Ho' & _ & Hout'); [done | done |].
  exists out, out'. split; [exact Ho|]. split; [exact Ho'|].
  split; [exact Hlo|].
  intros j a a' lo v v' Hja Hja' Hjl Hjv Hjv'.
  destruct (lookup_lt_is_Some_2 mx j) as [hi Hjh].
  { rewrite <- Hlen. by eapply lookup_lt_Some. }
  rewrite (Hout j a lo hi Hja Hjl Hjh) in Hjv.
  rewrite (Hout' j a' lo hi Hja' Hjl Hjh) in Hjv'.
  injection Hjv as <-. injection Hjv' as <-.
  assert (Hlh : lo ≤ hi).
  { rewrite Forall2_lookup in Hb. specialize (Hb j).
    rewrite Hjl, Hjh in Hb. by inversion Hb. }
  destruct (inv_entry_ordered n hi lo Hn Hlh) as [H0 Hord].
  split; [|split].
  - by apply (Hord a a).
  - by intros ->.
  - intros Ha. by apply Hord.
Qed.

(** X20.  A spec that is not bounded is not refused:
    [transform_input_spec] raises nothing (the [NotImplementedError] of
    its [else] branch is built but not raised), returns the spec as it
    was and leaves the transform without [nvec], [minimum] and
    [maximum], so that the failure only shows at the first action, as
    an [AttributeError] of [_inv_apply_transform]. *)
Theorem unsupported_spec_not_refused (nb : nbins_t) (action_spec : spec) :
  (∀ mn mx, action_spec ≠ BoundedTensorSpec mn mx) →
  transform_input_spec (FromMultiDiscreteAction_init nb) action_spec
  = inr (FromMultiDiscreteAction_init nb, action_spec)
  ∧ ∀ action,
      _inv_apply_transform (FromMultiDiscreteAction_init nb) action
      = inl AttributeError.
Proof.
  intros Hs. split; [|done].
  destruct action_spec as [mn mx| |]; [|done|done].
  by destruct (Hs mn mx).
Qed.
End Transforms.

Lemma multidiscrete_bins_ordered_witness :
  ∃ self,
    transforms.transform_input_spec
      (transforms.FromMultiDiscreteAction_init (transforms.nbins_int 3))
      (transforms.BoundedTensorSpec [Num.frac (-1) 1; Num.frac 0 1]
         [Num.frac 1 1; Num.frac 4 1])
    = inr (self, transforms.MultiDiscreteTensorSpec [3; 3])
    ∧ transforms._inv_apply_transform self [0; 1]
      = inr [Num.frac (-1) 1; Num.frac 2 1].
Proof.
  destruct (multidiscrete_bins_ordered 3
              [Num.frac (-1) 1; Num.frac 0 1] [Num.frac 1 1; Num.frac 4 1])
    as (self & Hs & _); [lia | by repeat constructor |].
  exists self. split; [exact Hs|].
  cbn in Hs. injection Hs as <-. by vm_compute.
Defined.

Lemma unsupported_spec_not_refused_witness :
  transforms.transform_input_spec
    (transforms.FromMultiDiscreteAction_init (transforms.nbins_int 3))
    (transforms.MultiDiscreteTensorSpec [2; 2])
  = inr (transforms.FromMultiDiscreteAction_init (transforms.nbins_int 3),
         transforms.MultiDiscreteTensorSpec [2; 2]).
Proof.
  by destruct (unsupported_spec_not_refused (transforms.nbins_int 3)
                 (transforms.MultiDiscreteTensorSpec [2; 2])) as [H _].
Defined.

(** ** Episode statistics *)

Section LogOnEpisode.
Import log_on_episode.
Context {A : Type}.

Lemma filter_no_true (rows : list A) (_reset : list bool) :
  true ∉ _reset →
  (filter (λ p, p.2 = true) (zip rows _reset)).*1 = [].
Proof.
  intros H. revert rows. induction _reset as [|b m IH]; intros [|r rows];
    try done.
  cbn [zip zip_with]. rewrite filter_cons.
  destruct b.
  - destruct H. by left.
  - rewrite decide_False by done. apply IH. intros ?. apply H. by right.
Qed.

Lemma _step_ok (self : LogOnEpisode A) (step : list A * option (list bool)) :
  well_shaped step →
  0 < n_episodes self → length (stats self) < n_episodes self →
  ∃ self' report,
    _step self step.1 step.2 = inr (self', report)
    ∧ n_episodes self' = n_episodes self
    ∧ length (stats self') < n_episodes self
    ∧ concat (option_list report) ++ stats self'
      = stats self ++ finished step
    ∧ Forall (λ r, n_episodes self ≤ length r) (option_list report).
Proof.
  destruct step as [rows done]. unfold well_shaped, _step, finished.
  cbn [fst snd]. intros Hw Hn Hs.
  set (_reset := default (replicate (length rows) true) done).
  assert (Hlen : length _reset = length rows).
  { unfold _reset. destruct done; [done|]. apply length_replicate. }
  case_decide as Hany.
  - unfold mask_select. rewrite decide_True by done.
    case_decide as Hfull.
    + eexists _, _. split; [reflexivity|]. cbn.
      split; [done|]. split; [lia|]. split; [by rewrite !app_nil_r|].
      by repeat constructor.
    + eexists _, _. split; [reflexivity|]. cbn.
      split; [done|]. split; [lia|]. split; [done|]. constructor.
  - exists self, None. split; [done|]. split; [done|]. split; [done|].
    split; [|constructor]. cbn. by rewrite filter_no_true, app_nil_r.
Qed.

Lemma rollout_ok (self : LogOnEpisode A)
    (steps : list (list A * option (list bool))) :
  Forall well_shaped steps →
  0 < n_episodes self → length (stats self) < n_episodes self →
  ∃ self' reports,
    rollout self steps = inr (self', reports)
    ∧ n_episodes self' = n_episodes self
    ∧ length (stats self') < n_episodes self
    ∧ concat reports ++ stats self'
      = stats self ++ concat (finished <$> steps)
    ∧ Forall (λ r, n_episodes self ≤ length r) reports.
Proof.
  intros Hw Hn. revert self Hn.
  induction Hw as [|step steps Hstep _ IH]; intros self Hn Hs.
  - exists self, []. cbn. by rewrite app_nil_r.
  - destruct (_step_ok self step Hstep Hn Hs)
      as (self1 & report & H1 & Hn1 & Hs1 & Hc1 & Hr1).
    destruct (IH self1) as (self2 & reports & H2 & Hn2 & Hs2 & Hc2 & Hr2);
      [lia | lia |].
    exists self2, (option_list report ++ reports).
    destruct step as [rows done]. cbn [rollout fst snd] in *.
    rewrite H1, H2. split; [done|]. split; [lia|]. split; [lia|]. split.
    + rewrite fmap_cons, concat_cons, concat_app, <- !app_assoc, Hc2.
      by rewrite !app_assoc, Hc1.
    + apply Forall_app. split; [done|].
      eapply Forall_impl; [exact Hr2|]. cbn. intros r Hr. lia.
Qed.

(** X21.  For [n_episodes ≥ 1], over any rollout whose [done] masks have
    one entry per environment, [LogOnEpisode] raises nothing and
    reports every finished episode exactly once and in order: the
    reports made, followed by the statistics still held back, are the
    rows of the environments that finished, step after step.  Every
    report aggregates at least [n_episodes] episodes and fewer than
    [n_episodes] are held back at any time. *)
Theorem log_on_episode_reports_once (n : nat)
    (steps : list (list A * option (list bool))) :
  0 < n → Forall well_shaped steps →
  ∃ self reports,
    rollout (LogOnEpisode_init n) steps = inr (self, reports)
    ∧ concat reports ++ stats self = concat (finished <$> steps)
    ∧ length (stats self) < n
    ∧ Forall (λ r, n ≤ length r) reports.
Proof.
  intros Hn Hw.
  destruct (rollout_ok (LogOnEpisode_init n) steps Hw)
    as (self & reports & H & _ & Hs & Hc & Hr); [done | done |].
  by exists self, reports.
Qed.
End LogOnEpisode.

Lemma log_on_episode_reports_once_witness :
  ∃ self,
    log_on_episode.rollout (log_on_episode.LogOnEpisode_init 2)
      [([1; 2; 3], Some [false; true; false]);
       ([4; 5; 6], Some [false; false; false]);
       ([7; 8; 9], Some [true; false; true])]
    = inr (self, [[2; 7; 9]])
    ∧ log_on_episode.stats self = [].
Proof.
  destruct (log_on_episode_reports_once 2
      [([1; 2; 3], Some [false; true; false]);
       ([4; 5; 6], Some [false; false; false]);
       ([7; 8; 9], Some [true; false; true])])
    as (self & reports & H & _); [lia | by repeat constructor |].
  eexists. split; reflexivity.
Defined.

(** ** The training script *)

Section Train.
Import train.

Lemma ceil_div_succ (n s : nat) :
  0 < s →
  (S n + s - 1) / s = (n + s - 1) / s + (if decide (n mod s = 0) then 1 else 0).
Proof.
  intros Hs. replace (S n + s - 1) with (S (n + s - 1)) by lia.
  rewrite div_succ by done. f_equal.
  replace (S (n + s - 1)) with (n + 1 * s) by lia.
  by rewrite Nat.Div0.mod_add.
Qed.

Lemma Every_calls_spec (s i0 n : nat) :
  0 < s →
  ∃ called,
    Every_calls {| steps := s; i := i0 |} n
    = inr (called, {| steps := s; i := i0 + n |})
    ∧ called = (λ k, bool_decide ((i0 + k) mod s = 0)) <$> seq 0 n.
Proof.
  intros Hs. revert i0. induction n as [|n IH]; intros i0.
  - exists []. by rewrite Nat.add_0_r.
  - destruct (IH (i0 + 1)) as (rest & Hr & ->).
    exists (bool_decide (i0 mod s = 0)
            :: ((λ k, bool_decide ((i0 + 1 + k) mod s = 0)) <$> seq 0 n)).
    cbn [Every_calls]. unfold Every_call. cbn [steps i].
    rewrite decide_False by lia. rewrite Hr. split.
    + replace (i0 + 1 + n) with (i0 + S n) by lia. done.
    + cbn [seq fmap list_fmap]. rewrite Nat.add_0_r. f_equal.
      rewrite <- fmap_S_seq, <- list_fmap_compose.
      apply list_fmap_ext. intros ? k _. cbn.
      by replace (i0 + 1 + k) with (i0 + S k) by lia.
Qed.

(** X22.  For a positive period, [n] calls of a fresh [Every] call
    [func] on the calls number [0], [steps], [2 * steps], ... (counted
    from zero) and on no other, that is [ceil(n / steps)] times. *)
Theorem Every_calls_every (s n : nat) :
  0 < s →
  ∃ called self,
    Every_calls (Every_init s) n = inr (called, self)
    ∧ i self = n
    ∧ length called = n
    ∧ (∀ k, k < n → called !! k = Some (bool_decide (k mod s = 0)))
    ∧ length (filter (λ b, b = true) called) = (n + s - 1) / s.
Proof.
  intros Hs.
  destruct (Every_calls_spec s 0 n Hs) as (called & H & Hc).
  exists called, {| steps := s; i := 0 + n |}. split; [exact H|].
  split; [done|]. cbn [Nat.add] in Hc. subst called.
  split; [by rewrite length_fmap, length_seq|]. split.
  - intros k Hk. rewrite list_lookup_fmap, lookup_seq_lt by done. done.
  - clear H. induction n as [|n IH].
    + cbn. by rewrite Nat.div_small by lia.
    + rewrite seq_S, fmap_app, filter_app, length_app, IH.
      rewrite ceil_div_succ by done. f_equal.
      cbn [fmap list_fmap Nat.add]. rewrite filter_cons, filter_nil.
      case_decide as E.
      * apply bool_decide_eq_true in E. by rewrite decide_True.
      * rewrite decide_False; [done|]. intros E'. apply E.
        by apply bool_decide_eq_true.
Qed.

Section Main.
Variables max_iters eval_interval save_interval : Z.
Variable has_state_dict : bool.

Local Abbreviation iteration :=
  (train.iteration eval_interval save_interval has_state_dict).
Local Abbreviation loop :=
  (train.loop max_iters eval_interval save_interval has_state_dict).

Lemma loop_unbounded (i batches : nat) :
  ¬ (0 < max_iters)%Z →
  loop i batches = concat (iteration <$> seq i batches).
Proof.
  intros Hm. revert i. induction batches as [|b IH]; intros i; [done|].
  cbn [train.loop seq fmap list_fmap concat].
  rewrite decide_False by lia.
  by rewrite IH, Nat.add_1_r.
Qed.

Lemma loop_bounded (i batches : nat) :
  (0 < max_iters)%Z → i < Z.to_nat max_iters →
  loop i batches
  = concat (iteration <$> seq i (Nat.min batches (Z.to_nat max_iters - i))).
Proof.
  intros Hm. revert i. induction batches as [|b IH]; intros i Hi; [done|].
  cbn [train.loop].
  destruct (Z.to_nat max_iters - i) as [|k] eqn:Ek; [lia|].
  cbn [Nat.min seq fmap list_fmap concat]. f_equal.
  case_decide as Hbreak.
  - assert (k = 0) as -> by lia. by rewrite Nat.min_0_r.
  - rewrite IH, Nat.add_1_r by lia.
    by replace (Z.to_nat max_iters - S i) with k by lia.
Qed.

Lemma iterations_app (t1 t2 : list event) :
  iterations (t1 ++ t2) = iterations t1 ++ iterations t2.
Proof. apply omap_app. Qed.

Lemma iterations_iteration (i : nat) : iterations (iteration i) = [i].
Proof. unfold train.iteration. repeat case_decide; by destruct has_state_dict. Qed.

Lemma iterations_loop_body (i n : nat) :
  iterations (concat (iteration <$> seq i n)) = seq i n.
Proof.
  revert i. induction n as [|n IH]; intros i; [done|].
  cbn [seq fmap list_fmap concat].
  by rewrite iterations_app, iterations_iteration, IH.
Qed.

Lemma evaluations_app (t1 t2 : list event) :
  evaluations (t1 ++ t2) = evaluations t1 + evaluations t2.
Proof. unfold evaluations. by rewrite filter_app, length_app. Qed.

Lemma evaluations_iteration (i : nat) :
  evaluations (iteration i)
  = if decide (0 < eval_interval)%Z
    then (if decide (i mod Z.to_nat eval_interval = 0) then 1 else 0)
    else 0.
Proof.
  unfold train.iteration.
  assert (He : (0 < eval_interval)%Z →
    (Z.of_nat i mod eval_interval = 0)%Z ↔ i mod Z.to_nat eval_interval = 0).
  { intros He. rewrite <- (Z2Nat.id eval_interval) at 1 by lia.
    rewrite <- Nat2Z.inj_mod. lia. }
  destruct (decide (0 < eval_interval)%Z) as [H|H].
  - destruct (decide (i mod Z.to_nat eval_interval = 0)) as [E|E].
    + rewrite (decide_True (P := (_ ∧ Z.of_nat i mod eval_interval = 0)%Z))
        by (split; [done|by apply He]).
      repeat case_decide; by destruct has_state_dict.
    + rewrite (decide_False (P := (_ ∧ Z.of_nat i mod eval_interval = 0)%Z))
        by (intros [_ E']; by apply E, He).
      repeat case_decide; by destruct has_state_dict.
  - rewrite (decide_False (P := (_ ∧ Z.of_nat i mod eval_interval = 0)%Z))
      by (by intros [? _]).
    repeat case_decide; by destruct has_state_dict.
Qed.

Lemma evaluations_loop_body (n : nat) :
  evaluations (concat (iteration <$> seq 0 n))
  = if decide (0 < eval_interval)%Z
    then (n + Z.to_nat eval_interval - 1) / Z.to_nat eval_interval
    else 0.
Proof.
  induction n as [|n IH].
  - cbn. case_decide; [|done]. rewrite Nat.div_small; [done|lia].
  - rewrite seq_S, fmap_app, concat_app, evaluations_app, IH.
    cbn [fmap list_fmap concat]. rewrite app_nil_r, Nat.add_0_l.
    rewrite evaluations_iteration. case_decide; [|done].
    by rewrite ceil_div_succ by lia.
Qed.

(** What one iteration does: [train_op] first, then [evaluate] exactly
    when the iteration is due, at most once. *)
Lemma iteration_shape (i : nat) :
  ∃ rest,
    iteration i = train_op i :: rest
    ∧ (evaluate ∈ rest
       ↔ (0 < eval_interval ∧ Z.of_nat i mod eval_interval = 0)%Z)
    ∧ (∀ j, train_op j ∉ rest)
    ∧ length (filter (λ e, e = evaluate) rest) ≤ 1.
Proof.
  unfold train.iteration. eexists. split; [reflexivity|].
  destruct (decide (0 < eval_interval ∧ Z.of_nat i mod eval_interval = 0)%Z)
    as [He|He];
    destruct (decide (0 < save_interval
                      ∧ Z.of_nat i mod save_interval = 0)%Z) as [Hs|Hs];
    destruct has_state_dict; cbn [app].
  all: split; [split|split].
  all: try (intros _; exact He).
  all: try (intros _; by left).
  all: try (intros j Hin).
  all: try (repeat (apply elem_of_cons in Hin as [Hin|Hin]; [discriminate|]);
            by apply elem_of_nil in Hin).
  all: try compute_done.
  all: intros H; by destruct He.
Qed.

(** X23.  The main loop of the training script runs the bodies of the
    iterations [0 .. n - 1] in order and then the final [evaluate],
    where [n] is the number of batches the collector yields when
    [max_iters ≤ 0] and the smaller of that number and [max_iters]
    otherwise.  The body of iteration [i] starts with [train_op] on
    batch [i] and calls [evaluate] once if [eval_interval > 0] and
    [i % eval_interval == 0], not at all otherwise: inside the loop
    [evaluate] runs at the iterations [0], [eval_interval],
    [2 * eval_interval], ... below [n], and it runs once more after the
    loop, whatever the intervals are. *)
Theorem main_loop_iterations (batches : nat) :
  let trace :=
    main max_iters eval_interval save_interval has_state_dict batches in
  let n :=
    if decide (0 < max_iters)%Z then Nat.min batches (Z.to_nat max_iters)
    else batches in
  trace
  = concat (iteration <$> seq 0 n)
    ++ [evaluate; log] ++ (if has_state_dict then [save_checkpoint] else [])
  ∧ (∀ i, ∃ rest,
       iteration i = train_op i :: rest
       ∧ (evaluate ∈ rest
          ↔ (0 < eval_interval ∧ Z.of_nat i mod eval_interval = 0)%Z)
       ∧ (∀ j, train_op j ∉ rest)
       ∧ length (filter (λ e, e = evaluate) rest) ≤ 1)
  ∧ iterations trace = seq 0 n
  ∧ evaluations trace
    = (if decide (0 < eval_interval)%Z
       then (n + Z.to_nat eval_interval - 1) / Z.to_nat eval_interval
       else 0) + 1.
Proof.
  intros trace n.
  assert (Hloop : loop 0 batches = concat (iteration <$> seq 0 n)).
  { unfold n. case_decide as Hm.
    - rewrite loop_bounded by lia. by rewrite Nat.sub_0_r.
    - by apply loop_unbounded. }
  unfold trace, main. rewrite Hloop.
  split; [done|]. split; [apply iteration_shape|]. split.
  - rewrite iterations_app, iterations_loop_body.
    destruct has_state_dict; cbn; by rewrite app_nil_r.
  - rewrite evaluations_app, evaluations_loop_body. f_equal.
    by destruct has_state_dict.
Qed.
End Main.
End Train.

Lemma Every_calls_every_witness :
  ∃ self,
    train.Every_calls (train.Every_init 2) 5
    = inr ([true; false; true; false; true], self).
Proof.
  destruct (Every_calls_every 2 5) as (called & self & H & _); [lia|].
  by eexists.
Defined.

(** ** The formation task *)

Section Formation.
Local Open Scope Qc_scope.
Import formation.

(** Looking up a sub-multiset of the indices gives a sub-multiset of the
    entries. *)
Lemma mapM_submseteq {A B} (f : A → option B) (l1 l2 : list A)
    (k2 : list B) :
  l1 ⊆+ l2 → mapM f l2 = Some k2 →
  ∃ k1, mapM f l1 = Some k1 ∧ k1 ⊆+ k2.
Proof.
  intros H. revert k2.
  induction H as [|x l1 l2 _ IH|x y l|x l1 l2 _ IH|l1 l2 l3 _ IH1 _ IH2];
    intros k2 Hk.
  - exists []. by injection Hk as <-.
  - cbn in Hk. destruct (f x) as [b|] eqn:Hx; [|done].
    destruct (mapM f l2) as [k|] eqn:Hl; [|done].
    cbn in Hk. injection Hk as <-.
    destruct (IH k eq_refl) as (k1 & H1 & Hs).
    exists (b :: k1). cbn. rewrite Hx, H1. split; [done|]. by constructor.
  - cbn in Hk. destruct (f x) as [a|] eqn:Hx; [|done].
    destruct (f y) as [b|] eqn:Hy; [|done].
    destruct (mapM f l) as [k|] eqn:Hl; [|done].
    cbn in Hk. injection Hk as <-.
    exists (b :: a :: k). cbn. rewrite Hx, Hy, Hl. split; [done|].
    apply submseteq_swap.
  - cbn in Hk. destruct (f x) as [b|] eqn:Hx; [|done].
    destruct (mapM f l2) as [k|] eqn:Hl; [|done].
    cbn in Hk. injection Hk as <-.
    destruct (IH k eq_refl) as (k1 & H1 & Hs).
    exists k1. split; [done|]. by constructor.
  - destruct (IH2 k2 Hk) as (k & H2 & Hs2).
    destruct (IH1 k H2) as (k1 & H1 & Hs1).
    exists k1. split; [done|]. by etrans.
Qed.

Lemma mapM_lookup_seq {A} (cells : list A) :
  mapM (λ i, cells !! i) (seq 0 (length cells)) = Some cells.
Proof.
  apply mapM_Some_2. apply Forall2_lookup. intros i.
  destruct (cells !! i) as [c|] eqn:Hc.
  - rewrite lookup_seq_lt by (by eapply lookup_lt_Some). by constructor.
  - rewrite lookup_seq_ge by (by apply lookup_ge_None). constructor.
Qed.

(** X24.  With [torch.randperm] returning a permutation,
    [sample_from_grid] returns [min(n, number of cells)] cells, each
    cell of the grid at most as often as it occurs in the grid: on a
    grid without repeated cells no two drones get the same cell. *)
Theorem sample_from_grid_distinct {A} (randperm : nat → list nat)
    (cells : list A) (n : nat) :
  (∀ k, randperm k ≡ₚ seq 0 k) →
  ∃ out,
    sample_from_grid randperm cells n = Some out
    ∧ length out = (n `min` length cells)%nat
    ∧ out ⊆+ cells
    ∧ (NoDup cells → NoDup out).
Proof.
  intros Hperm. unfold sample_from_grid.
  set (idx := take n (randperm (length cells))).
  assert (Hsub : idx ⊆+ seq 0 (length cells)).
  { unfold idx. rewrite <- (Hperm (length cells)). apply submseteq_take. }
  destruct (mapM_submseteq (λ i, cells !! i) idx _ cells Hsub
              (mapM_lookup_seq cells)) as (out & Hout & Hs).
  exists out. split; [done|]. split; [|split; [done|]].
  - apply mapM_Some_1, Forall2_length in Hout. rewrite <- Hout.
    unfold idx. rewrite length_take, (Permutation_length (Hperm _)).
    by rewrite length_seq.
  - intros Hnd. apply submseteq_Permutation in Hs as [k Hk].
    rewrite Hk in Hnd. by apply NoDup_app in Hnd as [? _].
Qed.

(** X26.  With an [exp] that maps non-positive numbers into [(0, 1]],
    non-negative costs and a positive [safe_distance], the reward of the
    formation task lies between [0] and [2.2], and it is [0] when two
    drones are at the same place ([separation = 0]). *)
Theorem reward_bounded (exp : Qc → Qc)
    (safe_distance separation cost_h cost_pos : Qc) :
  (∀ x, x ≤ 0 → 0 < exp x ∧ exp x ≤ 1) →
  0 < safe_distance → 0 ≤ cost_h → 0 ≤ cost_pos →
  0 ≤ reward exp safe_distance separation cost_h cost_pos
  ∧ reward exp safe_distance separation cost_h cost_pos ≤ Num.frac 22 10
  ∧ (separation = 0 →
     reward exp safe_distance separation cost_h cost_pos = 0).
Proof.
  intros Hexp Hsd Hh Hp. unfold reward.
  assert (H16 : Num.frac 16 10 = Num.frac 8 5) by (by apply Qc_is_canon).
  assert (Hf : - cost_h * Num.frac 16 10 ≤ 0).
  { assert (0 ≤ Num.frac 16 10) by done.
    revert H. generalize (Num.frac 16 10). intros c Hc. qc_nra. }
  assert (Hq : - cost_pos ≤ 0) by qc_nra.
  destruct (Hexp _ Hf) as [Hf0 Hf1]. destruct (Hexp _ Hq) as [Hq0 Hq1].
  revert Hf0 Hf1 Hq0 Hq1.
  generalize (exp (- cost_h * Num.frac 16 10)) (exp (- cost_pos)).
  intros rf rp Hf0 Hf1 Hq0 Hq1.
  assert (Hs : 0 ≤ Num.clamp
                  (separation / safe_distance * (separation / safe_distance))
                  0 1 ≤ 1) by (by apply clamp_within).
  assert (H2 : Num.frac 2 10 * rp = rp * Num.frac 1 5).
  { replace (Num.frac 2 10) with (Num.frac 1 5) by (by apply Qc_is_canon).
    ring. }
  assert (H22 : Num.frac 22 10 = 1 + 1 + Num.frac 1 5)
    by (by apply Qc_is_canon).
  assert (H5 : 0 ≤ Num.frac 1 5 ∧ Num.frac 1 5 ≤ 1) by done.
  rewrite H2, H22. revert H5. generalize (Num.frac 1 5). intros c [Hc0 Hc1].
  split; [|split].
  - destruct Hs as [Hs0 _]. revert Hs0.
    generalize (Num.clamp
                  (separation / safe_distance * (separation / safe_distance))
                  0 1).
    intros rs Hs0.
    assert (0 ≤ rf + rf * rp + rp * c) by qc_nra.
    revert H. generalize (rf + rf * rp + rp * c). intros w Hw. qc_nra.
  - destruct Hs as [Hs0 Hs1]. revert Hs0 Hs1.
    generalize (Num.clamp
                  (separation / safe_distance * (separation / safe_distance))
                  0 1).
    intros rs Hs0 Hs1.
    assert (Hw0 : 0 ≤ rf + rf * rp + rp * c) by qc_nra.
    assert (Hw1 : rf + rf * rp + rp * c ≤ 1 + 1 + c) by qc_nra.
    revert Hw0 Hw1. generalize (rf + rf * rp + rp * c) (1 + 1 + c).
    intros w u Hw0 Hw1. qc_nra.
  - intros ->.
    replace (0 / safe_distance * (0 / safe_distance)) with 0
      by (unfold Qcdiv; ring).
    rewrite clamp_id by done. ring.
Qed.

Lemma sum_ge_lookup (l : list Qc) (i : nat) (x : Qc) :
  Forall (λ y, 0 ≤ y) l → l !! i = Some x → x ≤ Num.sum l.
Proof.
  intros Hl. revert i. unfold Num.sum.
  induction Hl as [|y l Hy Hl IH]; intros i Hi; [done|].
  cbn [foldr]. destruct i as [|i].
  - injection Hi as ->. apply sum_nonneg in Hl. unfold Num.sum in Hl.
    qc_nra.
  - specialize (IH i Hi). qc_nra.
Qed.

(** X27.  On a symmetric matrix [A] of non-negative pairwise distances,
    the unnormalised [laplacian] returns the matrix with entry
    [D[j] - A[i][j]] at row [i] and column [j], where [D[j]] is the sum
    of row [j]: [D] is broadcast along the rows instead of being put on
    the diagonal, so that no entry is negative, whereas a graph
    Laplacian has the entries [- A[i][j]] off the diagonal. *)
Theorem laplacian_entries (A : list (list Qc)) :
  Forall (λ row, length row = length A) A →
  Forall (Forall (λ a, 0 ≤ a)) A →
  (∀ i j ri rj a, A !! i = Some ri → A !! j = Some rj →
                  ri !! j = Some a → rj !! i = Some a) →
  ∀ i j ri rj a,
    A !! i = Some ri → A !! j = Some rj → ri !! j = Some a →
    ∃ Li,
      laplacian_of_distances A !! i = Some Li
      ∧ Li !! j = Some (Num.sum rj - a)
      ∧ 0 ≤ Num.sum rj - a.
Proof.
  intros Hsq Hnn Hsym i j ri rj a Hi Hj Ha.
  unfold laplacian_of_distances.
  rewrite list_lookup_fmap, Hi. eexists. split; [reflexivity|]. split.
  - rewrite lookup_zip_with, list_lookup_fmap, Hj, Ha. done.
  - assert (a ≤ Num.sum rj).
    { apply (sum_ge_lookup rj i); [|by eapply Hsym].
      rewrite Forall_lookup in Hnn. by apply (Hnn j). }
    qc_nra.
Qed.
End Formation.

Lemma sample_from_grid_distinct_witness :
  formation.sample_from_grid (λ n, reverse (seq 0 n)) [10; 20; 30; 40] 2
  = Some [40; 30].
Proof.
  destruct (sample_from_grid_distinct (λ n, reverse (seq 0 n))
              [10; 20; 30; 40] 2) as (out & H & _).
  { intros k. apply reverse_Permutation. }
  reflexivity.
Defined.

Lemma reward_bounded_witness :
  (formation.reward (λ _, 1) (Num.frac 1 1) (Num.frac 1 2) (Num.frac 3 1)
     (Num.frac 0 1)
   ≤ Num.frac 22 10)%Qc.
Proof.
  apply (reward_bounded (λ _, 1%Qc) (Num.frac 1 1) (Num.frac 1 2)
           (Num.frac 3 1) (Num.frac 0 1)); done.
Defined.

Lemma laplacian_entries_witness :
  formation.laplacian_of_distances
    [[Num.frac 0 1; Num.frac 3 1]; [Num.frac 3 1; Num.frac 0 1]]
  = [[Num.frac 3 1; Num.frac 0 1]; [Num.frac 0 1; Num.frac 3 1]]
  ∧ (0 ≤ Num.sum [Num.frac 3 1; Num.frac 0 1] - Num.frac 3 1)%Qc.
Proof.
  split; [by vm_compute|].
  destruct (laplacian_entries
              [[Num.frac 0 1; Num.frac 3 1]; [Num.frac 3 1; Num.frac 0 1]])
    with (i := 0%nat) (j := 1%nat)
         (ri := [Num.frac 0 1; Num.frac 3 1])
         (rj := [Num.frac 3 1; Num.frac 0 1]) (a := Num.frac 3 1)
    as (Li & _ & _ & H); try done.
  - by repeat constructor.
  - by repeat constructor.
  - intros [|[|i]] [|[|j]] ri rj a; cbn; intros; simplify_eq; try done.
Defined.

(** ** The ring after it has wrapped *)

Section BufferOrder.
Import common.
Context {A : Type}.

(** X28.  Once a buffer of capacity [max_size] has taken in at least
    [max_size] time steps ([n] in all), its rows, read by row index as
    [MyBuffer.sample] reads them, hold the newest [n mod max_size] steps
    first and, after them, the older [max_size - n mod max_size] steps
    that are still kept.  When [n] is a multiple of [max_size] this is
    the time order.  When it is not, row [n mod max_size - 1] holds the
    newest step and the next row the oldest step kept, so that a
    sub-trajectory covering both joins the newest step to the oldest
    one. *)
Theorem storage_rows_rotated (max_size : nat) (batches : list (list A)) :
  0 < max_size →
  Forall (λ data, data ≠ []) batches →
  let entries := concat batches in
  let n := length entries in
  max_size ≤ n →
  ∃ b,
    extend_all (MyBuffer_init max_size) batches = Some b
    ∧ len b = max_size
    ∧ (∀ i, i < max_size →
        _storage (storage b) !! i
        = (drop (n - n `mod` max_size) entries
           ++ take (max_size - n `mod` max_size) (drop (n - max_size) entries))
          !! i)
    ∧ (n `mod` max_size = 0 →
       ∀ i, i < max_size →
         _storage (storage b) !! i = entries !! (n - max_size + i))
    ∧ (0 < n `mod` max_size →
       _storage (storage b) !! (n `mod` max_size - 1) = entries !! (n - 1)
       ∧ _storage (storage b) !! (n `mod` max_size)
         = entries !! (n - max_size)).
Proof.
  intros HM Hne entries n Hn.
  destruct (extend_all_holds max_size batches (MyBuffer_init max_size) []
              HM Hne (holds_init max_size))
    as (b & Hb & [Hmax Hlen Hcur Hvalid Hlook]).
  cbn [app] in *. fold entries in Hlen, Hlook. fold n in Hlen, Hlook.
  exists b. split; [exact Hb|]. split; [lia|].
  pose proof (Nat.div_mod_eq n max_size) as Hdm.
  pose proof (Nat.mod_upper_bound n max_size ltac:(lia)) as Hc.
  set (c := n `mod` max_size) in *. set (q := n / max_size) in *.
  assert (Hq : 1 ≤ q) by nia.
  split; [|split].
  2:{ intros Hc0 i Hi. rewrite <- Hlook by lia. f_equal.
      apply (Nat.mod_unique _ _ (q - 1)); [lia | nia]. }
  2:{ intros Hc0. split.
      - rewrite <- Hlook by lia. f_equal.
        apply (Nat.mod_unique _ _ q); [lia | nia].
      - rewrite <- Hlook by lia. f_equal.
        apply (Nat.mod_unique _ _ (q - 1)); [lia | nia]. }
  intros i Hi.
  destruct (decide (i < c)) as [Hlt|Hge].
  - rewrite lookup_app_l by (rewrite length_drop; lia).
    rewrite lookup_drop, <- Hlook by lia. f_equal.
    apply (Nat.mod_unique _ _ q); [lia | nia].
  - rewrite lookup_app_r by (rewrite length_drop; lia).
    rewrite length_drop. replace (n - (n - c)) with c by lia.
    rewrite lookup_take_lt by lia.
    rewrite lookup_drop, <- Hlook by lia. f_equal.
    apply (Nat.mod_unique _ _ (q - 1)); [lia | nia].
Qed.
End BufferOrder.

Lemma storage_rows_rotated_witness :
  ∃ b,
    common.extend_all (common.MyBuffer_init 4) [[0]; [1]; [2]; [3]; [4]; [5]]
    = Some b
    ∧ (λ i, common._storage (common.storage b) !! i) <$> [0; 1; 2; 3]
      = [Some 4; Some 5; Some 2; Some 3].
Proof.
  destruct (storage_rows_rotated 4 [[0]; [1]; [2]; [3]; [4]; [5]])
    as (b & Hb & _ & Hrows & _); [lia | by repeat constructor | cbn; lia |].
  exists b. split; [exact Hb|].
  cbn [fmap list_fmap]. rewrite !Hrows by lia. reflexivity.
Defined.

(** ** The epochs of a PPO update *)

Section Epochs.
Import ppo ppo_train.
Context {A : Type}.

Lemma mapM_index_concat (l : list A) (perm : list (list nat))
    (batches : list (list A)) :
  mapM (index l) perm = Some batches →
  mapM (l !!.) (concat perm) = Some (concat batches).
Proof.
  revert batches. induction perm as [|row perm IH]; intros batches H.
  - by injection H as <-.
  - cbn in H. destruct (index l row) as [b|] eqn:Hb; [|done].
    destruct (mapM (index l) perm) as [bs|] eqn:Hbs; [|done].
    cbn in H. injection H as <-.
    cbn [concat]. apply mapM_Some_2, Forall2_app.
    + by apply mapM_Some_1.
    + apply mapM_Some_1. by apply IH.
Qed.

(** One pass of [make_batch] uses no element of the batch twice. *)
Lemma make_batch_submseteq (l : list A) (k : nat) (randperm : nat → list nat) :
  0 < k → (∀ n, randperm n ≡ₚ seq 0 n) →
  ∃ batches,
    make_batch l k randperm = Some batches
    ∧ length batches = k
    ∧ Forall (λ b, length b = length l / k) batches
    ∧ concat batches ⊆+ l.
Proof.
  intros Hk Hperm.
  destruct (make_batch_items l k randperm Hk Hperm)
    as (batches & Hb & Hlen & Hall).
  exists batches. split; [done|]. split; [done|]. split.
  { eapply Forall_impl; [exact Hall|]. by intros b [? _]. }
  set (cols := length l / k). set (selected := cols * k).
  assert (Hsel : selected ≤ length l).
  { unfold selected, cols. rewrite Nat.mul_comm. apply Nat.Div0.mul_div_le. }
  assert (Hl : length (randperm selected) = k * cols).
  { rewrite (Hperm selected), length_seq. unfold selected. lia. }
  unfold make_batch, make_batch_perm in Hb.
  rewrite decide_False in Hb by lia. fold cols in Hb. fold selected in Hb.
  rewrite (reshape_Some k _ cols) in Hb by done.
  cbn [mbind option_bind] in Hb.
  apply mapM_index_concat in Hb. rewrite concat_chunks in Hb by done.
  assert (Hsub : randperm selected ⊆+ seq 0 (length l)).
  { rewrite (Hperm selected).
    replace (length l) with (selected + (length l - selected)) by lia.
    rewrite seq_app. by apply submseteq_inserts_r. }
  destruct (mapM_submseteq (l !!.) _ _ l Hsub (mapM_lookup_seq l))
    as (k1 & Hk1 & Hs).
  rewrite Hb in Hk1. by injection Hk1 as <-.
Qed.

(** X29.  With [num_minibatches > 0] and [torch.randperm] returning
    permutations, one call of [train_op] with [ppo_epochs > 0] runs
    [_update] on [num_minibatches] minibatches in each of its
    [ppo_epochs] epochs; the minibatches of an epoch have
    [size // num_minibatches] elements each and, taken together, use no
    element of the batch more often than the batch holds it.  With
    [ppo_epochs = 0] nothing is updated and the call raises at
    [torch.stack(infos)]. *)
Theorem train_op_epochs (tensordict : list A)
    (ppo_epochs num_minibatches : nat) (randperm : nat → nat → list nat) :
  0 < num_minibatches →
  (∀ epoch n, randperm epoch n ≡ₚ seq 0 n) →
  (ppo_epochs = 0 →
   train_op_updates tensordict ppo_epochs num_minibatches randperm = None)
  ∧ (0 < ppo_epochs →
     ∃ epochs,
       train_op_updates tensordict ppo_epochs num_minibatches randperm
       = Some epochs
       ∧ length epochs = ppo_epochs
       ∧ Forall (λ batches,
           length batches = num_minibatches
           ∧ Forall (λ b, length b = length tensordict / num_minibatches)
               batches
           ∧ concat batches ⊆+ tensordict) epochs).
Proof.
  intros Hk Hperm. split.
  - intros ->. done.
  - intros He. unfold train_op_updates.
    destruct (mapM_Forall2
      (λ epoch, make_batch tensordict num_minibatches (randperm epoch))
      (λ _ batches,
         length batches = num_minibatches
         ∧ Forall (λ b, length b = length tensordict / num_minibatches)
             batches
         ∧ concat batches ⊆+ tensordict)
      (seq 0 ppo_epochs)) as (epochs & Hm & Hall).
    { intros epoch _.
      destruct (make_batch_submseteq tensordict num_minibatches
                  (randperm epoch) Hk (Hperm epoch))
        as (batches & ? & ? & ? & ?).
      by exists batches. }
    rewrite Hm. cbn [mbind option_bind].
    assert (Hlen : length epochs = ppo_epochs).
    { apply Forall2_length in Hall. by rewrite length_seq in Hall. }
    assert (Hne : concat epochs ≠ []).
    { destruct epochs as [|batches epochs]; [cbn in Hlen; lia|].
      apply Forall2_cons_inv_r in Hall as (? & ? & (Hb & _) & _ & _).
      destruct batches; [cbn in Hb; lia|]. done. }
    rewrite decide_False by done.
    exists epochs. split; [done|]. split; [done|].
    eapply Forall2_Forall_r; [exact Hall|].
    apply Forall_forall. by intros epoch _ batches Hb.
Qed.
End Epochs.

Lemma train_op_epochs_witness :
  ppo_train.train_op_updates [10; 20; 30; 40; 50] 2 2
    (λ epoch n, if decide (epoch = 0) then seq 0 n else reverse (seq 0 n))
  = Some [[[10; 20]; [30; 40]]; [[40; 30]; [20; 10]]].
Proof.
  destruct (train_op_epochs [10; 20; 30; 40; 50] 2 2
    (λ epoch n, if decide (epoch = 0) then seq 0 n else reverse (seq 0 n)))
    as [_ H]; [lia | |].
  { intros epoch n. case_decide; [done | apply reverse_Permutation]. }
  destruct H as (epochs & He & _); [lia|].
  reflexivity.
Defined.
